(** * Request-tracing probes: a shallow embedding and its properties

    The development embeds the eBPF probes of the hyper (HTTP server) and
    tonic (gRPC server and client) instrumentors together with the shared
    headers they include:

    - [include/common.h]        size constants and fixed-width integers
    - [include/utils.h]         random bytes and hexadecimal rendering
    - [include/arguments.h]     argument access from registers and stack
    - [include/rust_context.h]  the two request records
    - [pkg/instrumentors/bpf/hyper/bpf/probe.bpf.c]
    - [pkg/instrumentors/bpf/tonic/bpf/probe.bpf.c]

    Every probe is a function from the maps of its object file to the
    probe's return code and the maps afterwards.  What a probe observes of
    the outside world during one invocation (registers, the traced
    process's memory, the clock, the pseudo-random source) is collected in
    an [env]. *)

From Stdlib Require Import ZArith List Lia Bool.
From Stdlib Require Import Strings.Byte Strings.Ascii Strings.String.
From stdpp Require Import base option list gmap fin_maps.

Local Open Scope Z_scope.

(* ===================================================================== *)
(** ** Fixed-width integers ([common.h]) *)
(* ===================================================================== *)

Definition wrap (w : Z) (x : Z) : Z := x mod 2 ^ w.

Definition u8  (x : Z) : Z := wrap 8 x.
Definition u16 (x : Z) : Z := wrap 16 x.
Definition u32 (x : Z) : Z := wrap 32 x.
Definition u64 (x : Z) : Z := wrap 64 x.

(** [unsigned char] and [char] cells are [Byte.byte]; arithmetic on them is
    done on their value in [Z] and truncated back. *)
Definition byte_val (b : byte) : Z := Z.of_N (Byte.to_N b).

Definition byte_of (z : Z) : byte :=
  match Byte.of_N (Z.to_N (u8 z)) with
  | Some b => b
  | None => x00
  end.

Definition TRACE_ID_SIZE : Z := 16.
Definition SPAN_ID_SIZE : Z := 8.
Definition TRACE_ID_STRING_SIZE : Z := 32.
Definition SPAN_ID_STRING_SIZE : Z := 16.

Definition MAX_PATH_SIZE : Z := 256.
Definition MAX_METHOD_SIZE : Z := 16.
Definition MAX_HEADER_SIZE : Z := 256.

(** A zero-initialised [char buf[n]]. *)
Definition zeroed (n : Z) : list byte := replicate (Z.to_nat n) x00.

(** [buf[i]] for reading; outside the buffer the C program has no defined
    value, the model reads a zero byte there. *)
Definition cell (buf : list byte) (i : Z) : byte :=
  nth (Z.to_nat i) buf x00.

(** [buf[i] = v]; outside the buffer the model leaves the buffer as it is. *)
Definition store (buf : list byte) (i : Z) (v : byte) : list byte :=
  <[Z.to_nat i := v]> buf.

(* ===================================================================== *)
(** ** Hexadecimal helpers ([utils.h]) *)
(* ===================================================================== *)

(** [generate_random_bytes]: [buff[i] = bpf_get_prandom_u32() & 0xFF] for
    [i] from 0 to [size - 1].  [rnd n] is the value of the [n]-th call of
    the random helper in this invocation, [calls] the number of calls made
    before. *)
Fixpoint generate_random_bytes_loop (rnd : nat -> Z) (calls : nat)
    (todo : nat) (i : Z) (buff : list byte) : list byte :=
  match todo with
  | O => buff
  | S todo' =>
      let buff := store buff i (byte_of (Z.land (u32 (rnd calls)) 255)) in
      generate_random_bytes_loop rnd (S calls) todo' (u32 (i + 1)) buff
  end.

Definition generate_random_bytes (rnd : nat -> Z) (calls : nat)
    (buff : list byte) (size : Z) : list byte :=
  generate_random_bytes_loop rnd calls (Z.to_nat size) 0 buff.

Definition hex_char (value : byte) : byte :=
  if byte_val value <? 10
  then byte_of (byte_val "0"%byte + byte_val value)
  else byte_of (byte_val "a"%byte + (byte_val value - 10)).

(** The loop of [bytes_to_hex_string]; [i] is the [u32] counter and [todo]
    the number of iterations left ([size - i]). *)
Fixpoint bytes_to_hex_string_loop (todo : nat) (i : Z)
    (bytes : list byte) (out : list byte) : list byte :=
  match todo with
  | O => out
  | S todo' =>
      let out :=
        store out (u32 (i * 2))
          (hex_char (byte_of (Z.land (Z.shiftr (byte_val (cell bytes i)) 4) 15))) in
      let out :=
        store out (u32 (u32 (i * 2) + 1))
          (hex_char (byte_of (Z.land (byte_val (cell bytes i)) 15))) in
      bytes_to_hex_string_loop todo' (u32 (i + 1)) bytes out
  end.

Definition bytes_to_hex_string (bytes : list byte) (size : Z)
    (out : list byte) : list byte :=
  bytes_to_hex_string_loop (Z.to_nat size) 0 bytes out.

Definition hex_to_byte (c : byte) : byte :=
  if (byte_val "0"%byte <=? byte_val c) && (byte_val c <=? byte_val "9"%byte)
  then byte_of (byte_val c - byte_val "0"%byte)
  else if (byte_val "a"%byte <=? byte_val c) && (byte_val c <=? byte_val "f"%byte)
  then byte_of (byte_val c - byte_val "a"%byte + 10)
  else if (byte_val "A"%byte <=? byte_val c) && (byte_val c <=? byte_val "F"%byte)
  then byte_of (byte_val c - byte_val "A"%byte + 10)
  else x00.

(** The rendering as the specification words it, to compare
    [bytes_to_hex_string] with: per byte two characters, the digit of the
    high nibble and then the digit of the low nibble, taken from the
    sixteen lowercase hexadecimal digits in order of value. *)
Definition lower_hex_digits : list byte :=
  list_byte_of_string "0123456789abcdef".

Definition high_nibble (b : byte) : nat := Z.to_nat (byte_val b / 16).
Definition low_nibble (b : byte) : nat := Z.to_nat (byte_val b mod 16).

(** The two digits that render one byte: high nibble first. *)
Definition hex_pair (b : byte) : list byte :=
  [nth (high_nibble b) lower_hex_digits x00;
   nth (low_nibble b) lower_hex_digits x00].

Definition hex_render (bytes : list byte) : list byte :=
  flat_map hex_pair bytes.

(* ===================================================================== *)
(** ** Kernel helpers the probes call *)
(* ===================================================================== *)

(** The traced process's memory as one probe invocation sees it: the byte
    at an address, or nothing where the address is not mapped. *)
Definition memory : Type := Z -> option byte.

(** [n] consecutive bytes from [src], or nothing when one of them faults. *)
Fixpoint probe_read_bytes (m : memory) (src : Z) (n : nat) : option (list byte) :=
  match n with
  | O => Some []
  | S n' =>
      match m src with
      | None => None
      | Some b =>
          match probe_read_bytes m (src + 1) n' with
          | None => None
          | Some bs => Some (b :: bs)
          end
      end
  end.

(** [bpf_probe_read(dst, size, unsafe_ptr)]: the first [size] bytes of the
    destination object become the bytes read, or zero bytes when the read
    faults; the result is the destination object afterwards.  A [size]
    larger than the object shows as a result longer than [dst]. *)
Definition bpf_probe_read (dst : list byte) (size : Z) (m : memory)
    (unsafe_ptr : Z) : list byte :=
  let n := Z.to_nat size in
  match probe_read_bytes m unsafe_ptr n with
  | Some bs => bs ++ drop n dst
  | None => replicate n x00 ++ drop n dst
  end.

(** Little-endian object representation of a [u64] or a pointer. *)
Fixpoint le_val (bs : list byte) : Z :=
  match bs with
  | [] => 0
  | b :: bs' => byte_val b + 256 * le_val bs'
  end.

Fixpoint le_bytes (n : nat) (z : Z) : list byte :=
  match n with
  | O => []
  | S n' => byte_of z :: le_bytes n' (z / 256)
  end.

(** [bpf_probe_read(&x, sizeof(x), unsafe_ptr)] for an 8-byte scalar [x]
    whose value before the call is [init]. *)
Definition bpf_probe_read_u64 (init : Z) (m : memory) (unsafe_ptr : Z) : Z :=
  le_val (bpf_probe_read (le_bytes 8 init) 8 m unsafe_ptr).

Definition E2BIG : Z := 7.
Definition ENOENT : Z := 2.

(** [BPF_MAP_TYPE_HASH] with pointer keys.  [bpf_map_update_elem] with flag
    0 replaces the value of a present key and adds an absent key while the
    map holds fewer than [max_entries] entries. *)
Definition bpf_map_lookup_elem {V : Type} (m : gmap Z V) (key : Z) : option V :=
  m !! key.

Definition bpf_map_update_elem {V : Type} (max_entries : nat) (m : gmap Z V)
    (key : Z) (value : V) : Z * gmap Z V :=
  match m !! key with
  | Some _ => (0, <[key := value]> m)
  | None =>
      if decide (size m < max_entries)%nat
      then (0, <[key := value]> m)
      else (- E2BIG, m)
  end.

Definition bpf_map_delete_elem {V : Type} (m : gmap Z V) (key : Z)
    : Z * gmap Z V :=
  match m !! key with
  | Some _ => (0, delete key m)
  | None => (- ENOENT, m)
  end.

(* ===================================================================== *)
(** ** Argument access ([arguments.h], [rust_context.h]) *)
(* ===================================================================== *)

Inductive arch : Type := x86_64 | aarch64.

(** The registers of the interrupted call: the argument registers in the
    order of the calling convention, the stack pointer and the return-value
    register. *)
Record pt_regs : Type := mk_pt_regs {
  arg_regs : list Z;
  reg_sp : Z;
  reg_rc : Z
}.

Definition arg_reg (ctx : pt_regs) (n : nat) : Z := u64 (nth n (arg_regs ctx) 0).

Definition PT_REGS_SP (ctx : pt_regs) : Z := u64 (reg_sp ctx).
Definition PT_REGS_RC (ctx : pt_regs) : Z := u64 (reg_rc ctx).

Definition get_argument (target : arch) (ctx : pt_regs) (pos : Z) : Z :=
  match target with
  | x86_64 =>
      match pos with
      | 1 => arg_reg ctx 0
      | 2 => arg_reg ctx 1
      | 3 => arg_reg ctx 2
      | 4 => arg_reg ctx 3
      | 5 => arg_reg ctx 4
      | 6 => arg_reg ctx 5
      | _ => 0
      end
  | aarch64 =>
      match pos with
      | 1 => arg_reg ctx 0
      | 2 => arg_reg ctx 1
      | 3 => arg_reg ctx 2
      | 4 => arg_reg ctx 3
      | 5 => arg_reg ctx 4
      | 6 => arg_reg ctx 5
      | 7 => arg_reg ctx 6
      | 8 => arg_reg ctx 7
      | _ => 0
      end
  end.

Definition get_argument_by_stack (m : memory) (ctx : pt_regs) (pos : Z) : Z :=
  let ptr := 0 in
  let sp := PT_REGS_SP ctx in
  bpf_probe_read_u64 ptr m (u64 (sp + pos * 8)).

Definition get_return_value (ctx : pt_regs) : Z := PT_REGS_RC ctx.

(** What one probe invocation reads from outside the maps. *)
Record env : Type := mk_env {
  ctx : pt_regs;
  user_mem : memory;
  ktime : Z;
  prandom : nat -> Z
}.

Definition bpf_ktime_get_ns (e : env) : Z := u64 (ktime e).

(* ===================================================================== *)
(** ** Span context *)
(* ===================================================================== *)

(** Modelled from the spec: [span_context.h] ([struct span_context],
    [generate_span_context] and the declaration of the [spans_in_progress]
    map) is not among the sources.  The record holds the trace identifier,
    the span identifier and their hexadecimal string forms; the generator
    fills a 16-byte and an 8-byte buffer with random bytes and renders each
    of them at once. *)
Record span_context : Type := mk_span_context {
  TraceID : list byte;
  SpanID : list byte;
  TraceIDHex : list byte;
  SpanIDHex : list byte
}.

Definition span_context_zero : span_context :=
  {| TraceID := zeroed TRACE_ID_SIZE;
     SpanID := zeroed SPAN_ID_SIZE;
     TraceIDHex := zeroed TRACE_ID_STRING_SIZE;
     SpanIDHex := zeroed SPAN_ID_STRING_SIZE |}.

(** Modelled from the spec: [generate_span_context] of the absent
    [span_context.h], built from [generate_random_bytes] and
    [bytes_to_hex_string] of [utils.h]. *)
Definition generate_span_context (e : env) : span_context :=
  let context := span_context_zero in
  let trace := generate_random_bytes (prandom e) 0 (TraceID context) TRACE_ID_SIZE in
  let span :=
    generate_random_bytes (prandom e) (Z.to_nat TRACE_ID_SIZE)
      (SpanID context) SPAN_ID_SIZE in
  {| TraceID := trace;
     SpanID := span;
     TraceIDHex := bytes_to_hex_string trace TRACE_ID_SIZE (TraceIDHex context);
     SpanIDHex := bytes_to_hex_string span SPAN_ID_SIZE (SpanIDHex context) |}.

(** What the build fixes for both object files: the target architecture and
    [max_entries] of [spans_in_progress], whose declaration is in the absent
    [span_context.h]. *)
Record build : Type := mk_build {
  target : arch;
  spans_max_entries : nat
}.

(* ===================================================================== *)
(** ** The hyper instrumentor ([hyper/bpf/probe.bpf.c]) *)
(* ===================================================================== *)

Module Hyper.

Definition MAX_CONCURRENT : nat := 50.

(** [struct http_request_t] of [rust_context.h]. *)
Record http_request_t : Type := mk_http_request {
  start_time : Z;
  end_time : Z;
  method : list byte;
  path : list byte;
  status_code : Z;
  sc : span_context
}.

(** [struct http_request_t httpReq = {}]. *)
Definition http_request_zero : http_request_t :=
  {| start_time := 0;
     end_time := 0;
     method := zeroed MAX_METHOD_SIZE;
     path := zeroed MAX_PATH_SIZE;
     status_code := 0;
     sc := span_context_zero |}.

Definition set_start_time (v : Z) (r : http_request_t) : http_request_t :=
  mk_http_request v (end_time r) (method r) (path r) (status_code r) (sc r).
Definition set_end_time (v : Z) (r : http_request_t) : http_request_t :=
  mk_http_request (start_time r) v (method r) (path r) (status_code r) (sc r).
Definition set_method (v : list byte) (r : http_request_t) : http_request_t :=
  mk_http_request (start_time r) (end_time r) v (path r) (status_code r) (sc r).
Definition set_path (v : list byte) (r : http_request_t) : http_request_t :=
  mk_http_request (start_time r) (end_time r) (method r) v (status_code r) (sc r).
Definition set_sc (v : span_context) (r : http_request_t) : http_request_t :=
  mk_http_request (start_time r) (end_time r) (method r) (path r) (status_code r) v.

(** The volatile constants the loader writes before the probes run. *)
Record rodata : Type := mk_rodata {
  method_ptr_pos : Z;
  uri_ptr_pos : Z;
  path_ptr_pos : Z
}.

(** The maps of the object file; [events] is the sequence of records handed
    to [bpf_perf_event_output], oldest first. *)
Record maps : Type := mk_maps {
  context_to_http_events : gmap Z http_request_t;
  spans_in_progress : gmap Z span_context;
  events : list http_request_t
}.

Definition init : maps := mk_maps ∅ ∅ [].

Definition with_context_to_http_events (t : gmap Z http_request_t) (s : maps) : maps :=
  mk_maps t (spans_in_progress s) (events s).
Definition with_spans_in_progress (t : gmap Z span_context) (s : maps) : maps :=
  mk_maps (context_to_http_events s) t (events s).

(** [bpf_perf_event_output(ctx, &events, BPF_F_CURRENT_CPU, &r, sizeof(r))]. *)
Definition bpf_perf_event_output (r : http_request_t) (s : maps) : maps :=
  mk_maps (context_to_http_events s) (spans_in_progress s) (events s ++ [r]).

Section Probes.

Variable bld : build.
Variable ro : rodata.

Definition uprobe_hyper_serve_connection (e : env) (s : maps) : Z * maps :=
  let httpReq := http_request_zero in
  let httpReq := set_start_time (bpf_ktime_get_ns e) httpReq in
  let self_ptr := get_argument (target bld) (ctx e) 1 in
  if self_ptr =? 0 then (0, s) else
  let httpReq := set_sc (generate_span_context e) httpReq in
  let s := with_context_to_http_events
             (snd (bpf_map_update_elem MAX_CONCURRENT
                     (context_to_http_events s) self_ptr httpReq)) s in
  let s := with_spans_in_progress
             (snd (bpf_map_update_elem (spans_max_entries bld)
                     (spans_in_progress s) self_ptr (sc httpReq))) s in
  (0, s).

(** [bpf_map_lookup_elem] gives the value stored under the key, or nothing
    (the null pointer); [bpf_probe_read(&httpReq, sizeof(httpReq),
    httpReq_ptr)] copies that value into the local record. *)
Definition uprobe_hyper_serve_connection_return (e : env) (s : maps) : Z * maps :=
  let self_ptr := get_argument_by_stack (user_mem e) (ctx e) 1 in
  if self_ptr =? 0 then (0, s) else
  match bpf_map_lookup_elem (context_to_http_events s) self_ptr with
  | None => (0, s)
  | Some httpReq_ptr =>
      let httpReq := httpReq_ptr in
      let httpReq := set_end_time (bpf_ktime_get_ns e) httpReq in
      let s := bpf_perf_event_output httpReq s in
      let s := with_context_to_http_events
                 (snd (bpf_map_delete_elem (context_to_http_events s) self_ptr)) s in
      let s := with_spans_in_progress
                 (snd (bpf_map_delete_elem (spans_in_progress s) self_ptr)) s in
      (0, s)
  end.

Definition uprobe_hyper_request_method (e : env) (s : maps) : Z * maps :=
  let request_ptr := get_argument (target bld) (ctx e) 1 in
  if request_ptr =? 0 then (0, s) else
  let method_ptr :=
    bpf_probe_read_u64 0 (user_mem e) (u64 (request_ptr + method_ptr_pos ro)) in
  if method_ptr =? 0 then (0, s) else
  match bpf_map_lookup_elem (context_to_http_events s) request_ptr with
  | None => (0, s)
  | Some httpReq_ptr =>
      let httpReq := httpReq_ptr in
      let method_len :=
        bpf_probe_read_u64 0 (user_mem e)
          (u64 (request_ptr + method_ptr_pos ro + 8)) in
      let method_size := MAX_METHOD_SIZE in
      let method_size :=
        if method_size <? method_len then method_size else method_len in
      let httpReq :=
        set_method
          (bpf_probe_read (method httpReq) method_size (user_mem e) method_ptr)
          httpReq in
      let s := with_context_to_http_events
                 (snd (bpf_map_update_elem MAX_CONCURRENT
                         (context_to_http_events s) request_ptr httpReq)) s in
      (0, s)
  end.

Definition uprobe_hyper_request_uri (e : env) (s : maps) : Z * maps :=
  let request_ptr := get_argument (target bld) (ctx e) 1 in
  if request_ptr =? 0 then (0, s) else
  let uri_ptr :=
    bpf_probe_read_u64 0 (user_mem e) (u64 (request_ptr + uri_ptr_pos ro)) in
  if uri_ptr =? 0 then (0, s) else
  match bpf_map_lookup_elem (context_to_http_events s) request_ptr with
  | None => (0, s)
  | Some httpReq_ptr =>
      let httpReq := httpReq_ptr in
      let path_ptr :=
        bpf_probe_read_u64 0 (user_mem e) (u64 (uri_ptr + path_ptr_pos ro)) in
      let path_len :=
        bpf_probe_read_u64 0 (user_mem e) (u64 (uri_ptr + path_ptr_pos ro + 8)) in
      let path_size := MAX_PATH_SIZE in
      let path_size := if path_size <? path_len then path_size else path_len in
      let httpReq :=
        set_path (bpf_probe_read (path httpReq) path_size (user_mem e) path_ptr)
          httpReq in
      let s := with_context_to_http_events
                 (snd (bpf_map_update_elem MAX_CONCURRENT
                         (context_to_http_events s) request_ptr httpReq)) s in
      (0, s)
  end.

(** The four attachment points and executions as sequences of firings. *)
Inductive probe : Type :=
  | serve_connection
  | serve_connection_return
  | request_method
  | request_uri.

Definition fire (p : probe) (e : env) (s : maps) : Z * maps :=
  match p with
  | serve_connection => uprobe_hyper_serve_connection e s
  | serve_connection_return => uprobe_hyper_serve_connection_return e s
  | request_method => uprobe_hyper_request_method e s
  | request_uri => uprobe_hyper_request_uri e s
  end.

Definition step (s : maps) (ev : probe * env) : maps :=
  snd (fire (fst ev) (snd ev) s).

Definition run (evs : list (probe * env)) (s : maps) : maps :=
  fold_left step evs s.

End Probes.

End Hyper.

(* ===================================================================== *)
(** ** The tonic instrumentor ([tonic/bpf/probe.bpf.c]) *)
(* ===================================================================== *)

Module Tonic.

Definition MAX_CONCURRENT : nat := 50.

(** [struct grpc_request_t] of [rust_context.h]. *)
Record grpc_request_t : Type := mk_grpc_request {
  start_time : Z;
  end_time : Z;
  service : list byte;
  method : list byte;
  status_code : Z;
  sc : span_context
}.

(** [struct grpc_request_t grpcReq = {}]. *)
Definition grpc_request_zero : grpc_request_t :=
  {| start_time := 0;
     end_time := 0;
     service := zeroed MAX_PATH_SIZE;
     method := zeroed MAX_METHOD_SIZE;
     status_code := 0;
     sc := span_context_zero |}.

Definition set_start_time (v : Z) (r : grpc_request_t) : grpc_request_t :=
  mk_grpc_request v (end_time r) (service r) (method r) (status_code r) (sc r).
Definition set_end_time (v : Z) (r : grpc_request_t) : grpc_request_t :=
  mk_grpc_request (start_time r) v (service r) (method r) (status_code r) (sc r).
Definition set_service (v : list byte) (r : grpc_request_t) : grpc_request_t :=
  mk_grpc_request (start_time r) (end_time r) v (method r) (status_code r) (sc r).
Definition set_method (v : list byte) (r : grpc_request_t) : grpc_request_t :=
  mk_grpc_request (start_time r) (end_time r) (service r) v (status_code r) (sc r).
Definition set_sc (v : span_context) (r : grpc_request_t) : grpc_request_t :=
  mk_grpc_request (start_time r) (end_time r) (service r) (method r) (status_code r) v.

(** The volatile constants the loader writes before the probes run. *)
Record rodata : Type := mk_rodata {
  service_ptr_pos : Z;
  method_ptr_pos : Z
}.

(** The maps of the object file; [grpc_events] is the sequence of records
    handed to [bpf_perf_event_output], oldest first. *)
Record maps : Type := mk_maps {
  context_to_grpc_events : gmap Z grpc_request_t;
  spans_in_progress : gmap Z span_context;
  grpc_events : list grpc_request_t
}.

Definition init : maps := mk_maps ∅ ∅ [].

Definition with_context_to_grpc_events (t : gmap Z grpc_request_t) (s : maps) : maps :=
  mk_maps t (spans_in_progress s) (grpc_events s).
Definition with_spans_in_progress (t : gmap Z span_context) (s : maps) : maps :=
  mk_maps (context_to_grpc_events s) t (grpc_events s).

(** [bpf_perf_event_output(ctx, &grpc_events, BPF_F_CURRENT_CPU, &r, sizeof(r))]. *)
Definition bpf_perf_event_output (r : grpc_request_t) (s : maps) : maps :=
  mk_maps (context_to_grpc_events s) (spans_in_progress s) (grpc_events s ++ [r]).

Section Probes.

Variable bld : build.
Variable ro : rodata.

Definition uprobe_tonic_server_serve (e : env) (s : maps) : Z * maps :=
  let grpcReq := grpc_request_zero in
  let grpcReq := set_start_time (bpf_ktime_get_ns e) grpcReq in
  let self_ptr := get_argument (target bld) (ctx e) 1 in
  if self_ptr =? 0 then (0, s) else
  let grpcReq := set_sc (generate_span_context e) grpcReq in
  let s := with_context_to_grpc_events
             (snd (bpf_map_update_elem MAX_CONCURRENT
                     (context_to_grpc_events s) self_ptr grpcReq)) s in
  let s := with_spans_in_progress
             (snd (bpf_map_update_elem (spans_max_entries bld)
                     (spans_in_progress s) self_ptr (sc grpcReq))) s in
  (0, s).

(** As in the hyper probes, the record is copied out of the value that
    [bpf_map_lookup_elem] found. *)
Definition uprobe_tonic_server_serve_return (e : env) (s : maps) : Z * maps :=
  let self_ptr := get_argument_by_stack (user_mem e) (ctx e) 1 in
  if self_ptr =? 0 then (0, s) else
  match bpf_map_lookup_elem (context_to_grpc_events s) self_ptr with
  | None => (0, s)
  | Some grpcReq_ptr =>
      let grpcReq := grpcReq_ptr in
      let grpcReq := set_end_time (bpf_ktime_get_ns e) grpcReq in
      let s := bpf_perf_event_output grpcReq s in
      let s := with_context_to_grpc_events
                 (snd (bpf_map_delete_elem (context_to_grpc_events s) self_ptr)) s in
      let s := with_spans_in_progress
                 (snd (bpf_map_delete_elem (spans_in_progress s) self_ptr)) s in
      (0, s)
  end.

Definition uprobe_tonic_client_call (e : env) (s : maps) : Z * maps :=
  let grpcReq := grpc_request_zero in
  let grpcReq := set_start_time (bpf_ktime_get_ns e) grpcReq in
  let self_ptr := get_argument (target bld) (ctx e) 1 in
  if self_ptr =? 0 then (0, s) else
  let service_ptr :=
    bpf_probe_read_u64 0 (user_mem e) (u64 (self_ptr + service_ptr_pos ro)) in
  let grpcReq :=
    if service_ptr =? 0 then grpcReq else
    let service_len :=
      bpf_probe_read_u64 0 (user_mem e)
        (u64 (self_ptr + service_ptr_pos ro + 8)) in
    let service_size := MAX_PATH_SIZE in
    let service_size :=
      if service_size <? service_len then service_size else service_len in
    set_service
      (bpf_probe_read (service grpcReq) service_size (user_mem e) service_ptr)
      grpcReq in
  let method_ptr :=
    bpf_probe_read_u64 0 (user_mem e) (u64 (self_ptr + method_ptr_pos ro)) in
  let grpcReq :=
    if method_ptr =? 0 then grpcReq else
    let method_len :=
      bpf_probe_read_u64 0 (user_mem e)
        (u64 (self_ptr + method_ptr_pos ro + 8)) in
    let method_size := MAX_METHOD_SIZE in
    let method_size :=
      if method_size <? method_len then method_size else method_len in
    set_method
      (bpf_probe_read (method grpcReq) method_size (user_mem e) method_ptr)
      grpcReq in
  let grpcReq := set_sc (generate_span_context e) grpcReq in
  let s := with_context_to_grpc_events
             (snd (bpf_map_update_elem MAX_CONCURRENT
                     (context_to_grpc_events s) self_ptr grpcReq)) s in
  let s := with_spans_in_progress
             (snd (bpf_map_update_elem (spans_max_entries bld)
                     (spans_in_progress s) self_ptr (sc grpcReq))) s in
  (0, s).

Definition uprobe_tonic_client_call_return (e : env) (s : maps) : Z * maps :=
  let self_ptr := get_argument_by_stack (user_mem e) (ctx e) 1 in
  if self_ptr =? 0 then (0, s) else
  match bpf_map_lookup_elem (context_to_grpc_events s) self_ptr with
  | None => (0, s)
  | Some grpcReq_ptr =>
      let grpcReq := grpcReq_ptr in
      let grpcReq := set_end_time (bpf_ktime_get_ns e) grpcReq in
      let s := bpf_perf_event_output grpcReq s in
      let s := with_context_to_grpc_events
                 (snd (bpf_map_delete_elem (context_to_grpc_events s) self_ptr)) s in
      let s := with_spans_in_progress
                 (snd (bpf_map_delete_elem (spans_in_progress s) self_ptr)) s in
      (0, s)
  end.

(** The four attachment points and executions as sequences of firings. *)
Inductive probe : Type :=
  | server_serve
  | server_serve_return
  | client_call
  | client_call_return.

Definition fire (p : probe) (e : env) (s : maps) : Z * maps :=
  match p with
  | server_serve => uprobe_tonic_server_serve e s
  | server_serve_return => uprobe_tonic_server_serve_return e s
  | client_call => uprobe_tonic_client_call e s
  | client_call_return => uprobe_tonic_client_call_return e s
  end.

Definition step (s : maps) (ev : probe * env) : maps :=
  snd (fire (fst ev) (snd ev) s).

Definition run (evs : list (probe * env)) (s : maps) : maps :=
  fold_left step evs s.

End Probes.

End Tonic.

(* ===================================================================== *)
(** ** The remaining helpers of [utils.h] and [rust_context.h] *)
(* ===================================================================== *)

(** The loop of [hex_string_to_bytes]; [i] is the [u32] counter and [todo]
    the number of iterations left ([hex_len / 2 - i]). *)
Fixpoint hex_string_to_bytes_loop (todo : nat) (i : Z)
    (hex : list byte) (out : list byte) : list byte :=
  match todo with
  | O => out
  | S todo' =>
      let out :=
        store out i
          (byte_of
             (Z.lor
                (Z.shiftl (byte_val (hex_to_byte (cell hex (u32 (i * 2))))) 4)
                (byte_val (hex_to_byte (cell hex (u32 (u32 (i * 2) + 1))))))) in
      hex_string_to_bytes_loop todo' (u32 (i + 1)) hex out
  end.

Definition hex_string_to_bytes (hex : list byte) (hex_len : Z)
    (out : list byte) : list byte :=
  hex_string_to_bytes_loop (Z.to_nat (hex_len / 2)) 0 hex out.

(** [get_argument_system_v] of [rust_context.h]. *)
Definition get_argument_system_v (ctx : pt_regs) (pos : Z) : Z :=
  match pos with
  | 1 => arg_reg ctx 0
  | 2 => arg_reg ctx 1
  | 3 => arg_reg ctx 2
  | 4 => arg_reg ctx 3
  | 5 => arg_reg ctx 4
  | 6 => arg_reg ctx 5
  | _ => 0
  end.

(* ===================================================================== *)
(** ** Identities, executions and concrete inputs *)
(* ===================================================================== *)

(** The identity key a hyper probe derives from its invocation: the return
    probe reads it from the stack, the others from the first argument
    register. *)
Definition hyper_identity (bld : build) (p : Hyper.probe) (e : env) : Z :=
  match p with
  | Hyper.serve_connection_return =>
      get_argument_by_stack (user_mem e) (ctx e) 1
  | _ => get_argument (target bld) (ctx e) 1
  end.

Definition tonic_identity (bld : build) (p : Tonic.probe) (e : env) : Z :=
  match p with
  | Tonic.server_serve_return | Tonic.client_call_return =>
      get_argument_by_stack (user_mem e) (ctx e) 1
  | _ => get_argument (target bld) (ctx e) 1
  end.

Definition hyper_is_return (p : Hyper.probe) : bool :=
  match p with Hyper.serve_connection_return => true | _ => false end.

Definition tonic_is_entry (p : Tonic.probe) : bool :=
  match p with Tonic.server_serve | Tonic.client_call => true | _ => false end.

Definition tonic_is_return (p : Tonic.probe) : bool :=
  negb (tonic_is_entry p).

(** A firing that would remove key [k]: a return probe whose identity is [k]. *)
Definition hyper_removes (bld : build) (k : Z) (ev : Hyper.probe * env) : Prop :=
  hyper_is_return (fst ev) = true /\ hyper_identity bld (fst ev) (snd ev) = k.

Definition tonic_removes (bld : build) (k : Z) (ev : Tonic.probe * env) : Prop :=
  tonic_is_return (fst ev) = true /\ tonic_identity bld (fst ev) (snd ev) = k.

(** The clock readings of an entry at [t0], of the firings in between and of
    the return at [t1]: the clock has started, does not run backwards and
    has advanced when the return probe fires. *)
Definition clock_between {P : Type} (t0 : Z) (mid : list (P * env)) (t1 : Z) : Prop :=
  0 < t0 /\
  Forall (fun ev => t0 <= ktime (snd ev) < t1) mid /\
  t0 < t1 < 2 ^ 64.

(** Every clock reading of an execution is a non-zero [u64]. *)
Definition clock_started {P : Type} (evs : list (P * env)) : Prop :=
  Forall (fun ev => 0 < ktime (snd ev) < 2 ^ 64) evs.

(** The record an entry probe builds before any field extraction. *)
Definition hyper_opened (e : env) : Hyper.http_request_t :=
  Hyper.set_sc (generate_span_context e)
    (Hyper.set_start_time (bpf_ktime_get_ns e) Hyper.http_request_zero).

Definition tonic_opened (e : env) : Tonic.grpc_request_t :=
  Tonic.set_sc (generate_span_context e)
    (Tonic.set_start_time (bpf_ktime_get_ns e) Tonic.grpc_request_zero).

(** Memory given by segments [(base, bytes)]; everything else is unmapped. *)
Fixpoint mem_of (segs : list (Z * list byte)) (a : Z) : option byte :=
  match segs with
  | [] => None
  | (base, bs) :: rest =>
      if (base <=? a) && (a <? base + Z.of_nat (length bs))
      then nth_error bs (Z.to_nat (a - base))
      else mem_of rest a
  end.

Definition sample_build : build :=
  {| target := x86_64; spans_max_entries := 64 |}.

Definition sample_hyper_rodata : Hyper.rodata :=
  {| Hyper.method_ptr_pos := 16; Hyper.uri_ptr_pos := 32; Hyper.path_ptr_pos := 8 |}.

Definition sample_tonic_rodata : Tonic.rodata :=
  {| Tonic.service_ptr_pos := 48; Tonic.method_ptr_pos := 64 |}.

Definition sample_prandom (n : nat) : Z := 2654435761 * (Z.of_nat n + 1) + 40503.

(** A process image with one object at address [key].  Read as a hyper
    connection its method is ["GET"] and its URI has the path ["/healthz"];
    read as a tonic client call its service is ["pkg.Svc"] and its method
    the 21 characters ["GetFeatureStreamingV2"].  The stack frame at
    [0x7000] holds [key] in its first slot. *)
Definition sample_mem (key : Z) : memory :=
  mem_of
    [ (key + 16, le_bytes 8 0x5000 ++ le_bytes 8 3);
      (key + 32, le_bytes 8 0x6000);
      (key + 48, le_bytes 8 0x5100 ++ le_bytes 8 7);
      (key + 64, le_bytes 8 0x5200 ++ le_bytes 8 21);
      (0x5000, list_byte_of_string "GET");
      (0x5100, list_byte_of_string "pkg.Svc");
      (0x5200, list_byte_of_string "GetFeatureStreamingV2");
      (0x6008, le_bytes 8 0x6100 ++ le_bytes 8 8);
      (0x6100, list_byte_of_string "/healthz");
      (0x7008, le_bytes 8 key) ].

(** An invocation with [key] in the first argument register and in the
    first stack slot, at clock reading [t]. *)
Definition sample_env (key t : Z) : env :=
  {| ctx := {| arg_regs := [key; 0; 0; 0; 0; 0]; reg_sp := 0x7000; reg_rc := 0 |};
     user_mem := sample_mem key;
     ktime := t;
     prandom := sample_prandom |}.

Definition sample_trace_id : list byte :=
  [xde; xad; xbe; xef; x00; x01; x02; x03; x10; x20; x30; x40; xa5; x5a; xff; x7f].

(* ===================================================================== *)
(** ** What one firing does to the maps *)
(* ===================================================================== *)

(** Two HTTP records that differ at most in their text fields, whose
    capacities are kept. *)
Definition hyper_same_but_text (r r' : Hyper.http_request_t) : Prop :=
  Hyper.start_time r' = Hyper.start_time r /\
  Hyper.end_time r' = Hyper.end_time r /\
  Hyper.status_code r' = Hyper.status_code r /\
  Hyper.sc r' = Hyper.sc r /\
  (length (Hyper.method r) = Z.to_nat MAX_METHOD_SIZE ->
   length (Hyper.method r') = Z.to_nat MAX_METHOD_SIZE) /\
  (length (Hyper.path r) = Z.to_nat MAX_PATH_SIZE ->
   length (Hyper.path r') = Z.to_nat MAX_PATH_SIZE).

(** The four things a hyper probe can do: nothing, open a record under its
    identity key, enrich the record found under it, or close it. *)
Inductive hyper_effect (bld : build) (p : Hyper.probe) (e : env)
    (s s' : Hyper.maps) : Prop :=
  | hyper_skips :
      s' = s ->
      hyper_effect bld p e s s'
  | hyper_opens :
      p = Hyper.serve_connection ->
      hyper_identity bld p e <> 0 ->
      Hyper.context_to_http_events s'
      = snd (bpf_map_update_elem Hyper.MAX_CONCURRENT
               (Hyper.context_to_http_events s)
               (hyper_identity bld p e) (hyper_opened e)) ->
      Hyper.spans_in_progress s'
      = snd (bpf_map_update_elem (spans_max_entries bld)
               (Hyper.spans_in_progress s)
               (hyper_identity bld p e) (Hyper.sc (hyper_opened e))) ->
      Hyper.events s' = Hyper.events s ->
      hyper_effect bld p e s s'
  | hyper_enriches (r r' : Hyper.http_request_t) :
      p = Hyper.request_method \/ p = Hyper.request_uri ->
      Hyper.context_to_http_events s !! hyper_identity bld p e = Some r ->
      hyper_same_but_text r r' ->
      Hyper.context_to_http_events s'
      = <[hyper_identity bld p e := r']> (Hyper.context_to_http_events s) ->
      Hyper.spans_in_progress s' = Hyper.spans_in_progress s ->
      Hyper.events s' = Hyper.events s ->
      hyper_effect bld p e s s'
  | hyper_closes (r : Hyper.http_request_t) :
      p = Hyper.serve_connection_return ->
      Hyper.context_to_http_events s !! hyper_identity bld p e = Some r ->
      Hyper.context_to_http_events s'
      = delete (hyper_identity bld p e) (Hyper.context_to_http_events s) ->
      Hyper.spans_in_progress s'
      = delete (hyper_identity bld p e) (Hyper.spans_in_progress s) ->
      Hyper.events s'
      = Hyper.events s ++ [Hyper.set_end_time (bpf_ktime_get_ns e) r] ->
      hyper_effect bld p e s s'.

(* ===================================================================== *)
(** ** Invariants of the hyper maps *)
(* ===================================================================== *)

(** A record in progress: not yet closed, status untouched, text fields of
    their declared capacity. *)
Definition hyper_in_progress (r : Hyper.http_request_t) : Prop :=
  Hyper.end_time r = 0 /\
  Hyper.status_code r = 0 /\
  length (Hyper.method r) = Z.to_nat MAX_METHOD_SIZE /\
  length (Hyper.path r) = Z.to_nat MAX_PATH_SIZE.

Definition hyper_inv (s : Hyper.maps) : Prop :=
  (size (Hyper.context_to_http_events s) <= Hyper.MAX_CONCURRENT)%nat /\
  (forall k r, Hyper.context_to_http_events s !! k = Some r -> hyper_in_progress r) /\
  Forall (fun r => Hyper.status_code r = 0) (Hyper.events s).


Definition hyper_clock_inv (s : Hyper.maps) : Prop :=
  (forall k r, Hyper.context_to_http_events s !! k = Some r ->
               Hyper.start_time r <> 0) /\
  Forall (fun r => Hyper.start_time r <> 0) (Hyper.events s).

(* ===================================================================== *)
(** ** What one tonic firing does, and the invariants of the tonic maps *)
(* ===================================================================== *)

(** The record the client entry probe has built when it reaches the
    insertion: each text field is extracted unless its source pointer is
    null. *)
Definition tonic_client_opened (ro : Tonic.rodata) (bld : build) (e : env)
    : Tonic.grpc_request_t :=
  let k := get_argument (target bld) (ctx e) 1 in
  let service_ptr :=
    bpf_probe_read_u64 0 (user_mem e) (u64 (k + Tonic.service_ptr_pos ro)) in
  let service_len :=
    bpf_probe_read_u64 0 (user_mem e) (u64 (k + Tonic.service_ptr_pos ro + 8)) in
  let method_ptr :=
    bpf_probe_read_u64 0 (user_mem e) (u64 (k + Tonic.method_ptr_pos ro)) in
  let method_len :=
    bpf_probe_read_u64 0 (user_mem e) (u64 (k + Tonic.method_ptr_pos ro + 8)) in
  {| Tonic.start_time := bpf_ktime_get_ns e;
     Tonic.end_time := 0;
     Tonic.service :=
       if service_ptr =? 0 then zeroed MAX_PATH_SIZE
       else bpf_probe_read (zeroed MAX_PATH_SIZE)
              (if MAX_PATH_SIZE <? service_len then MAX_PATH_SIZE else service_len)
              (user_mem e) service_ptr;
     Tonic.method :=
       if method_ptr =? 0 then zeroed MAX_METHOD_SIZE
       else bpf_probe_read (zeroed MAX_METHOD_SIZE)
              (if MAX_METHOD_SIZE <? method_len then MAX_METHOD_SIZE else method_len)
              (user_mem e) method_ptr;
     Tonic.status_code := 0;
     Tonic.sc := generate_span_context e |}.

(** The record an entry probe inserts. *)
Definition tonic_entry_record (ro : Tonic.rodata) (bld : build)
    (p : Tonic.probe) (e : env) : Tonic.grpc_request_t :=
  match p with
  | Tonic.client_call => tonic_client_opened ro bld e
  | _ => tonic_opened e
  end.

(** The three things a tonic probe can do: nothing, open a record under its
    identity key, or close the record found under it. *)
Inductive tonic_effect (ro : Tonic.rodata) (bld : build) (p : Tonic.probe)
    (e : env) (s s' : Tonic.maps) : Prop :=
  | tonic_skips :
      s' = s ->
      tonic_effect ro bld p e s s'
  | tonic_opens :
      tonic_is_entry p = true ->
      tonic_identity bld p e <> 0 ->
      Tonic.context_to_grpc_events s'
      = snd (bpf_map_update_elem Tonic.MAX_CONCURRENT
               (Tonic.context_to_grpc_events s)
               (tonic_identity bld p e) (tonic_entry_record ro bld p e)) ->
      Tonic.spans_in_progress s'
      = snd (bpf_map_update_elem (spans_max_entries bld)
               (Tonic.spans_in_progress s)
               (tonic_identity bld p e)
               (Tonic.sc (tonic_entry_record ro bld p e))) ->
      Tonic.grpc_events s' = Tonic.grpc_events s ->
      tonic_effect ro bld p e s s'
  | tonic_closes (r : Tonic.grpc_request_t) :
      tonic_is_return p = true ->
      Tonic.context_to_grpc_events s !! tonic_identity bld p e = Some r ->
      Tonic.context_to_grpc_events s'
      = delete (tonic_identity bld p e) (Tonic.context_to_grpc_events s) ->
      Tonic.spans_in_progress s'
      = delete (tonic_identity bld p e) (Tonic.spans_in_progress s) ->
      Tonic.grpc_events s'
      = Tonic.grpc_events s ++ [Tonic.set_end_time (bpf_ktime_get_ns e) r] ->
      tonic_effect ro bld p e s s'.

Definition tonic_in_progress (r : Tonic.grpc_request_t) : Prop :=
  Tonic.end_time r = 0 /\ Tonic.status_code r = 0.

Definition tonic_inv (s : Tonic.maps) : Prop :=
  (size (Tonic.context_to_grpc_events s) <= Tonic.MAX_CONCURRENT)%nat /\
  (forall k r, Tonic.context_to_grpc_events s !! k = Some r -> tonic_in_progress r) /\
  Forall (fun r => Tonic.status_code r = 0) (Tonic.grpc_events s).


Definition tonic_clock_inv (s : Tonic.maps) : Prop :=
  (forall k r, Tonic.context_to_grpc_events s !! k = Some r ->
               Tonic.start_time r <> 0) /\
  Forall (fun r => Tonic.start_time r <> 0) (Tonic.grpc_events s).

(** Fifty connections opened and none closed: a full correlation table. *)
Definition sample_hyper_full : Hyper.maps :=
  Hyper.run sample_build sample_hyper_rodata
    (map (fun i => (Hyper.serve_connection, sample_env (Z.of_nat i) 1000))
       (seq 1 50))
    Hyper.init.

Definition sample_tonic_full : Tonic.maps :=
  Tonic.run sample_build sample_tonic_rodata
    (map (fun i => (Tonic.client_call, sample_env (Z.of_nat i) 1000))
       (seq 1 50))
    Tonic.init.

(* ===================================================================== *)
(** ** String extraction *)
(* ===================================================================== *)

(** What the clamped copy of a [source] string of reported length [len] does
    to a field of capacity [cap]: the first [min cap len] bytes of the field
    become the first [min cap len] bytes of the source, the field keeps its
    capacity, and a source longer than the capacity fills the field with its
    first [cap] bytes. *)
Definition field_extracted (cap len : Z) (old new source : list byte) : Prop :=
  new = take (Z.to_nat (Z.min cap len)) source
          ++ drop (Z.to_nat (Z.min cap len)) old
  /\ length (take (Z.to_nat (Z.min cap len)) source) = Z.to_nat (Z.min cap len)
  /\ length new = Z.to_nat cap
  /\ (cap < len -> new = take (Z.to_nat cap) source).

(** A client call object at [key] whose service pointer is null and whose
    method is ["GET"]. *)
Definition sample_env_null_service (key t : Z) : env :=
  {| ctx := {| arg_regs := [key; 0; 0; 0; 0; 0]; reg_sp := 0x7000; reg_rc := 0 |};
     user_mem :=
       mem_of
         [ (key + 48, le_bytes 8 0 ++ le_bytes 8 7);
           (key + 64, le_bytes 8 0x5000 ++ le_bytes 8 3);
           (0x5000, list_byte_of_string "GET");
           (0x7008, le_bytes 8 key) ];
     ktime := t;
     prandom := sample_prandom |}.

(** The return of a call on [key] whose return-value register holds [rc]. *)
Definition sample_return_env (key t rc : Z) : env :=
  {| ctx := {| arg_regs := [0; 0; 0; 0; 0; 0]; reg_sp := 0x7000; reg_rc := rc |};
     user_mem := sample_mem key;
     ktime := t;
     prandom := sample_prandom |}.

(** The status of the traced call as a return probe can observe it: the
    call's return value, which [get_return_value] of [rust_context.h]
    reads.  A record captures the status when its [u32] status field holds
    that value. *)
Definition grpc_status_captured (e_out : env) (r : Tonic.grpc_request_t) : Prop :=
  Tonic.status_code r = u32 (get_return_value (ctx e_out)).

(* ===================================================================== *)
(** ** Reference decoders, counters and further concrete inputs *)
(* ===================================================================== *)

(** The byte two hexadecimal characters stand for. *)
Definition hex_pair_value (hi lo : byte) : byte :=
  byte_of (byte_val (hex_to_byte hi) * 16 + byte_val (hex_to_byte lo)).

(** Decoding a string two characters at a time; a last single character is
    dropped. *)
Fixpoint hex_parse (hex : list byte) : list byte :=
  match hex with
  | hi :: lo :: rest => hex_pair_value hi lo :: hex_parse rest
  | _ => []
  end.

(** The characters ['0'..'9'], ['a'..'f'] and ['A'..'F']. *)
Definition is_hex_digit (c : byte) : bool :=
  ((48 <=? byte_val c) && (byte_val c <=? 57))
  || ((97 <=? byte_val c) && (byte_val c <=? 102))
  || ((65 <=? byte_val c) && (byte_val c <=? 70)).

(** The number of argument registers [get_argument] maps. *)
Definition max_reg_args (a : arch) : Z :=
  match a with x86_64 => 6 | aarch64 => 8 end.

Definition hyper_is_entry (p : Hyper.probe) : bool :=
  match p with Hyper.serve_connection => true | _ => false end.

(** How many firings of an execution are entry probes. *)
Fixpoint hyper_entry_count (evs : list (Hyper.probe * env)) : nat :=
  match evs with
  | [] => O
  | ev :: rest =>
      ((if hyper_is_entry (fst ev) then 1 else 0) + hyper_entry_count rest)%nat
  end.

Fixpoint tonic_entry_count (evs : list (Tonic.probe * env)) : nat :=
  match evs with
  | [] => O
  | ev :: rest =>
      ((if tonic_is_entry (fst ev) then 1 else 0) + tonic_entry_count rest)%nat
  end.

(** The clock readings of an execution are 64-bit values that never go
    below the reading [t] before it nor below an earlier one. *)
Fixpoint clock_nondecreasing {P : Type} (t : Z) (evs : list (P * env)) : Prop :=
  match evs with
  | [] => True
  | ev :: rest =>
      t <= ktime (snd ev) < 2 ^ 64 /\ clock_nondecreasing (ktime (snd ev)) rest
  end.

(** What the method enrichment does to the record it finds, and what the
    URI enrichment does. *)
Definition hyper_method_update (ro : Hyper.rodata) (k : Z) (e : env)
    (r : Hyper.http_request_t) : Hyper.http_request_t :=
  let method_ptr :=
    bpf_probe_read_u64 0 (user_mem e) (u64 (k + Hyper.method_ptr_pos ro)) in
  let method_len :=
    bpf_probe_read_u64 0 (user_mem e) (u64 (k + Hyper.method_ptr_pos ro + 8)) in
  Hyper.set_method
    (bpf_probe_read (Hyper.method r)
       (if MAX_METHOD_SIZE <? method_len then MAX_METHOD_SIZE else method_len)
       (user_mem e) method_ptr) r.

Definition hyper_path_update (ro : Hyper.rodata) (k : Z) (e : env)
    (r : Hyper.http_request_t) : Hyper.http_request_t :=
  let uri_ptr :=
    bpf_probe_read_u64 0 (user_mem e) (u64 (k + Hyper.uri_ptr_pos ro)) in
  let path_ptr :=
    bpf_probe_read_u64 0 (user_mem e) (u64 (uri_ptr + Hyper.path_ptr_pos ro)) in
  let path_len :=
    bpf_probe_read_u64 0 (user_mem e)
      (u64 (uri_ptr + Hyper.path_ptr_pos ro + 8)) in
  Hyper.set_path
    (bpf_probe_read (Hyper.path r)
       (if MAX_PATH_SIZE <? path_len then MAX_PATH_SIZE else path_len)
       (user_mem e) path_ptr) r.

(** A connection object at [key] whose method is the string [name]. *)
Definition sample_env_method (key t : Z) (name : string) : env :=
  {| ctx := {| arg_regs := [key; 0; 0; 0; 0; 0]; reg_sp := 0x7000; reg_rc := 0 |};
     user_mem :=
       mem_of
         [ (key + 16,
            le_bytes 8 0x5000
              ++ le_bytes 8 (Z.of_nat (length (list_byte_of_string name))));
           (0x5000, list_byte_of_string name);
           (0x7008, le_bytes 8 key) ];
     ktime := t;
     prandom := sample_prandom |}.

(** A connection object at [key] whose URI reports a path of 8 bytes behind
    a null path pointer. *)
Definition sample_env_null_path (key t : Z) : env :=
  {| ctx := {| arg_regs := [key; 0; 0; 0; 0; 0]; reg_sp := 0x7000; reg_rc := 0 |};
     user_mem :=
       mem_of
         [ (key + 32, le_bytes 8 0x6000);
           (0x6008, le_bytes 8 0 ++ le_bytes 8 8);
           (0x7008, le_bytes 8 key) ];
     ktime := t;
     prandom := sample_prandom |}.

(** An invocation whose stack is not mapped and whose argument registers
    were not captured. *)
Definition sample_env_unreadable (t : Z) : env :=
  {| ctx := {| arg_regs := []; reg_sp := 0x9000; reg_rc := 0 |};
     user_mem := mem_of [];
     ktime := t;
     prandom := sample_prandom |}.

(** A firing of the tonic probe [p0] whose identity key is [k]. *)
Definition tonic_fires (bld : build) (p0 : Tonic.probe) (k : Z)
    (ev : Tonic.probe * env) : Prop :=
  fst ev = p0 /\ tonic_identity bld (fst ev) (snd ev) = k.

(* ===================================================================== *)
(** ** Hexadecimal rendering *)
(* ===================================================================== *)

Lemma u32_small (z : Z) : 0 <= z < 2 ^ 32 -> u32 z = z.
Proof. intros H. unfold u32, wrap. apply Z.mod_small. exact H. Qed.

Lemma u64_small (z : Z) : 0 <= z < 2 ^ 64 -> u64 z = z.
Proof. intros H. unfold u64, wrap. apply Z.mod_small. exact H. Qed.

Lemma u64_range (z : Z) : 0 <= u64 z < 2 ^ 64.
Proof. unfold u64, wrap. apply Z.mod_pos_bound. lia. Qed.

Lemma hex_char_high (b : byte) :
  hex_char (byte_of (Z.land (Z.shiftr (byte_val b) 4) 15))
  = nth (high_nibble b) lower_hex_digits x00.
Proof. destruct b; vm_compute; reflexivity. Qed.

Lemma hex_char_low (b : byte) :
  hex_char (byte_of (Z.land (byte_val b) 15))
  = nth (low_nibble b) lower_hex_digits x00.
Proof. destruct b; vm_compute; reflexivity. Qed.

Lemma hex_pair_digits (b : byte) :
  Forall (fun c => In c lower_hex_digits) (hex_pair b).
Proof.
  unfold hex_pair.
  constructor; [|constructor; [|constructor]];
    apply nth_In; destruct b; vm_compute; lia.
Qed.

Lemma hex_render_digits (bytes : list byte) :
  Forall (fun c => In c lower_hex_digits) (hex_render bytes).
Proof.
  unfold hex_render. induction bytes as [|b bytes IH]; cbn [flat_map].
  - constructor.
  - apply Forall_app. split; [apply hex_pair_digits | exact IH].
Qed.

Lemma hex_render_length (bytes : list byte) :
  length (hex_render bytes) = (2 * length bytes)%nat.
Proof.
  unfold hex_render. induction bytes as [|b bytes IH]; cbn [flat_map length].
  - reflexivity.
  - rewrite length_app, IH. cbn [hex_pair length]. lia.
Qed.

(** Decoding the two digits with [hex_to_byte] gives the nibbles back. *)
Lemma hex_pair_decodes (b : byte) :
  map (fun c => byte_val (hex_to_byte c)) (hex_pair b)
  = [byte_val b / 16; byte_val b mod 16].
Proof. destruct b; vm_compute; reflexivity. Qed.

Lemma store_pair (l : list byte) (n : nat) (x y : byte) :
  (n + 2 <= length l)%nat ->
  <[S n := y]> (<[n := x]> l) = take n l ++ x :: y :: drop (S (S n)) l.
Proof.
  revert l. induction n as [|n IH]; intros l Hl.
  - destruct l as [|a [|b l]]; simpl in *; try lia. reflexivity.
  - destruct l as [|a l]; simpl in *; try lia.
    f_equal. apply IH. lia.
Qed.

Lemma bytes_to_hex_string_loop_spec (bytes : list byte) :
  forall (todo i : nat) (out : list byte),
    (i + todo <= length bytes)%nat ->
    (2 * (i + todo) <= length out)%nat ->
    Z.of_nat (2 * (i + todo)) <= 2 ^ 32 ->
    bytes_to_hex_string_loop todo (Z.of_nat i) bytes out
    = take (2 * i) out ++ hex_render (take todo (drop i bytes))
        ++ drop (2 * (i + todo)) out.
Proof.
  induction todo as [|todo IH]; intros i out Hb Ho Hw.
  - cbn [bytes_to_hex_string_loop take]. unfold hex_render. cbn [flat_map app].
    rewrite Nat.add_0_r. symmetry. apply take_drop.
  - cbn [bytes_to_hex_string_loop].
    assert (Hi : (i < length bytes)%nat) by lia.
    rewrite !u32_small by lia.
    unfold store, cell.
    replace (Z.to_nat (Z.of_nat i * 2)) with (2 * i)%nat by lia.
    replace (Z.to_nat (Z.of_nat i * 2 + 1)) with (S (2 * i)) by lia.
    rewrite Nat2Z.id.
    rewrite hex_char_high, hex_char_low.
    rewrite store_pair by lia.
    replace (Z.of_nat i + 1) with (Z.of_nat (S i)) by lia.
    rewrite IH by (rewrite ?length_app, ?length_take; simpl; rewrite ?length_drop; lia).
    destruct (drop i bytes) as [|b rest] eqn:Hd.
    { apply (f_equal length) in Hd. rewrite length_drop in Hd. simpl in Hd. lia. }
    assert (Hnth : nth i bytes x00 = b).
    { rewrite <- (take_drop i bytes) at 1. rewrite Hd.
      rewrite app_nth2; rewrite length_take; [|lia].
      replace (i - i `min` length bytes)%nat with 0%nat by lia. reflexivity. }
    assert (Hrest : drop (S i) bytes = rest).
    { replace (S i) with (i + 1)%nat by lia. rewrite <- drop_drop, Hd. reflexivity. }
    rewrite Hnth, Hrest.
    set (x := nth (high_nibble b) lower_hex_digits x00).
    set (y := nth (low_nibble b) lower_hex_digits x00).
    set (o1 := take (2 * i) out ++ x :: y :: drop (S (S (2 * i))) out).
    assert (Hsplit : o1 = (take (2 * i) out ++ [x; y]) ++ drop (S (S (2 * i))) out).
    { unfold o1. rewrite <- app_assoc. reflexivity. }
    assert (Ht : take (2 * S i) o1 = take (2 * i) out ++ [x; y]).
    { rewrite Hsplit. apply take_app_length'.
      rewrite length_app, length_take. simpl. lia. }
    assert (Hdr : drop (2 * (S i + todo)) o1 = drop (2 * (i + S todo)) out).
    { rewrite Hsplit.
      rewrite drop_app_ge by (rewrite length_app, length_take; simpl; lia).
      rewrite length_app, length_take. simpl.
      rewrite drop_drop. f_equal. lia. }
    rewrite Ht, Hdr. cbn [take]. unfold hex_render. cbn [flat_map hex_pair].
    fold x y. rewrite <- !app_assoc. reflexivity.
Qed.

(** C6: [bytes_to_hex_string] writes, for each of the [size] input bytes in
    order, two characters into the output buffer: the lowercase hexadecimal
    digit of the high nibble and then that of the low nibble.  The rendering
    is [2 * size] characters long, all of them among ['0'..'9','a'..'f'], so
    a 16-byte trace identifier gives 32 characters and an 8-byte span
    identifier 16; the rest of the output buffer is left as it was. *)
Theorem bytes_to_hex_string_lowercase_pairs
    (bytes out : list byte) (size : Z) :
  0 <= size ->
  (Z.to_nat size <= length bytes)%nat ->
  2 * size <= Z.of_nat (length out) ->
  2 * size <= 2 ^ 32 ->
  bytes_to_hex_string bytes size out
  = hex_render (take (Z.to_nat size) bytes) ++ drop (2 * Z.to_nat size) out
  /\ Z.of_nat (length (hex_render (take (Z.to_nat size) bytes))) = 2 * size
  /\ Forall (fun c => In c lower_hex_digits)
       (hex_render (take (Z.to_nat size) bytes))
  /\ (size = TRACE_ID_SIZE ->
      Z.of_nat (length (hex_render (take (Z.to_nat size) bytes)))
      = TRACE_ID_STRING_SIZE)
  /\ (size = SPAN_ID_SIZE ->
      Z.of_nat (length (hex_render (take (Z.to_nat size) bytes)))
      = SPAN_ID_STRING_SIZE).
Proof.
  intros Hsize Hbytes Hout Hwrap.
  assert (Hlen : Z.of_nat (length (hex_render (take (Z.to_nat size) bytes)))
                 = 2 * size).
  { rewrite hex_render_length, length_take. lia. }
  split; [|split; [exact Hlen|split; [apply hex_render_digits|]]].
  - unfold bytes_to_hex_string.
    change 0 with (Z.of_nat 0).
    rewrite bytes_to_hex_string_loop_spec by lia.
    cbn [take drop app Nat.mul Nat.add]. reflexivity.
  - split; intros ->; rewrite Hlen; reflexivity.
Qed.

Lemma bytes_to_hex_string_lowercase_pairs_witness :
  bytes_to_hex_string sample_trace_id 16 (zeroed 32)
  = list_byte_of_string "deadbeef0001020310203040a55aff7f".
Proof.
  destruct (bytes_to_hex_string_lowercase_pairs sample_trace_id (zeroed 32) 16)
    as [H _]; [lia | vm_compute; lia | vm_compute; discriminate | lia |].
  rewrite H. vm_compute. reflexivity.
Defined.

(* ===================================================================== *)
(** ** Bounded reads *)
(* ===================================================================== *)

Lemma probe_read_bytes_length (m : memory) :
  forall (n : nat) (src : Z) (bs : list byte),
    probe_read_bytes m src n = Some bs -> length bs = n.
Proof.
  induction n as [|n IH]; intros src bs H; cbn [probe_read_bytes] in H.
  - inversion H. reflexivity.
  - destruct (m src) as [b|]; [|discriminate].
    destruct (probe_read_bytes m (src + 1) n) as [bs'|] eqn:E; [|discriminate].
    inversion H; subst. cbn [length]. f_equal. eapply IH. exact E.
Qed.

(** A readable source stays readable on each of its prefixes. *)
Lemma probe_read_bytes_prefix (m : memory) :
  forall (source : list byte) (src : Z) (n : nat),
    probe_read_bytes m src (length source) = Some source ->
    (n <= length source)%nat ->
    probe_read_bytes m src n = Some (take n source).
Proof.
  induction source as [|b source IH]; intros src n H Hn.
  - cbn [length] in Hn. assert (n = O) by lia. subst. reflexivity.
  - destruct n as [|n]; [reflexivity|].
    cbn [length probe_read_bytes] in H.
    destruct (m src) as [b'|] eqn:Eb; [|discriminate].
    destruct (probe_read_bytes m (src + 1) (length source)) as [bs'|] eqn:E;
      [|discriminate].
    inversion H; subst b' bs'.
    cbn [probe_read_bytes take]. rewrite Eb.
    rewrite (IH (src + 1) n E) by (cbn [length] in Hn; lia).
    reflexivity.
Qed.

Lemma bpf_probe_read_length (dst : list byte) (size : Z) (m : memory) (ptr : Z) :
  (Z.to_nat size <= length dst)%nat ->
  length (bpf_probe_read dst size m ptr) = length dst.
Proof.
  intros Hsize. unfold bpf_probe_read.
  destruct (probe_read_bytes m ptr (Z.to_nat size)) as [bs|] eqn:E.
  - apply probe_read_bytes_length in E.
    rewrite length_app, length_drop, E. lia.
  - rewrite length_app, length_drop, length_replicate. lia.
Qed.

(** The clamp [size = cap < len ? cap : len] is the minimum. *)
Lemma clamp_is_min (cap len : Z) :
  (if cap <? len then cap else len) = Z.min cap len.
Proof. destruct (Z.ltb_spec cap len); lia. Qed.

(** The shape every string extraction shares: a read of
    [min(capacity, reported length)] bytes into the field. *)
Lemma clamped_read (cap len : Z) (dst source : list byte) (m : memory) (ptr : Z) :
  length dst = Z.to_nat cap ->
  probe_read_bytes m ptr (length source) = Some source ->
  (Z.to_nat (Z.min cap len) <= length source)%nat ->
  let n := Z.to_nat (Z.min cap len) in
  let field := bpf_probe_read dst (if cap <? len then cap else len) m ptr in
  field = take n source ++ drop n dst
  /\ length (take n source) = n
  /\ length field = Z.to_nat cap
  /\ (cap < len -> field = take (Z.to_nat cap) source).
Proof.
  intros Hdst Hsrc Hn n field. subst field.
  rewrite clamp_is_min. fold n. unfold bpf_probe_read. fold n.
  rewrite (probe_read_bytes_prefix m source ptr n Hsrc Hn).
  assert (Hlen : length (take n source) = n) by (rewrite length_take; lia).
  repeat split.
  - exact Hlen.
  - rewrite length_app, length_drop, Hlen, Hdst. unfold n. lia.
  - intros Hlt. assert (n = Z.to_nat cap) as -> by (unfold n; lia).
    rewrite drop_ge by lia. apply app_nil_r.
Qed.

Lemma le_val_bound (bs : list byte) :
  0 <= le_val bs < 256 ^ Z.of_nat (length bs).
Proof.
  induction bs as [|b bs IH].
  - cbn. lia.
  - cbn [le_val length].
    assert (Hb : 0 <= byte_val b < 256).
    { unfold byte_val. pose proof (Byte.to_N_bounded b). lia. }
    rewrite Nat2Z.inj_succ, Z.pow_succ_r by lia. lia.
Qed.

(** A pointer or length read from the traced process is a [u64]. *)
Lemma bpf_probe_read_u64_range (init : Z) (m : memory) (ptr : Z) :
  0 <= bpf_probe_read_u64 init m ptr < 2 ^ 64.
Proof.
  unfold bpf_probe_read_u64.
  pose proof (le_val_bound (bpf_probe_read (le_bytes 8 init) 8 m ptr)) as H.
  rewrite bpf_probe_read_length in H by (cbn; lia).
  cbn [le_bytes length] in H. exact H.
Qed.

(* ===================================================================== *)
(** ** The hash map helpers *)
(* ===================================================================== *)

Section HashMap.

Context {V : Type}.
Implicit Types (m : gmap Z V) (k : Z) (v : V) (n : nat).

Lemma bpf_map_delete_elem_snd m k :
  snd (bpf_map_delete_elem m k) = delete k m.
Proof.
  unfold bpf_map_delete_elem. destruct (m !! k) eqn:E; cbn [snd].
  - reflexivity.
  - symmetry. apply delete_id. exact E.
Qed.

Lemma bpf_map_update_elem_present n m k v :
  is_Some (m !! k) -> snd (bpf_map_update_elem n m k v) = <[k := v]> m.
Proof. intros [x Hx]. unfold bpf_map_update_elem. rewrite Hx. reflexivity. Qed.

Lemma bpf_map_update_elem_room n m k v :
  (size m < n)%nat -> snd (bpf_map_update_elem n m k v) = <[k := v]> m.
Proof.
  intros Hn. unfold bpf_map_update_elem.
  destruct (m !! k); [reflexivity|]. destruct (decide _); [reflexivity|lia].
Qed.

Lemma bpf_map_update_elem_full n m k v :
  m !! k = None -> (n <= size m)%nat ->
  bpf_map_update_elem n m k v = (- E2BIG, m).
Proof.
  intros Hk Hn. unfold bpf_map_update_elem. rewrite Hk.
  destruct (decide _); [lia|reflexivity].
Qed.

(** After an update the key holds the new value, or the update was refused:
    the key was absent from a full map, which is unchanged. *)
Lemma bpf_map_update_elem_cases n m k v :
  snd (bpf_map_update_elem n m k v) = <[k := v]> m
  /\ (is_Some (m !! k) \/ (size m < n)%nat)
  \/
  snd (bpf_map_update_elem n m k v) = m
  /\ m !! k = None /\ (n <= size m)%nat.
Proof.
  destruct (m !! k) as [x|] eqn:Hk.
  - left. split; [apply bpf_map_update_elem_present; eauto | left; eauto].
  - destruct (decide (size m < n)%nat) as [Hn|Hn].
    + left. split; [apply bpf_map_update_elem_room; exact Hn | right; exact Hn].
    + right. rewrite bpf_map_update_elem_full by (trivial; lia).
      split; [reflexivity | split; [reflexivity | lia]].
Qed.

Lemma bpf_map_update_elem_lookup_ne n m k k' v :
  k <> k' -> snd (bpf_map_update_elem n m k v) !! k' = m !! k'.
Proof.
  intros Hne.
  destruct (bpf_map_update_elem_cases n m k v) as [[-> _]|[-> _]].
  - apply lookup_insert_ne. exact Hne.
  - reflexivity.
Qed.

Lemma bpf_map_update_elem_size n m k v :
  (size m <= n)%nat -> (size (snd (bpf_map_update_elem n m k v)) <= n)%nat.
Proof.
  intros Hle.
  destruct (bpf_map_update_elem_cases n m k v) as [[-> Hc]|[-> _]]; [|exact Hle].
  destruct (m !! k) as [x|] eqn:Hk.
  - rewrite map_size_insert_Some by eauto. exact Hle.
  - rewrite map_size_insert_None by exact Hk.
    destruct Hc as [[? ?]|Hc]; [discriminate|lia].
Qed.


End HashMap.

(* ===================================================================== *)
(** ** The hyper probes, one firing at a time *)
(* ===================================================================== *)

Section HyperSteps.

Variable bld : build.
Variable ro : Hyper.rodata.

Lemma uprobe_hyper_serve_connection_eq (e : env) (s : Hyper.maps) :
  Hyper.uprobe_hyper_serve_connection bld e s
  = let k := get_argument (target bld) (ctx e) 1 in
    if k =? 0 then (0, s)
    else (0, Hyper.mk_maps
               (snd (bpf_map_update_elem Hyper.MAX_CONCURRENT
                       (Hyper.context_to_http_events s) k (hyper_opened e)))
               (snd (bpf_map_update_elem (spans_max_entries bld)
                       (Hyper.spans_in_progress s) k (generate_span_context e)))
               (Hyper.events s)).
Proof. reflexivity. Qed.

Lemma uprobe_hyper_serve_connection_return_eq (e : env) (s : Hyper.maps) :
  Hyper.uprobe_hyper_serve_connection_return e s
  = let k := get_argument_by_stack (user_mem e) (ctx e) 1 in
    if k =? 0 then (0, s)
    else match Hyper.context_to_http_events s !! k with
         | None => (0, s)
         | Some r =>
             (0, Hyper.mk_maps
                   (delete k (Hyper.context_to_http_events s))
                   (delete k (Hyper.spans_in_progress s))
                   (Hyper.events s ++ [Hyper.set_end_time (bpf_ktime_get_ns e) r]))
         end.
Proof.
  unfold Hyper.uprobe_hyper_serve_connection_return, bpf_map_lookup_elem.
  cbv zeta. destruct (_ =? 0); [reflexivity|].
  destruct (Hyper.context_to_http_events s !! _); [|reflexivity].
  rewrite !bpf_map_delete_elem_snd. reflexivity.
Qed.

Lemma uprobe_hyper_request_method_eq (e : env) (s : Hyper.maps) :
  Hyper.uprobe_hyper_request_method bld ro e s
  = let k := get_argument (target bld) (ctx e) 1 in
    let method_ptr :=
      bpf_probe_read_u64 0 (user_mem e) (u64 (k + Hyper.method_ptr_pos ro)) in
    let method_len :=
      bpf_probe_read_u64 0 (user_mem e) (u64 (k + Hyper.method_ptr_pos ro + 8)) in
    if k =? 0 then (0, s)
    else if method_ptr =? 0 then (0, s)
    else match Hyper.context_to_http_events s !! k with
         | None => (0, s)
         | Some r =>
             (0, Hyper.mk_maps
                   (<[k := Hyper.set_method
                             (bpf_probe_read (Hyper.method r)
                                (if MAX_METHOD_SIZE <? method_len
                                 then MAX_METHOD_SIZE else method_len)
                                (user_mem e) method_ptr) r]>
                      (Hyper.context_to_http_events s))
                   (Hyper.spans_in_progress s)
                   (Hyper.events s))
         end.
Proof.
  unfold Hyper.uprobe_hyper_request_method, bpf_map_lookup_elem.
  cbv zeta. destruct (_ =? 0); [reflexivity|].
  destruct (_ =? 0); [reflexivity|].
  destruct (Hyper.context_to_http_events s !! _) eqn:E; [|reflexivity].
  rewrite bpf_map_update_elem_present by eauto. reflexivity.
Qed.

Lemma uprobe_hyper_request_uri_eq (e : env) (s : Hyper.maps) :
  Hyper.uprobe_hyper_request_uri bld ro e s
  = let k := get_argument (target bld) (ctx e) 1 in
    let uri_ptr :=
      bpf_probe_read_u64 0 (user_mem e) (u64 (k + Hyper.uri_ptr_pos ro)) in
    let path_ptr :=
      bpf_probe_read_u64 0 (user_mem e) (u64 (uri_ptr + Hyper.path_ptr_pos ro)) in
    let path_len :=
      bpf_probe_read_u64 0 (user_mem e)
        (u64 (uri_ptr + Hyper.path_ptr_pos ro + 8)) in
    if k =? 0 then (0, s)
    else if uri_ptr =? 0 then (0, s)
    else match Hyper.context_to_http_events s !! k with
         | None => (0, s)
         | Some r =>
             (0, Hyper.mk_maps
                   (<[k := Hyper.set_path
                             (bpf_probe_read (Hyper.path r)
                                (if MAX_PATH_SIZE <? path_len
                                 then MAX_PATH_SIZE else path_len)
                                (user_mem e) path_ptr) r]>
                      (Hyper.context_to_http_events s))
                   (Hyper.spans_in_progress s)
                   (Hyper.events s))
         end.
Proof.
  unfold Hyper.uprobe_hyper_request_uri, bpf_map_lookup_elem.
  cbv zeta. destruct (_ =? 0); [reflexivity|].
  destruct (_ =? 0); [reflexivity|].
  destruct (Hyper.context_to_http_events s !! _) eqn:E; [|reflexivity].
  rewrite bpf_map_update_elem_present by eauto. reflexivity.
Qed.

(** No probe reports an error to its caller. *)
Lemma hyper_fire_returns_zero (p : Hyper.probe) (e : env) (s : Hyper.maps) :
  fst (Hyper.fire bld ro p e s) = 0.
Proof.
  destruct p; cbn [Hyper.fire];
    rewrite ?uprobe_hyper_serve_connection_eq,
            ?uprobe_hyper_serve_connection_return_eq,
            ?uprobe_hyper_request_method_eq,
            ?uprobe_hyper_request_uri_eq;
    cbv zeta;
    repeat match goal with
           | |- context [if ?c then _ else _] => destruct c
           | |- context [match ?o with Some _ => _ | None => _ end] => destruct o
           end; reflexivity.
Qed.

Lemma clamp_fits (cap len : Z) (dst : list byte) :
  length dst = Z.to_nat cap ->
  (Z.to_nat (if (cap <? len)%Z then cap else len) <= length dst)%nat.
Proof. intros ->. rewrite clamp_is_min. lia. Qed.

(** Every firing has one of the four effects. *)
Lemma hyper_step_effect (p : Hyper.probe) (e : env) (s : Hyper.maps) :
  hyper_effect bld p e s (Hyper.step bld ro s (p, e)).
Proof.
  unfold Hyper.step. cbn [fst snd].
  destruct p; cbn [Hyper.fire].
  - rewrite uprobe_hyper_serve_connection_eq. cbv zeta.
    destruct (Z.eqb_spec (get_argument (target bld) (ctx e) 1) 0) as [Hk|Hk].
    + apply hyper_skips. reflexivity.
    + apply hyper_opens; trivial.
  - rewrite uprobe_hyper_serve_connection_return_eq. cbv zeta.
    destruct (Z.eqb_spec (get_argument_by_stack (user_mem e) (ctx e) 1) 0)
      as [Hk|Hk]; [apply hyper_skips; reflexivity|].
    destruct (Hyper.context_to_http_events s !! _) as [r|] eqn:Hr;
      [|apply hyper_skips; reflexivity].
    eapply hyper_closes; eauto.
  - rewrite uprobe_hyper_request_method_eq. cbv zeta.
    destruct (_ =? 0); [apply hyper_skips; reflexivity|].
    destruct (_ =? 0); [apply hyper_skips; reflexivity|].
    destruct (Hyper.context_to_http_events s !! _) as [r|] eqn:Hr;
      [|apply hyper_skips; reflexivity].
    eapply hyper_enriches; eauto.
    repeat split; trivial.
    intros Hlen. cbn [Hyper.method Hyper.set_method].
    rewrite bpf_probe_read_length; [exact Hlen | apply clamp_fits; exact Hlen].
  - rewrite uprobe_hyper_request_uri_eq. cbv zeta.
    destruct (_ =? 0); [apply hyper_skips; reflexivity|].
    destruct (_ =? 0); [apply hyper_skips; reflexivity|].
    destruct (Hyper.context_to_http_events s !! _) as [r|] eqn:Hr;
      [|apply hyper_skips; reflexivity].
    eapply hyper_enriches; eauto.
    repeat split; trivial.
    intros Hlen. cbn [Hyper.path Hyper.set_path].
    rewrite bpf_probe_read_length; [exact Hlen | apply clamp_fits; exact Hlen].
Qed.

End HyperSteps.

(* ===================================================================== *)
(** ** Invariants of hyper executions *)
(* ===================================================================== *)

Lemma map_size_present {V : Type} (m : gmap Z V) (k : Z) (x : V) :
  m !! k = Some x -> size m = S (size (delete k m)).
Proof.
  intros Hx. rewrite <- (insert_delete_id m k x Hx) at 1.
  apply map_size_insert_None. apply lookup_delete_eq.
Qed.

Section HyperInvariants.

Variable bld : build.
Variable ro : Hyper.rodata.


(** Induction over an execution, with a side condition on its firings. *)
Lemma hyper_run_preserves (P : Hyper.maps -> Prop) (Q : Hyper.probe * env -> Prop) :
  (forall s ev, Q ev -> P s -> P (Hyper.step bld ro s ev)) ->
  forall evs s, Forall Q evs -> P s -> P (Hyper.run bld ro evs s).
Proof.
  intros Hstep evs. induction evs as [|ev evs IH]; intros s HQ HP.
  - exact HP.
  - inversion HQ; subst. cbn [Hyper.run fold_left].
    apply IH; [assumption|]. apply Hstep; assumption.
Qed.

Lemma hyper_opened_in_progress (e : env) : hyper_in_progress (hyper_opened e).
Proof. repeat split. Qed.

Lemma hyper_inv_init : hyper_inv Hyper.init.
Proof.
  split; [|split].
  - cbn. rewrite map_size_empty. lia.
  - intros k r H. cbn in H. rewrite lookup_empty in H. discriminate.
  - constructor.
Qed.

Lemma hyper_inv_effect (p : Hyper.probe) (e : env) (s s' : Hyper.maps) :
  hyper_inv s -> hyper_effect bld p e s s' -> hyper_inv s'.
Proof.
  intros (Hsize & Hrec & Hev) Heff.
  destruct Heff as [-> | _ _ Ht _ He | r r' _ Hr Hsame Ht _ He | r _ Hr Ht _ He].
  - split; [|split]; assumption.
  - split; [|split].
    + rewrite Ht. apply bpf_map_update_elem_size. exact Hsize.
    + intros k x. rewrite Ht.
      destruct (bpf_map_update_elem_cases Hyper.MAX_CONCURRENT
                  (Hyper.context_to_http_events s)
                  (hyper_identity bld p e) (hyper_opened e)) as [[-> _]|[-> _]].
      * rewrite lookup_insert. case_decide.
        -- intros [= <-]. apply hyper_opened_in_progress.
        -- apply Hrec.
      * apply Hrec.
    + rewrite He. exact Hev.
  - split; [|split].
    + rewrite Ht, map_size_insert_Some by eauto. exact Hsize.
    + intros k x. rewrite Ht, lookup_insert. case_decide.
      * intros [= <-]. destruct (Hrec _ _ Hr) as (H1 & H2 & H3 & H4).
        destruct Hsame as (_ & S2 & S3 & _ & S5 & S6).
        repeat split; [congruence | congruence | auto | auto].
      * apply Hrec.
    + rewrite He. exact Hev.
  - split; [|split].
    + rewrite Ht. pose proof (map_size_present _ _ _ Hr). lia.
    + intros k x. rewrite Ht, lookup_delete. case_decide; [discriminate|].
      apply Hrec.
    + rewrite He. apply Forall_app. split; [exact Hev|].
      constructor; [|constructor].
      cbn. apply (Hrec _ _ Hr).
Qed.

Lemma hyper_inv_run (evs : list (Hyper.probe * env)) :
  hyper_inv (Hyper.run bld ro evs Hyper.init).
Proof.
  apply (hyper_run_preserves hyper_inv (fun _ => True)).
  - intros s [p e] _ H. eapply hyper_inv_effect; [exact H|].
    apply hyper_step_effect.
  - apply Forall_forall. trivial.
  - apply hyper_inv_init.
Qed.



Lemma hyper_clock_inv_effect (p : Hyper.probe) (e : env) (s s' : Hyper.maps) :
  0 < ktime e < 2 ^ 64 ->
  hyper_clock_inv s -> hyper_effect bld p e s s' -> hyper_clock_inv s'.
Proof.
  intros Hclock (Hrec & Hev) Heff.
  destruct Heff as [-> | _ _ Ht _ He | r r' _ Hr Hsame Ht _ He | r _ Hr Ht _ He].
  - split; assumption.
  - split; [|rewrite He; exact Hev].
    intros k x. rewrite Ht.
    destruct (bpf_map_update_elem_cases Hyper.MAX_CONCURRENT
                (Hyper.context_to_http_events s)
                (hyper_identity bld p e) (hyper_opened e)) as [[-> _]|[-> _]];
      [|apply Hrec].
    rewrite lookup_insert. case_decide; [|apply Hrec].
    intros [= <-]. cbn. unfold bpf_ktime_get_ns. rewrite u64_small; lia.
  - split; [|rewrite He; exact Hev].
    intros k x. rewrite Ht, lookup_insert. case_decide; [|apply Hrec].
    intros [= <-]. destruct Hsame as (-> & _). eapply Hrec. exact Hr.
  - split.
    + intros k x. rewrite Ht, lookup_delete. case_decide; [discriminate|].
      apply Hrec.
    + rewrite He. apply Forall_app. split; [exact Hev|].
      constructor; [|constructor]. cbn. eapply Hrec. exact Hr.
Qed.

Lemma hyper_clock_inv_run (evs : list (Hyper.probe * env)) :
  clock_started evs ->
  hyper_clock_inv (Hyper.run bld ro evs Hyper.init).
Proof.
  intros Hclock.
  apply (hyper_run_preserves hyper_clock_inv
           (fun ev => 0 < ktime (snd ev) < 2 ^ 64)).
  - intros s [p e] Hq H. eapply hyper_clock_inv_effect;
      [exact Hq | exact H | apply hyper_step_effect].
  - exact Hclock.
  - split.
    + intros k r H. cbn in H. rewrite lookup_empty in H. discriminate.
    + constructor.
Qed.

End HyperInvariants.

(* ===================================================================== *)
(** ** The tonic probes, one firing at a time *)
(* ===================================================================== *)

Section TonicSteps.

Variable bld : build.
Variable ro : Tonic.rodata.

Lemma uprobe_tonic_server_serve_eq (e : env) (s : Tonic.maps) :
  Tonic.uprobe_tonic_server_serve bld e s
  = let k := get_argument (target bld) (ctx e) 1 in
    if k =? 0 then (0, s)
    else (0, Tonic.mk_maps
               (snd (bpf_map_update_elem Tonic.MAX_CONCURRENT
                       (Tonic.context_to_grpc_events s) k (tonic_opened e)))
               (snd (bpf_map_update_elem (spans_max_entries bld)
                       (Tonic.spans_in_progress s) k (generate_span_context e)))
               (Tonic.grpc_events s)).
Proof. reflexivity. Qed.

Lemma uprobe_tonic_client_call_eq (e : env) (s : Tonic.maps) :
  Tonic.uprobe_tonic_client_call bld ro e s
  = let k := get_argument (target bld) (ctx e) 1 in
    if k =? 0 then (0, s)
    else (0, Tonic.mk_maps
               (snd (bpf_map_update_elem Tonic.MAX_CONCURRENT
                       (Tonic.context_to_grpc_events s) k
                       (tonic_client_opened ro bld e)))
               (snd (bpf_map_update_elem (spans_max_entries bld)
                       (Tonic.spans_in_progress s) k (generate_span_context e)))
               (Tonic.grpc_events s)).
Proof.
  unfold Tonic.uprobe_tonic_client_call, tonic_client_opened. cbv zeta.
  destruct (_ =? 0); [reflexivity|].
  destruct (bpf_probe_read_u64 0 (user_mem e)
              (u64 (_ + Tonic.service_ptr_pos ro)) =? 0);
    destruct (bpf_probe_read_u64 0 (user_mem e)
                (u64 (_ + Tonic.method_ptr_pos ro)) =? 0);
    reflexivity.
Qed.

Lemma tonic_return_eq (e : env) (s : Tonic.maps) :
  let closed :=
    let k := get_argument_by_stack (user_mem e) (ctx e) 1 in
    if k =? 0 then (0, s)
    else match Tonic.context_to_grpc_events s !! k with
         | None => (0, s)
         | Some r =>
             (0, Tonic.mk_maps
                   (delete k (Tonic.context_to_grpc_events s))
                   (delete k (Tonic.spans_in_progress s))
                   (Tonic.grpc_events s
                      ++ [Tonic.set_end_time (bpf_ktime_get_ns e) r]))
         end in
  Tonic.uprobe_tonic_server_serve_return e s = closed
  /\ Tonic.uprobe_tonic_client_call_return e s = closed.
Proof.
  cbv zeta.
  unfold Tonic.uprobe_tonic_server_serve_return,
    Tonic.uprobe_tonic_client_call_return, bpf_map_lookup_elem.
  cbv zeta. destruct (_ =? 0); [split; reflexivity|].
  destruct (Tonic.context_to_grpc_events s !! _); [|split; reflexivity].
  rewrite !bpf_map_delete_elem_snd. split; reflexivity.
Qed.

(** No probe reports an error to its caller. *)
Lemma tonic_fire_returns_zero (p : Tonic.probe) (e : env) (s : Tonic.maps) :
  fst (Tonic.fire bld ro p e s) = 0.
Proof.
  destruct (tonic_return_eq e s) as [Hs Hc].
  destruct p; cbn [Tonic.fire];
    rewrite ?uprobe_tonic_server_serve_eq, ?uprobe_tonic_client_call_eq, ?Hs, ?Hc;
    cbv zeta;
    repeat match goal with
           | |- context [if ?c then _ else _] => destruct c
           | |- context [match ?o with Some _ => _ | None => _ end] => destruct o
           end; reflexivity.
Qed.

(** Every firing has one of the three effects. *)
Lemma tonic_step_effect (p : Tonic.probe) (e : env) (s : Tonic.maps) :
  tonic_effect ro bld p e s (Tonic.step bld ro s (p, e)).
Proof.
  unfold Tonic.step. cbn [fst snd].
  destruct (tonic_return_eq e s) as [Hs Hc].
  destruct p; cbn [Tonic.fire].
  - rewrite uprobe_tonic_server_serve_eq. cbv zeta.
    destruct (Z.eqb_spec (get_argument (target bld) (ctx e) 1) 0) as [Hk|Hk].
    + apply tonic_skips. reflexivity.
    + apply tonic_opens; trivial.
  - rewrite Hs. cbv zeta.
    destruct (_ =? 0); [apply tonic_skips; reflexivity|].
    destruct (Tonic.context_to_grpc_events s !! _) as [r|] eqn:Hr;
      [|apply tonic_skips; reflexivity].
    eapply tonic_closes; eauto.
  - rewrite uprobe_tonic_client_call_eq. cbv zeta.
    destruct (Z.eqb_spec (get_argument (target bld) (ctx e) 1) 0) as [Hk|Hk].
    + apply tonic_skips. reflexivity.
    + apply tonic_opens; trivial.
  - rewrite Hc. cbv zeta.
    destruct (_ =? 0); [apply tonic_skips; reflexivity|].
    destruct (Tonic.context_to_grpc_events s !! _) as [r|] eqn:Hr;
      [|apply tonic_skips; reflexivity].
    eapply tonic_closes; eauto.
Qed.

Lemma tonic_entry_record_fresh (p : Tonic.probe) (e : env) :
  Tonic.start_time (tonic_entry_record ro bld p e) = bpf_ktime_get_ns e
  /\ Tonic.end_time (tonic_entry_record ro bld p e) = 0
  /\ Tonic.status_code (tonic_entry_record ro bld p e) = 0
  /\ Tonic.sc (tonic_entry_record ro bld p e) = generate_span_context e.
Proof. destruct p; repeat split. Qed.

End TonicSteps.

(* ===================================================================== *)
(** ** Invariants of tonic executions *)
(* ===================================================================== *)

Section TonicInvariants.

Variable bld : build.
Variable ro : Tonic.rodata.


Lemma tonic_run_preserves (P : Tonic.maps -> Prop) (Q : Tonic.probe * env -> Prop) :
  (forall s ev, Q ev -> P s -> P (Tonic.step bld ro s ev)) ->
  forall evs s, Forall Q evs -> P s -> P (Tonic.run bld ro evs s).
Proof.
  intros Hstep evs. induction evs as [|ev evs IH]; intros s HQ HP.
  - exact HP.
  - inversion HQ; subst. cbn [Tonic.run fold_left].
    apply IH; [assumption|]. apply Hstep; assumption.
Qed.

Lemma tonic_inv_init : tonic_inv Tonic.init.
Proof.
  split; [|split].
  - cbn. rewrite map_size_empty. lia.
  - intros k r H. cbn in H. rewrite lookup_empty in H. discriminate.
  - constructor.
Qed.

Lemma tonic_inv_effect (p : Tonic.probe) (e : env) (s s' : Tonic.maps) :
  tonic_inv s -> tonic_effect ro bld p e s s' -> tonic_inv s'.
Proof.
  intros (Hsize & Hrec & Hev) Heff.
  destruct Heff as [-> | _ _ Ht _ He | r _ Hr Ht _ He].
  - split; [|split]; assumption.
  - split; [|split].
    + rewrite Ht. apply bpf_map_update_elem_size. exact Hsize.
    + intros k x. rewrite Ht.
      destruct (bpf_map_update_elem_cases Tonic.MAX_CONCURRENT
                  (Tonic.context_to_grpc_events s)
                  (tonic_identity bld p e) (tonic_entry_record ro bld p e))
        as [[-> _]|[-> _]]; [|apply Hrec].
      rewrite lookup_insert. case_decide; [|apply Hrec].
      intros [= <-].
      destruct (tonic_entry_record_fresh bld ro p e) as (_ & H2 & H3 & _).
      split; assumption.
    + rewrite He. exact Hev.
  - split; [|split].
    + rewrite Ht. pose proof (map_size_present _ _ _ Hr). lia.
    + intros k x. rewrite Ht, lookup_delete. case_decide; [discriminate|].
      apply Hrec.
    + rewrite He. apply Forall_app. split; [exact Hev|].
      constructor; [|constructor].
      cbn. apply (Hrec _ _ Hr).
Qed.

Lemma tonic_inv_run (evs : list (Tonic.probe * env)) :
  tonic_inv (Tonic.run bld ro evs Tonic.init).
Proof.
  apply (tonic_run_preserves tonic_inv (fun _ => True)).
  - intros s [p e] _ H. eapply tonic_inv_effect; [exact H|].
    apply tonic_step_effect.
  - apply Forall_forall. trivial.
  - apply tonic_inv_init.
Qed.



Lemma tonic_clock_inv_effect (p : Tonic.probe) (e : env) (s s' : Tonic.maps) :
  0 < ktime e < 2 ^ 64 ->
  tonic_clock_inv s -> tonic_effect ro bld p e s s' -> tonic_clock_inv s'.
Proof.
  intros Hclock (Hrec & Hev) Heff.
  destruct Heff as [-> | _ _ Ht _ He | r _ Hr Ht _ He].
  - split; assumption.
  - split; [|rewrite He; exact Hev].
    intros k x. rewrite Ht.
    destruct (bpf_map_update_elem_cases Tonic.MAX_CONCURRENT
                (Tonic.context_to_grpc_events s)
                (tonic_identity bld p e) (tonic_entry_record ro bld p e))
      as [[-> _]|[-> _]]; [|apply Hrec].
    rewrite lookup_insert. case_decide; [|apply Hrec].
    intros [= <-].
    destruct (tonic_entry_record_fresh bld ro p e) as (-> & _).
    unfold bpf_ktime_get_ns. rewrite u64_small; lia.
  - split.
    + intros k x. rewrite Ht, lookup_delete. case_decide; [discriminate|].
      apply Hrec.
    + rewrite He. apply Forall_app. split; [exact Hev|].
      constructor; [|constructor]. cbn. eapply Hrec. exact Hr.
Qed.

Lemma tonic_clock_inv_run (evs : list (Tonic.probe * env)) :
  clock_started evs ->
  tonic_clock_inv (Tonic.run bld ro evs Tonic.init).
Proof.
  intros Hclock.
  apply (tonic_run_preserves tonic_clock_inv
           (fun ev => 0 < ktime (snd ev) < 2 ^ 64)).
  - intros s [p e] Hq H. eapply tonic_clock_inv_effect;
      [exact Hq | exact H | apply tonic_step_effect].
  - exact Hclock.
  - split.
    + intros k r H. cbn in H. rewrite lookup_empty in H. discriminate.
    + constructor.
Qed.

End TonicInvariants.

(* ===================================================================== *)
(** ** Keys that are not in the correlation table *)
(* ===================================================================== *)

Lemma hyper_absent_key_skips (bld : build) (ro : Hyper.rodata)
    (p : Hyper.probe) (e : env) (s : Hyper.maps) :
  p <> Hyper.serve_connection ->
  Hyper.context_to_http_events s !! hyper_identity bld p e = None ->
  Hyper.fire bld ro p e s = (0, s).
Proof.
  intros Hp Hk. destruct p; cbn [Hyper.fire hyper_identity] in *.
  - congruence.
  - rewrite uprobe_hyper_serve_connection_return_eq. cbv zeta.
    rewrite Hk. destruct (_ =? 0); reflexivity.
  - rewrite uprobe_hyper_request_method_eq. cbv zeta.
    rewrite Hk. repeat destruct (_ =? 0); reflexivity.
  - rewrite uprobe_hyper_request_uri_eq. cbv zeta.
    rewrite Hk. repeat destruct (_ =? 0); reflexivity.
Qed.

Lemma tonic_absent_key_skips (bld : build) (ro : Tonic.rodata)
    (p : Tonic.probe) (e : env) (s : Tonic.maps) :
  tonic_is_return p = true ->
  Tonic.context_to_grpc_events s !! tonic_identity bld p e = None ->
  Tonic.fire bld ro p e s = (0, s).
Proof.
  intros Hp Hk. destruct (tonic_return_eq e s) as [Hs Hc].
  destruct p; cbn [Tonic.fire tonic_identity] in *; try discriminate.
  - rewrite Hs. cbv zeta. rewrite Hk. destruct (_ =? 0); reflexivity.
  - rewrite Hc. cbv zeta. rewrite Hk. destruct (_ =? 0); reflexivity.
Qed.

(** After a return probe its key is not in the table. *)
Lemma hyper_return_removes (bld : build) (ro : Hyper.rodata) (e : env)
    (s : Hyper.maps) :
  let k := hyper_identity bld Hyper.serve_connection_return e in
  k = 0 \/
  Hyper.context_to_http_events
    (Hyper.step bld ro s (Hyper.serve_connection_return, e)) !! k = None.
Proof.
  cbv zeta. unfold Hyper.step. cbn [fst snd Hyper.fire hyper_identity].
  rewrite uprobe_hyper_serve_connection_return_eq. cbv zeta.
  destruct (Z.eqb_spec (get_argument_by_stack (user_mem e) (ctx e) 1) 0)
    as [Hk|Hk]; [left; exact Hk|right].
  destruct (Hyper.context_to_http_events s !! _) eqn:Hr; cbn [snd].
  - cbn. apply lookup_delete_eq.
  - exact Hr.
Qed.

Lemma tonic_return_removes (bld : build) (ro : Tonic.rodata)
    (p : Tonic.probe) (e : env) (s : Tonic.maps) :
  tonic_is_return p = true ->
  let k := tonic_identity bld p e in
  k = 0 \/
  Tonic.context_to_grpc_events (Tonic.step bld ro s (p, e)) !! k = None.
Proof.
  intros Hp. cbv zeta. unfold Tonic.step. cbn [fst snd].
  destruct (tonic_return_eq e s) as [Hs Hc].
  destruct p; cbn [Tonic.fire tonic_identity] in *; try discriminate;
    rewrite ?Hs, ?Hc; cbv zeta;
    (destruct (Z.eqb_spec (get_argument_by_stack (user_mem e) (ctx e) 1) 0)
       as [Hk|Hk]; [left; exact Hk|right]);
    (destruct (Tonic.context_to_grpc_events s !! _) eqn:Hr; cbn [snd];
       [cbn; apply lookup_delete_eq | exact Hr]).
Qed.

Lemma hyper_null_identity_skips (bld : build) (ro : Hyper.rodata)
    (p : Hyper.probe) (e : env) (s : Hyper.maps) :
  hyper_identity bld p e = 0 -> Hyper.fire bld ro p e s = (0, s).
Proof.
  intros Hk. destruct p; cbn [Hyper.fire hyper_identity] in *;
    rewrite ?uprobe_hyper_serve_connection_eq,
            ?uprobe_hyper_serve_connection_return_eq,
            ?uprobe_hyper_request_method_eq,
            ?uprobe_hyper_request_uri_eq;
    cbv zeta; rewrite Hk; reflexivity.
Qed.

Lemma tonic_null_identity_skips (bld : build) (ro : Tonic.rodata)
    (p : Tonic.probe) (e : env) (s : Tonic.maps) :
  tonic_identity bld p e = 0 -> Tonic.fire bld ro p e s = (0, s).
Proof.
  intros Hk. destruct (tonic_return_eq e s) as [Hs Hc].
  destruct p; cbn [Tonic.fire tonic_identity] in *;
    rewrite ?uprobe_tonic_server_serve_eq, ?uprobe_tonic_client_call_eq,
            ?Hs, ?Hc;
    cbv zeta; rewrite Hk; reflexivity.
Qed.

(** C3: an enrichment probe or a return probe whose identity key is not in
    the correlation table returns 0 and leaves every map and the emission
    channel as they were; and a return probe that fires again for the key a
    first return probe has just handled does the same, so no second record
    is emitted.  This holds for the hyper probes and for the tonic probes. *)
Theorem absent_key_no_mutation_no_emission :
  (forall bld ro p e s,
      p <> Hyper.serve_connection ->
      Hyper.context_to_http_events s !! hyper_identity bld p e = None ->
      Hyper.fire bld ro p e s = (0, s))
  /\ (forall bld ro p e s,
      tonic_is_return p = true ->
      Tonic.context_to_grpc_events s !! tonic_identity bld p e = None ->
      Tonic.fire bld ro p e s = (0, s))
  /\ (forall bld ro e e' s,
      hyper_identity bld Hyper.serve_connection_return e'
      = hyper_identity bld Hyper.serve_connection_return e ->
      Hyper.fire bld ro Hyper.serve_connection_return e'
        (Hyper.step bld ro s (Hyper.serve_connection_return, e))
      = (0, Hyper.step bld ro s (Hyper.serve_connection_return, e)))
  /\ (forall bld ro p p' e e' s,
      tonic_is_return p = true ->
      tonic_is_return p' = true ->
      tonic_identity bld p' e' = tonic_identity bld p e ->
      Tonic.fire bld ro p' e' (Tonic.step bld ro s (p, e))
      = (0, Tonic.step bld ro s (p, e))).
Proof.
  split; [|split; [|split]].
  - apply hyper_absent_key_skips.
  - apply tonic_absent_key_skips.
  - intros bld ro e e' s Hk.
    destruct (hyper_return_removes bld ro e s) as [H0|Hnone].
    + apply hyper_null_identity_skips. congruence.
    + apply hyper_absent_key_skips; [discriminate|]. rewrite Hk. exact Hnone.
  - intros bld ro p p' e e' s Hp Hp' Hk.
    destruct (tonic_return_removes bld ro p e s Hp) as [H0|Hnone].
    + apply tonic_null_identity_skips. congruence.
    + apply tonic_absent_key_skips; [exact Hp'|]. rewrite Hk. exact Hnone.
Qed.

Lemma absent_key_no_mutation_no_emission_witness :
  Hyper.fire sample_build sample_hyper_rodata Hyper.request_method
    (sample_env 0xAA 1500) Hyper.init = (0, Hyper.init)
  /\ Tonic.fire sample_build sample_tonic_rodata Tonic.client_call_return
       (sample_env 0xBB 9000)
       (Tonic.step sample_build sample_tonic_rodata
          (Tonic.step sample_build sample_tonic_rodata Tonic.init
             (Tonic.client_call, sample_env 0xBB 1000))
          (Tonic.client_call_return, sample_env 0xBB 3000))
     = (0, Tonic.step sample_build sample_tonic_rodata
             (Tonic.step sample_build sample_tonic_rodata Tonic.init
                (Tonic.client_call, sample_env 0xBB 1000))
             (Tonic.client_call_return, sample_env 0xBB 3000)).
Proof.
  split.
  - apply (proj1 absent_key_no_mutation_no_emission);
      [discriminate | vm_compute; reflexivity].
  - apply (proj2 (proj2 (proj2 absent_key_no_mutation_no_emission)));
      reflexivity.
Defined.

(* ===================================================================== *)
(** ** Capacity of the correlation table *)
(* ===================================================================== *)

Lemma hyper_entry_on_full_table (bld : build) (ro : Hyper.rodata) (e : env)
    (s : Hyper.maps) :
  (Hyper.MAX_CONCURRENT <= size (Hyper.context_to_http_events s))%nat ->
  Hyper.context_to_http_events s
    !! hyper_identity bld Hyper.serve_connection e = None ->
  Hyper.context_to_http_events
    (Hyper.step bld ro s (Hyper.serve_connection, e))
  = Hyper.context_to_http_events s
  /\ Hyper.events (Hyper.step bld ro s (Hyper.serve_connection, e))
     = Hyper.events s.
Proof.
  intros Hfull Hk.
  destruct (hyper_step_effect bld ro Hyper.serve_connection e s)
    as [-> | _ _ Ht _ He | r r' [Hp|Hp] | r Hp]; try discriminate.
  - split; reflexivity.
  - rewrite Ht, He, bpf_map_update_elem_full by assumption.
    split; reflexivity.
Qed.

Lemma tonic_entry_on_full_table (bld : build) (ro : Tonic.rodata)
    (p : Tonic.probe) (e : env) (s : Tonic.maps) :
  tonic_is_entry p = true ->
  (Tonic.MAX_CONCURRENT <= size (Tonic.context_to_grpc_events s))%nat ->
  Tonic.context_to_grpc_events s !! tonic_identity bld p e = None ->
  Tonic.context_to_grpc_events (Tonic.step bld ro s (p, e))
  = Tonic.context_to_grpc_events s
  /\ Tonic.grpc_events (Tonic.step bld ro s (p, e)) = Tonic.grpc_events s.
Proof.
  intros Hp Hfull Hk.
  destruct (tonic_step_effect bld ro p e s) as [-> | _ _ Ht _ He | r Hr].
  - split; reflexivity.
  - rewrite Ht, He, bpf_map_update_elem_full by assumption.
    split; reflexivity.
  - unfold tonic_is_return in Hr. rewrite Hp in Hr. discriminate.
Qed.

(** C5: the correlation table of either instrumentor is declared with 50
    entries and never holds more in any execution.  When it is full, an
    entry probe for a key that is not in it returns 0, leaves the table and
    the emission channel as they were (nothing is evicted), and the request
    stays untracked: every later enrichment or return probe for that key
    returns 0 without touching the maps. *)
Theorem correlation_table_bounded_no_eviction :
  Hyper.MAX_CONCURRENT = 50%nat
  /\ Tonic.MAX_CONCURRENT = 50%nat
  /\ (forall bld ro evs,
        (size (Hyper.context_to_http_events (Hyper.run bld ro evs Hyper.init))
         <= Hyper.MAX_CONCURRENT)%nat)
  /\ (forall bld ro evs,
        (size (Tonic.context_to_grpc_events (Tonic.run bld ro evs Tonic.init))
         <= Tonic.MAX_CONCURRENT)%nat)
  /\ (forall bld ro e s,
        size (Hyper.context_to_http_events s) = Hyper.MAX_CONCURRENT ->
        Hyper.context_to_http_events s
          !! hyper_identity bld Hyper.serve_connection e = None ->
        fst (Hyper.fire bld ro Hyper.serve_connection e s) = 0
        /\ Hyper.context_to_http_events
             (Hyper.step bld ro s (Hyper.serve_connection, e))
           = Hyper.context_to_http_events s
        /\ Hyper.events (Hyper.step bld ro s (Hyper.serve_connection, e))
           = Hyper.events s
        /\ (forall p e',
              p <> Hyper.serve_connection ->
              hyper_identity bld p e'
              = hyper_identity bld Hyper.serve_connection e ->
              Hyper.fire bld ro p e'
                (Hyper.step bld ro s (Hyper.serve_connection, e))
              = (0, Hyper.step bld ro s (Hyper.serve_connection, e))))
  /\ (forall bld ro p e s,
        tonic_is_entry p = true ->
        size (Tonic.context_to_grpc_events s) = Tonic.MAX_CONCURRENT ->
        Tonic.context_to_grpc_events s !! tonic_identity bld p e = None ->
        fst (Tonic.fire bld ro p e s) = 0
        /\ Tonic.context_to_grpc_events (Tonic.step bld ro s (p, e))
           = Tonic.context_to_grpc_events s
        /\ Tonic.grpc_events (Tonic.step bld ro s (p, e)) = Tonic.grpc_events s
        /\ (forall p' e',
              tonic_is_return p' = true ->
              tonic_identity bld p' e' = tonic_identity bld p e ->
              Tonic.fire bld ro p' e' (Tonic.step bld ro s (p, e))
              = (0, Tonic.step bld ro s (p, e)))).
Proof.
  split; [reflexivity|]. split; [reflexivity|].
  split; [intros; apply hyper_inv_run|].
  split; [intros; apply tonic_inv_run|].
  split.
  - intros bld ro e s Hfull Hk.
    destruct (hyper_entry_on_full_table bld ro e s) as [Ht He];
      [lia | exact Hk |].
    split; [apply hyper_fire_returns_zero|].
    split; [exact Ht|]. split; [exact He|].
    intros p e' Hp Hid. apply hyper_absent_key_skips; [exact Hp|].
    rewrite Ht, Hid. exact Hk.
  - intros bld ro p e s Hp Hfull Hk.
    destruct (tonic_entry_on_full_table bld ro p e s) as [Ht He];
      [exact Hp | lia | exact Hk |].
    split; [apply tonic_fire_returns_zero|].
    split; [exact Ht|]. split; [exact He|].
    intros p' e' Hp' Hid. apply tonic_absent_key_skips; [exact Hp'|].
    rewrite Ht, Hid. exact Hk.
Qed.

Lemma correlation_table_bounded_no_eviction_witness :
  Hyper.context_to_http_events
    (Hyper.step sample_build sample_hyper_rodata sample_hyper_full
       (Hyper.serve_connection, sample_env 0xAA 2000))
  = Hyper.context_to_http_events sample_hyper_full
  /\ Tonic.context_to_grpc_events
       (Tonic.step sample_build sample_tonic_rodata sample_tonic_full
          (Tonic.server_serve, sample_env 0xBB 2000))
     = Tonic.context_to_grpc_events sample_tonic_full.
Proof.
  destruct correlation_table_bounded_no_eviction
    as (_ & _ & _ & _ & Hh & Ht).
  split.
  - apply (Hh sample_build sample_hyper_rodata (sample_env 0xAA 2000)
             sample_hyper_full); vm_compute; reflexivity.
  - apply (Ht sample_build sample_tonic_rodata Tonic.server_serve
             (sample_env 0xBB 2000) sample_tonic_full); vm_compute; reflexivity.
Defined.

(* ===================================================================== *)
(** ** Frame properties of the HTTP status code *)
(* ===================================================================== *)

(** C10: no hyper probe writes [status_code].  A record found in the table
    after a firing either has status 0 or carries the status of the record
    that was under the same key before; a record on the emission channel
    after a firing was already there or carries the status of a record of
    the table; hence every record emitted in any execution has
    [status_code = 0], the value of the zero initialisation at entry. *)
Theorem http_status_code_stays_zero :
  (forall bld ro evs,
      Forall (fun r => Hyper.status_code r = 0)
        (Hyper.events (Hyper.run bld ro evs Hyper.init)))
  /\ (forall bld ro s p e k r',
        Hyper.context_to_http_events (Hyper.step bld ro s (p, e)) !! k = Some r' ->
        Hyper.status_code r' = 0
        \/ exists r, Hyper.context_to_http_events s !! k = Some r
                     /\ Hyper.status_code r' = Hyper.status_code r)
  /\ (forall bld ro s p e r',
        In r' (Hyper.events (Hyper.step bld ro s (p, e))) ->
        In r' (Hyper.events s)
        \/ exists k r, Hyper.context_to_http_events s !! k = Some r
                       /\ Hyper.status_code r' = Hyper.status_code r).
Proof.
  split; [|split].
  - intros bld ro evs. apply (hyper_inv_run bld ro evs).
  - intros bld ro s p e k r' Hk.
    destruct (hyper_step_effect bld ro p e s)
      as [Heq | _ _ Ht _ _ | r r1 _ Hr Hsame Ht _ _ | r _ Hr Ht _ _].
    + right. exists r'. rewrite Heq in Hk. split; [exact Hk | reflexivity].
    + rewrite Ht in Hk.
      destruct (bpf_map_update_elem_cases Hyper.MAX_CONCURRENT
                  (Hyper.context_to_http_events s)
                  (hyper_identity bld p e) (hyper_opened e))
        as [[Hu _]|[Hu _]]; rewrite Hu in Hk.
      * rewrite lookup_insert in Hk. case_decide.
        -- left. injection Hk as <-. reflexivity.
        -- right. exists r'. split; [exact Hk | reflexivity].
      * right. exists r'. split; [exact Hk | reflexivity].
    + rewrite Ht, lookup_insert in Hk. case_decide.
      * right. exists r. subst k. injection Hk as <-.
        split; [exact Hr | apply Hsame].
      * right. exists r'. split; [exact Hk | reflexivity].
    + rewrite Ht, lookup_delete in Hk. case_decide; [discriminate|].
      right. exists r'. split; [exact Hk | reflexivity].
  - intros bld ro s p e r' Hin.
    destruct (hyper_step_effect bld ro p e s)
      as [Heq | _ _ _ _ He | r r1 _ _ _ _ _ He | r _ Hr _ _ He].
    + left. rewrite Heq in Hin. exact Hin.
    + left. rewrite He in Hin. exact Hin.
    + left. rewrite He in Hin. exact Hin.
    + rewrite He in Hin. apply in_app_or in Hin.
      destruct Hin as [Hin|[<-|[]]]; [left; exact Hin|].
      right. exists (hyper_identity bld p e), r. split; [exact Hr | reflexivity].
Qed.

Lemma http_status_code_stays_zero_witness :
  Forall (fun r => Hyper.status_code r = 0)
    (Hyper.events
       (Hyper.run sample_build sample_hyper_rodata
          [(Hyper.serve_connection, sample_env 0xAA 1000);
           (Hyper.request_method, sample_env 0xAA 1100);
           (Hyper.request_uri, sample_env 0xAA 1200);
           (Hyper.serve_connection_return, sample_env 0xAA 2001000)]
          Hyper.init))
  /\ length
       (Hyper.events
          (Hyper.run sample_build sample_hyper_rodata
             [(Hyper.serve_connection, sample_env 0xAA 1000);
              (Hyper.request_method, sample_env 0xAA 1100);
              (Hyper.request_uri, sample_env 0xAA 1200);
              (Hyper.serve_connection_return, sample_env 0xAA 2001000)]
             Hyper.init)) = 1%nat.
Proof.
  split.
  - apply (proj1 http_status_code_stays_zero).
  - vm_compute. reflexivity.
Defined.

(* ===================================================================== *)
(** ** The end timestamp and the start timestamp of emitted records *)
(* ===================================================================== *)

Lemma hyper_emission (bld : build) (ro : Hyper.rodata) (s : Hyper.maps)
    (p : Hyper.probe) (e : env) :
  Hyper.events (Hyper.step bld ro s (p, e)) = Hyper.events s
  \/ (p = Hyper.serve_connection_return
      /\ exists r,
           Hyper.context_to_http_events s !! hyper_identity bld p e = Some r
           /\ Hyper.context_to_http_events (Hyper.step bld ro s (p, e))
                !! hyper_identity bld p e = None
           /\ Hyper.events (Hyper.step bld ro s (p, e))
              = Hyper.events s ++ [Hyper.set_end_time (bpf_ktime_get_ns e) r]).
Proof.
  destruct (hyper_step_effect bld ro p e s)
    as [Heq | _ _ _ _ He | r r1 _ _ _ _ _ He | r Hp Hr Ht _ He].
  - left. rewrite Heq. reflexivity.
  - left. exact He.
  - left. exact He.
  - right. split; [exact Hp|]. exists r.
    split; [exact Hr|]. split; [|exact He].
    rewrite Ht. apply lookup_delete_eq.
Qed.

Lemma tonic_emission (bld : build) (ro : Tonic.rodata) (s : Tonic.maps)
    (p : Tonic.probe) (e : env) :
  Tonic.grpc_events (Tonic.step bld ro s (p, e)) = Tonic.grpc_events s
  \/ (tonic_is_return p = true
      /\ exists r,
           Tonic.context_to_grpc_events s !! tonic_identity bld p e = Some r
           /\ Tonic.context_to_grpc_events (Tonic.step bld ro s (p, e))
                !! tonic_identity bld p e = None
           /\ Tonic.grpc_events (Tonic.step bld ro s (p, e))
              = Tonic.grpc_events s ++ [Tonic.set_end_time (bpf_ktime_get_ns e) r]).
Proof.
  destruct (tonic_step_effect bld ro p e s)
    as [Heq | _ _ _ _ He | r Hp Hr Ht _ He].
  - left. rewrite Heq. reflexivity.
  - left. exact He.
  - right. split; [exact Hp|]. exists r.
    split; [exact Hr|]. split; [|exact He].
    rewrite Ht. apply lookup_delete_eq.
Qed.

(** C4: in every execution the records of the correlation table have their
    end timestamp unwritten (zero); a firing changes the emission channel
    only when it is a return probe, and then it appends exactly the record
    found under its key with the end timestamp set and removes that key
    from the table, so the end timestamp is written once, by the probe that
    removes the record; and when the clock readings of the execution are
    non-zero 64-bit values, no emitted record has start timestamp zero.
    This holds for the hyper probes and for the tonic probes. *)
Theorem end_time_written_by_removing_probe_only :
  (forall bld ro evs k r,
      Hyper.context_to_http_events (Hyper.run bld ro evs Hyper.init) !! k = Some r ->
      Hyper.end_time r = 0)
  /\ (forall bld ro s p e,
        Hyper.events (Hyper.step bld ro s (p, e)) = Hyper.events s
        \/ (p = Hyper.serve_connection_return
            /\ exists r,
                 Hyper.context_to_http_events s !! hyper_identity bld p e = Some r
                 /\ Hyper.context_to_http_events (Hyper.step bld ro s (p, e))
                      !! hyper_identity bld p e = None
                 /\ Hyper.events (Hyper.step bld ro s (p, e))
                    = Hyper.events s
                        ++ [Hyper.set_end_time (bpf_ktime_get_ns e) r]))
  /\ (forall bld ro evs,
        clock_started evs ->
        Forall (fun r => Hyper.start_time r <> 0)
          (Hyper.events (Hyper.run bld ro evs Hyper.init)))
  /\ (forall bld ro evs k r,
        Tonic.context_to_grpc_events (Tonic.run bld ro evs Tonic.init) !! k = Some r ->
        Tonic.end_time r = 0)
  /\ (forall bld ro s p e,
        Tonic.grpc_events (Tonic.step bld ro s (p, e)) = Tonic.grpc_events s
        \/ (tonic_is_return p = true
            /\ exists r,
                 Tonic.context_to_grpc_events s !! tonic_identity bld p e = Some r
                 /\ Tonic.context_to_grpc_events (Tonic.step bld ro s (p, e))
                      !! tonic_identity bld p e = None
                 /\ Tonic.grpc_events (Tonic.step bld ro s (p, e))
                    = Tonic.grpc_events s
                        ++ [Tonic.set_end_time (bpf_ktime_get_ns e) r]))
  /\ (forall bld ro evs,
        clock_started evs ->
        Forall (fun r => Tonic.start_time r <> 0)
          (Tonic.grpc_events (Tonic.run bld ro evs Tonic.init))).
Proof.
  split; [|split; [|split; [|split; [|split]]]].
  - intros bld ro evs k r Hr.
    destruct (hyper_inv_run bld ro evs) as (_ & Hrec & _).
    apply (Hrec k r Hr).
  - apply hyper_emission.
  - intros bld ro evs Hclock. apply (hyper_clock_inv_run bld ro evs Hclock).
  - intros bld ro evs k r Hr.
    destruct (tonic_inv_run bld ro evs) as (_ & Hrec & _).
    apply (Hrec k r Hr).
  - apply tonic_emission.
  - intros bld ro evs Hclock. apply (tonic_clock_inv_run bld ro evs Hclock).
Qed.

Lemma end_time_written_by_removing_probe_only_witness :
  Forall (fun r => Hyper.start_time r <> 0)
    (Hyper.events
       (Hyper.run sample_build sample_hyper_rodata
          [(Hyper.serve_connection, sample_env 0xAA 1000);
           (Hyper.serve_connection_return, sample_env 0xAA 2001000)]
          Hyper.init))
  /\ Forall (fun r => Tonic.start_time r <> 0)
       (Tonic.grpc_events
          (Tonic.run sample_build sample_tonic_rodata
             [(Tonic.server_serve, sample_env 0xBB 1000);
              (Tonic.server_serve_return, sample_env 0xBB 3000)]
             Tonic.init)).
Proof.
  destruct end_time_written_by_removing_probe_only
    as (_ & _ & Hh & _ & _ & Ht).
  split.
  - apply Hh. repeat constructor; cbn; lia.
  - apply Ht. repeat constructor; cbn; lia.
Defined.

(* ===================================================================== *)
(** ** Entry and return firings with a usable key *)
(* ===================================================================== *)

Lemma hyper_entry_step (bld : build) (ro : Hyper.rodata) (s : Hyper.maps) (e : env) :
  hyper_identity bld Hyper.serve_connection e <> 0 ->
  Hyper.step bld ro s (Hyper.serve_connection, e)
  = Hyper.mk_maps
      (snd (bpf_map_update_elem Hyper.MAX_CONCURRENT
              (Hyper.context_to_http_events s)
              (hyper_identity bld Hyper.serve_connection e) (hyper_opened e)))
      (snd (bpf_map_update_elem (spans_max_entries bld)
              (Hyper.spans_in_progress s)
              (hyper_identity bld Hyper.serve_connection e)
              (generate_span_context e)))
      (Hyper.events s).
Proof.
  intros Hk. unfold Hyper.step. cbn [fst snd Hyper.fire hyper_identity] in *.
  rewrite uprobe_hyper_serve_connection_eq. cbv zeta.
  destruct (Z.eqb_spec (get_argument (target bld) (ctx e) 1) 0);
    [contradiction | reflexivity].
Qed.

Lemma hyper_return_step (bld : build) (ro : Hyper.rodata) (s : Hyper.maps)
    (e : env) (r : Hyper.http_request_t) :
  hyper_identity bld Hyper.serve_connection_return e <> 0 ->
  Hyper.context_to_http_events s
    !! hyper_identity bld Hyper.serve_connection_return e = Some r ->
  Hyper.step bld ro s (Hyper.serve_connection_return, e)
  = Hyper.mk_maps
      (delete (hyper_identity bld Hyper.serve_connection_return e)
         (Hyper.context_to_http_events s))
      (delete (hyper_identity bld Hyper.serve_connection_return e)
         (Hyper.spans_in_progress s))
      (Hyper.events s ++ [Hyper.set_end_time (bpf_ktime_get_ns e) r]).
Proof.
  intros Hk Hr. unfold Hyper.step. cbn [fst snd Hyper.fire hyper_identity] in *.
  rewrite uprobe_hyper_serve_connection_return_eq. cbv zeta.
  destruct (Z.eqb_spec (get_argument_by_stack (user_mem e) (ctx e) 1) 0);
    [contradiction|].
  rewrite Hr. reflexivity.
Qed.

Lemma tonic_entry_step (bld : build) (ro : Tonic.rodata) (p : Tonic.probe)
    (s : Tonic.maps) (e : env) :
  tonic_is_entry p = true ->
  tonic_identity bld p e <> 0 ->
  Tonic.step bld ro s (p, e)
  = Tonic.mk_maps
      (snd (bpf_map_update_elem Tonic.MAX_CONCURRENT
              (Tonic.context_to_grpc_events s)
              (tonic_identity bld p e) (tonic_entry_record ro bld p e)))
      (snd (bpf_map_update_elem (spans_max_entries bld)
              (Tonic.spans_in_progress s)
              (tonic_identity bld p e) (generate_span_context e)))
      (Tonic.grpc_events s).
Proof.
  intros Hp Hk. unfold Tonic.step. cbn [fst snd].
  destruct p; try discriminate; cbn [Tonic.fire tonic_identity tonic_entry_record] in *.
  - rewrite uprobe_tonic_server_serve_eq. cbv zeta.
    destruct (Z.eqb_spec (get_argument (target bld) (ctx e) 1) 0);
      [contradiction | reflexivity].
  - rewrite uprobe_tonic_client_call_eq. cbv zeta.
    destruct (Z.eqb_spec (get_argument (target bld) (ctx e) 1) 0);
      [contradiction | reflexivity].
Qed.

Lemma tonic_return_step (bld : build) (ro : Tonic.rodata) (p : Tonic.probe)
    (s : Tonic.maps) (e : env) (r : Tonic.grpc_request_t) :
  tonic_is_return p = true ->
  tonic_identity bld p e <> 0 ->
  Tonic.context_to_grpc_events s !! tonic_identity bld p e = Some r ->
  Tonic.step bld ro s (p, e)
  = Tonic.mk_maps
      (delete (tonic_identity bld p e) (Tonic.context_to_grpc_events s))
      (delete (tonic_identity bld p e) (Tonic.spans_in_progress s))
      (Tonic.grpc_events s ++ [Tonic.set_end_time (bpf_ktime_get_ns e) r]).
Proof.
  intros Hp Hk Hr. unfold Tonic.step. cbn [fst snd].
  destruct (tonic_return_eq e s) as [Hs Hc].
  destruct p; try discriminate; cbn [Tonic.fire tonic_identity] in *;
    rewrite ?Hs, ?Hc; cbv zeta;
    (destruct (Z.eqb_spec (get_argument_by_stack (user_mem e) (ctx e) 1) 0);
       [contradiction|]);
    rewrite Hr; reflexivity.
Qed.

(** A record found under the entry probe's key after it fired is the record
    the probe built. *)
Lemma hyper_entry_inserted_record (bld : build) (ro : Hyper.rodata)
    (s : Hyper.maps) (e : env) (r : Hyper.http_request_t) :
  hyper_identity bld Hyper.serve_connection e <> 0 ->
  Hyper.context_to_http_events (Hyper.step bld ro s (Hyper.serve_connection, e))
    !! hyper_identity bld Hyper.serve_connection e = Some r ->
  r = hyper_opened e.
Proof.
  intros Hk Hr. rewrite (hyper_entry_step bld ro s e Hk) in Hr.
  cbn [Hyper.context_to_http_events] in Hr.
  destruct (bpf_map_update_elem_cases Hyper.MAX_CONCURRENT
              (Hyper.context_to_http_events s)
              (hyper_identity bld Hyper.serve_connection e) (hyper_opened e))
    as [[Hu _]|(Hu & Hnone & _)]; rewrite Hu in Hr.
  - rewrite lookup_insert_eq in Hr. congruence.
  - congruence.
Qed.

Lemma tonic_entry_inserted_record (bld : build) (ro : Tonic.rodata)
    (p : Tonic.probe) (s : Tonic.maps) (e : env) (r : Tonic.grpc_request_t) :
  tonic_is_entry p = true ->
  tonic_identity bld p e <> 0 ->
  Tonic.context_to_grpc_events (Tonic.step bld ro s (p, e))
    !! tonic_identity bld p e = Some r ->
  r = tonic_entry_record ro bld p e.
Proof.
  intros Hp Hk Hr. rewrite (tonic_entry_step bld ro p s e Hp Hk) in Hr.
  cbn [Tonic.context_to_grpc_events] in Hr.
  destruct (bpf_map_update_elem_cases Tonic.MAX_CONCURRENT
              (Tonic.context_to_grpc_events s)
              (tonic_identity bld p e) (tonic_entry_record ro bld p e))
    as [[Hu _]|(Hu & Hnone & _)]; rewrite Hu in Hr.
  - rewrite lookup_insert_eq in Hr. congruence.
  - congruence.
Qed.

(* ===================================================================== *)
(** ** The span index follows the correlation table *)
(* ===================================================================== *)





(* ===================================================================== *)
(** ** A record between its entry and its return *)
(* ===================================================================== *)

Section Pairs.

Variable bld : build.
Variables (t0 t1 : Z).
Hypothesis Ht0 : 0 < t0.
Hypothesis Ht1 : t1 < 2 ^ 64.

Lemma hyper_pending_step (ro : Hyper.rodata) (k : Z) (s : Hyper.maps)
    (ev : Hyper.probe * env) :
  ~ hyper_removes bld k ev /\ t0 <= ktime (snd ev) < t1 ->
  (exists r, Hyper.context_to_http_events s !! k = Some r
             /\ t0 <= Hyper.start_time r < t1) ->
  exists r, Hyper.context_to_http_events (Hyper.step bld ro s ev) !! k = Some r
            /\ t0 <= Hyper.start_time r < t1.
Proof.
  destruct ev as [p e]. cbn [snd]. intros [Hkeep Hclock] (r & Hr & Hstart).
  destruct (hyper_step_effect bld ro p e s)
    as [Heq | _ _ Ht _ _ | r0 r1 _ Hr0 Hsame Ht _ _ | r0 Hp Hr0 Ht _ _].
  - rewrite Heq. eauto.
  - rewrite Ht.
    destruct (bpf_map_update_elem_cases Hyper.MAX_CONCURRENT
                (Hyper.context_to_http_events s)
                (hyper_identity bld p e) (hyper_opened e))
      as [[-> _]|[-> _]]; [|eauto].
    rewrite lookup_insert. case_decide; [|eauto].
    eexists. split; [reflexivity|]. cbn.
    unfold bpf_ktime_get_ns. rewrite u64_small; lia.
  - rewrite Ht, lookup_insert. case_decide; [|eauto].
    eexists. split; [reflexivity|].
    destruct Hsame as (-> & _). congruence.
  - rewrite Ht, lookup_delete. case_decide; [|eauto].
    exfalso. apply Hkeep. split; [subst p; reflexivity | assumption].
Qed.

Lemma tonic_pending_step (ro : Tonic.rodata) (k : Z) (s : Tonic.maps)
    (ev : Tonic.probe * env) :
  ~ tonic_removes bld k ev /\ t0 <= ktime (snd ev) < t1 ->
  (exists r, Tonic.context_to_grpc_events s !! k = Some r
             /\ t0 <= Tonic.start_time r < t1) ->
  exists r, Tonic.context_to_grpc_events (Tonic.step bld ro s ev) !! k = Some r
            /\ t0 <= Tonic.start_time r < t1.
Proof.
  destruct ev as [p e]. cbn [snd]. intros [Hkeep Hclock] (r & Hr & Hstart).
  destruct (tonic_step_effect bld ro p e s)
    as [Heq | _ _ Ht _ _ | r0 Hp Hr0 Ht _ _].
  - rewrite Heq. eauto.
  - rewrite Ht.
    destruct (bpf_map_update_elem_cases Tonic.MAX_CONCURRENT
                (Tonic.context_to_grpc_events s)
                (tonic_identity bld p e) (tonic_entry_record ro bld p e))
      as [[-> _]|[-> _]]; [|eauto].
    rewrite lookup_insert. case_decide; [|eauto].
    eexists. split; [reflexivity|].
    destruct (tonic_entry_record_fresh bld ro p e) as (-> & _).
    unfold bpf_ktime_get_ns. rewrite u64_small; lia.
  - rewrite Ht, lookup_delete. case_decide; [|eauto].
    exfalso. apply Hkeep. split; assumption.
Qed.

End Pairs.

Lemma Forall_both {A : Type} (P Q : A -> Prop) (l : list A) :
  Forall P l -> Forall Q l -> Forall (fun x => P x /\ Q x) l.
Proof.
  intros HP HQ. rewrite Forall_forall in *. intros x Hx. split; auto.
Qed.

Lemma hyper_pair_closes (bld : build) (ro : Hyper.rodata) (s : Hyper.maps)
    (e_in e_out : env) (mid : list (Hyper.probe * env))
    (r0 : Hyper.http_request_t) :
  let k := hyper_identity bld Hyper.serve_connection e_in in
  let s1 := Hyper.step bld ro s (Hyper.serve_connection, e_in) in
  let s2 := Hyper.run bld ro mid s1 in
  let s3 := Hyper.step bld ro s2 (Hyper.serve_connection_return, e_out) in
  k <> 0 ->
  Hyper.context_to_http_events s1 !! k = Some r0 ->
  Forall (fun ev => ~ hyper_removes bld k ev) mid ->
  hyper_identity bld Hyper.serve_connection_return e_out = k ->
  clock_between (ktime e_in) mid (ktime e_out) ->
  Hyper.events s1 = Hyper.events s
  /\ exists r,
       Hyper.events s3 = Hyper.events s2 ++ [r]
       /\ 0 < Hyper.start_time r
       /\ Hyper.start_time r < Hyper.end_time r
       /\ Hyper.end_time r = ktime e_out
       /\ Hyper.context_to_http_events s3 !! k = None.
Proof.
  intros k s1 s2 s3 Hk Hins Hmid Hout (Ht0 & Hclock & Ht1).
  assert (Hr0 : r0 = hyper_opened e_in)
    by (eapply hyper_entry_inserted_record; eassumption).
  split.
  { unfold s1. rewrite (hyper_entry_step bld ro s e_in Hk). reflexivity. }
  assert (Hpend : exists r, Hyper.context_to_http_events s2 !! k = Some r
                            /\ ktime e_in <= Hyper.start_time r < ktime e_out).
  { unfold s2.
    apply (hyper_run_preserves bld ro
             (fun s => exists r, Hyper.context_to_http_events s !! k = Some r
                                 /\ ktime e_in <= Hyper.start_time r < ktime e_out)
             (fun ev => ~ hyper_removes bld k ev
                        /\ ktime e_in <= ktime (snd ev) < ktime e_out)).
    - intros s' ev HQ HP.
      apply (hyper_pending_step bld (ktime e_in) (ktime e_out)); trivial; lia.
    - apply Forall_both; assumption.
    - exists r0. split; [exact Hins|]. subst r0. cbn.
      unfold bpf_ktime_get_ns. rewrite u64_small; lia. }
  destruct Hpend as (r & Hr & Hstart).
  exists (Hyper.set_end_time (bpf_ktime_get_ns e_out) r).
  unfold s3. rewrite (hyper_return_step bld ro s2 e_out r);
    [| rewrite Hout; exact Hk | rewrite Hout; exact Hr].
  cbn [Hyper.events Hyper.context_to_http_events Hyper.start_time
       Hyper.end_time Hyper.set_end_time].
  unfold bpf_ktime_get_ns. rewrite u64_small by lia.
  split; [reflexivity|]. split; [lia|]. split; [lia|]. split; [reflexivity|].
  rewrite Hout. apply lookup_delete_eq.
Qed.

Lemma tonic_pair_closes (bld : build) (ro : Tonic.rodata)
    (p_in p_out : Tonic.probe) (s : Tonic.maps)
    (e_in e_out : env) (mid : list (Tonic.probe * env))
    (r0 : Tonic.grpc_request_t) :
  let k := tonic_identity bld p_in e_in in
  let s1 := Tonic.step bld ro s (p_in, e_in) in
  let s2 := Tonic.run bld ro mid s1 in
  let s3 := Tonic.step bld ro s2 (p_out, e_out) in
  tonic_is_entry p_in = true ->
  tonic_is_return p_out = true ->
  k <> 0 ->
  Tonic.context_to_grpc_events s1 !! k = Some r0 ->
  Forall (fun ev => ~ tonic_removes bld k ev) mid ->
  tonic_identity bld p_out e_out = k ->
  clock_between (ktime e_in) mid (ktime e_out) ->
  Tonic.grpc_events s1 = Tonic.grpc_events s
  /\ exists r,
       Tonic.grpc_events s3 = Tonic.grpc_events s2 ++ [r]
       /\ 0 < Tonic.start_time r
       /\ Tonic.start_time r < Tonic.end_time r
       /\ Tonic.end_time r = ktime e_out
       /\ Tonic.context_to_grpc_events s3 !! k = None.
Proof.
  intros k s1 s2 s3 Hin Hret Hk Hins Hmid Hout (Ht0 & Hclock & Ht1).
  assert (Hr0 : r0 = tonic_entry_record ro bld p_in e_in)
    by (eapply tonic_entry_inserted_record; eassumption).
  split.
  { unfold s1. rewrite (tonic_entry_step bld ro p_in s e_in Hin Hk). reflexivity. }
  assert (Hpend : exists r, Tonic.context_to_grpc_events s2 !! k = Some r
                            /\ ktime e_in <= Tonic.start_time r < ktime e_out).
  { unfold s2.
    apply (tonic_run_preserves bld ro
             (fun s => exists r, Tonic.context_to_grpc_events s !! k = Some r
                                 /\ ktime e_in <= Tonic.start_time r < ktime e_out)
             (fun ev => ~ tonic_removes bld k ev
                        /\ ktime e_in <= ktime (snd ev) < ktime e_out)).
    - intros s' ev HQ HP.
      apply (tonic_pending_step bld (ktime e_in) (ktime e_out)); trivial; lia.
    - apply Forall_both; assumption.
    - exists r0. split; [exact Hins|]. subst r0.
      destruct (tonic_entry_record_fresh bld ro p_in e_in) as (-> & _).
      unfold bpf_ktime_get_ns. rewrite u64_small; lia. }
  destruct Hpend as (r & Hr & Hstart).
  exists (Tonic.set_end_time (bpf_ktime_get_ns e_out) r).
  unfold s3. rewrite (tonic_return_step bld ro p_out s2 e_out r);
    [| exact Hret | rewrite Hout; exact Hk | rewrite Hout; exact Hr].
  cbn [Tonic.grpc_events Tonic.context_to_grpc_events Tonic.start_time
       Tonic.end_time Tonic.set_end_time].
  unfold bpf_ktime_get_ns. rewrite u64_small by lia.
  split; [reflexivity|]. split; [lia|]. split; [lia|]. split; [reflexivity|].
  rewrite Hout. apply lookup_delete_eq.
Qed.

(** C1: take an entry probe that leaves a record under its non-null key [k]
    in the correlation table, any firings after it among which no return
    probe has identity [k], and then a return probe whose identity is [k];
    let the clock be non-zero at the entry, not run backwards in between and
    have advanced at the return.  Then the entry probe emits nothing and the
    return probe appends exactly one record to the emission channel, with
    [0 < start_time < end_time], the end timestamp being the clock reading
    of the return probe, and removes [k] from the table.  This holds for
    the hyper pair and for each tonic entry probe with each tonic return
    probe. *)
Theorem entry_return_pair_emits_one_completed_record :
  (forall bld ro s e_in e_out mid r0,
      hyper_identity bld Hyper.serve_connection e_in <> 0 ->
      Hyper.context_to_http_events
        (Hyper.step bld ro s (Hyper.serve_connection, e_in))
        !! hyper_identity bld Hyper.serve_connection e_in = Some r0 ->
      Forall (fun ev =>
                ~ hyper_removes bld
                    (hyper_identity bld Hyper.serve_connection e_in) ev) mid ->
      hyper_identity bld Hyper.serve_connection_return e_out
      = hyper_identity bld Hyper.serve_connection e_in ->
      clock_between (ktime e_in) mid (ktime e_out) ->
      Hyper.events (Hyper.step bld ro s (Hyper.serve_connection, e_in))
      = Hyper.events s
      /\ exists r,
           Hyper.events
             (Hyper.step bld ro
                (Hyper.run bld ro mid
                   (Hyper.step bld ro s (Hyper.serve_connection, e_in)))
                (Hyper.serve_connection_return, e_out))
           = Hyper.events
               (Hyper.run bld ro mid
                  (Hyper.step bld ro s (Hyper.serve_connection, e_in)))
               ++ [r]
           /\ 0 < Hyper.start_time r
           /\ Hyper.start_time r < Hyper.end_time r
           /\ Hyper.end_time r = ktime e_out
           /\ Hyper.context_to_http_events
                (Hyper.step bld ro
                   (Hyper.run bld ro mid
                      (Hyper.step bld ro s (Hyper.serve_connection, e_in)))
                   (Hyper.serve_connection_return, e_out))
                !! hyper_identity bld Hyper.serve_connection e_in = None)
  /\ (forall bld ro p_in p_out s e_in e_out mid r0,
        tonic_is_entry p_in = true ->
        tonic_is_return p_out = true ->
        tonic_identity bld p_in e_in <> 0 ->
        Tonic.context_to_grpc_events (Tonic.step bld ro s (p_in, e_in))
          !! tonic_identity bld p_in e_in = Some r0 ->
        Forall (fun ev => ~ tonic_removes bld (tonic_identity bld p_in e_in) ev)
          mid ->
        tonic_identity bld p_out e_out = tonic_identity bld p_in e_in ->
        clock_between (ktime e_in) mid (ktime e_out) ->
        Tonic.grpc_events (Tonic.step bld ro s (p_in, e_in)) = Tonic.grpc_events s
        /\ exists r,
             Tonic.grpc_events
               (Tonic.step bld ro
                  (Tonic.run bld ro mid (Tonic.step bld ro s (p_in, e_in)))
                  (p_out, e_out))
             = Tonic.grpc_events
                 (Tonic.run bld ro mid (Tonic.step bld ro s (p_in, e_in)))
                 ++ [r]
             /\ 0 < Tonic.start_time r
             /\ Tonic.start_time r < Tonic.end_time r
             /\ Tonic.end_time r = ktime e_out
             /\ Tonic.context_to_grpc_events
                  (Tonic.step bld ro
                     (Tonic.run bld ro mid (Tonic.step bld ro s (p_in, e_in)))
                     (p_out, e_out))
                  !! tonic_identity bld p_in e_in = None).
Proof.
  split.
  - intros bld ro s e_in e_out mid r0.
    apply (hyper_pair_closes bld ro s e_in e_out mid r0).
  - intros bld ro p_in p_out s e_in e_out mid r0.
    apply (tonic_pair_closes bld ro p_in p_out s e_in e_out mid r0).
Qed.

Lemma entry_return_pair_emits_one_completed_record_witness :
  exists r,
    Hyper.events
      (Hyper.step sample_build sample_hyper_rodata
         (Hyper.run sample_build sample_hyper_rodata
            [(Hyper.request_method, sample_env 0xAA 1100);
             (Hyper.request_uri, sample_env 0xAA 1200)]
            (Hyper.step sample_build sample_hyper_rodata Hyper.init
               (Hyper.serve_connection, sample_env 0xAA 1000)))
         (Hyper.serve_connection_return, sample_env 0xAA 2001000))
    = Hyper.events
        (Hyper.run sample_build sample_hyper_rodata
           [(Hyper.request_method, sample_env 0xAA 1100);
            (Hyper.request_uri, sample_env 0xAA 1200)]
           (Hyper.step sample_build sample_hyper_rodata Hyper.init
              (Hyper.serve_connection, sample_env 0xAA 1000)))
        ++ [r]
    /\ 0 < Hyper.start_time r
    /\ Hyper.start_time r < Hyper.end_time r
    /\ Hyper.end_time r = 2001000.
Proof.
  destruct (proj1 entry_return_pair_emits_one_completed_record
              sample_build sample_hyper_rodata Hyper.init
              (sample_env 0xAA 1000) (sample_env 0xAA 2001000)
              [(Hyper.request_method, sample_env 0xAA 1100);
               (Hyper.request_uri, sample_env 0xAA 1200)]
              (hyper_opened (sample_env 0xAA 1000)))
    as (_ & r & He & H1 & H2 & H3 & _).
  - vm_compute. discriminate.
  - vm_compute. reflexivity.
  - repeat constructor; intros [Hret _]; discriminate Hret.
  - vm_compute. reflexivity.
  - unfold clock_between. cbn [ktime sample_env snd].
    split; [lia|]. split; [|lia]. repeat constructor; cbn; lia.
  - exists r. split; [exact He|]. split; [exact H1|]. split; [exact H2|].
    exact H3.
Defined.

(* ===================================================================== *)
(** ** Bounded extraction of the text fields *)
(* ===================================================================== *)

Lemma hyper_method_extraction (bld : build) (ro : Hyper.rodata) (e : env)
    (s : Hyper.maps) (r : Hyper.http_request_t) (source : list byte) :
  let k := get_argument (target bld) (ctx e) 1 in
  let ptr := bpf_probe_read_u64 0 (user_mem e) (u64 (k + Hyper.method_ptr_pos ro)) in
  let len :=
    bpf_probe_read_u64 0 (user_mem e) (u64 (k + Hyper.method_ptr_pos ro + 8)) in
  k <> 0 ->
  ptr <> 0 ->
  Hyper.context_to_http_events s !! k = Some r ->
  length (Hyper.method r) = Z.to_nat MAX_METHOD_SIZE ->
  probe_read_bytes (user_mem e) ptr (length source) = Some source ->
  (Z.to_nat (Z.min MAX_METHOD_SIZE len) <= length source)%nat ->
  exists r',
    Hyper.context_to_http_events (Hyper.step bld ro s (Hyper.request_method, e))
      !! k = Some r'
    /\ field_extracted MAX_METHOD_SIZE len (Hyper.method r) (Hyper.method r') source.
Proof.
  intros k ptr len Hk Hptr Hr Hcap Hsrc Hn.
  unfold Hyper.step. cbn [fst snd Hyper.fire].
  rewrite uprobe_hyper_request_method_eq. cbv zeta. fold k. fold ptr. fold len.
  destruct (Z.eqb_spec k 0); [contradiction|].
  destruct (Z.eqb_spec ptr 0); [contradiction|].
  rewrite Hr. cbn [snd Hyper.context_to_http_events].
  rewrite lookup_insert_eq. eexists. split; [reflexivity|].
  cbn [Hyper.method Hyper.set_method].
  apply clamped_read; assumption.
Qed.

Lemma hyper_path_extraction (bld : build) (ro : Hyper.rodata) (e : env)
    (s : Hyper.maps) (r : Hyper.http_request_t) (source : list byte) :
  let k := get_argument (target bld) (ctx e) 1 in
  let uri := bpf_probe_read_u64 0 (user_mem e) (u64 (k + Hyper.uri_ptr_pos ro)) in
  let ptr := bpf_probe_read_u64 0 (user_mem e) (u64 (uri + Hyper.path_ptr_pos ro)) in
  let len :=
    bpf_probe_read_u64 0 (user_mem e) (u64 (uri + Hyper.path_ptr_pos ro + 8)) in
  k <> 0 ->
  uri <> 0 ->
  Hyper.context_to_http_events s !! k = Some r ->
  length (Hyper.path r) = Z.to_nat MAX_PATH_SIZE ->
  probe_read_bytes (user_mem e) ptr (length source) = Some source ->
  (Z.to_nat (Z.min MAX_PATH_SIZE len) <= length source)%nat ->
  exists r',
    Hyper.context_to_http_events (Hyper.step bld ro s (Hyper.request_uri, e))
      !! k = Some r'
    /\ field_extracted MAX_PATH_SIZE len (Hyper.path r) (Hyper.path r') source.
Proof.
  intros k uri ptr len Hk Huri Hr Hcap Hsrc Hn.
  unfold Hyper.step. cbn [fst snd Hyper.fire].
  rewrite uprobe_hyper_request_uri_eq. cbv zeta.
  fold k. fold uri. fold ptr. fold len.
  destruct (Z.eqb_spec k 0); [contradiction|].
  destruct (Z.eqb_spec uri 0); [contradiction|].
  rewrite Hr. cbn [snd Hyper.context_to_http_events].
  rewrite lookup_insert_eq. eexists. split; [reflexivity|].
  cbn [Hyper.path Hyper.set_path].
  apply clamped_read; assumption.
Qed.

Lemma tonic_client_call_inserts (bld : build) (ro : Tonic.rodata) (e : env)
    (s : Tonic.maps) :
  let k := get_argument (target bld) (ctx e) 1 in
  k <> 0 ->
  is_Some (Tonic.context_to_grpc_events s !! k)
  \/ (size (Tonic.context_to_grpc_events s) < Tonic.MAX_CONCURRENT)%nat ->
  Tonic.context_to_grpc_events (Tonic.step bld ro s (Tonic.client_call, e)) !! k
  = Some (tonic_client_opened ro bld e).
Proof.
  intros k Hk Hroom.
  rewrite (tonic_entry_step bld ro Tonic.client_call s e eq_refl Hk).
  cbn [Tonic.context_to_grpc_events tonic_identity tonic_entry_record]. fold k.
  destruct Hroom as [Hp|Hp].
  - rewrite bpf_map_update_elem_present by exact Hp. apply lookup_insert_eq.
  - rewrite bpf_map_update_elem_room by exact Hp. apply lookup_insert_eq.
Qed.

Lemma zeroed_length (n : Z) : length (zeroed n) = Z.to_nat n.
Proof. unfold zeroed. apply length_replicate. Qed.

Lemma tonic_service_extraction (bld : build) (ro : Tonic.rodata) (e : env)
    (s : Tonic.maps) (source : list byte) :
  let k := get_argument (target bld) (ctx e) 1 in
  let ptr := bpf_probe_read_u64 0 (user_mem e) (u64 (k + Tonic.service_ptr_pos ro)) in
  let len :=
    bpf_probe_read_u64 0 (user_mem e) (u64 (k + Tonic.service_ptr_pos ro + 8)) in
  k <> 0 ->
  ptr <> 0 ->
  is_Some (Tonic.context_to_grpc_events s !! k)
  \/ (size (Tonic.context_to_grpc_events s) < Tonic.MAX_CONCURRENT)%nat ->
  probe_read_bytes (user_mem e) ptr (length source) = Some source ->
  (Z.to_nat (Z.min MAX_PATH_SIZE len) <= length source)%nat ->
  exists r',
    Tonic.context_to_grpc_events (Tonic.step bld ro s (Tonic.client_call, e))
      !! k = Some r'
    /\ field_extracted MAX_PATH_SIZE len (zeroed MAX_PATH_SIZE)
         (Tonic.service r') source.
Proof.
  intros k ptr len Hk Hptr Hroom Hsrc Hn.
  exists (tonic_client_opened ro bld e).
  split; [apply tonic_client_call_inserts; assumption|].
  unfold tonic_client_opened. cbv zeta. cbn [Tonic.service].
  fold k. fold ptr. fold len.
  destruct (Z.eqb_spec ptr 0); [contradiction|].
  apply clamped_read; [apply zeroed_length | assumption | assumption].
Qed.

Lemma tonic_method_extraction (bld : build) (ro : Tonic.rodata) (e : env)
    (s : Tonic.maps) (source : list byte) :
  let k := get_argument (target bld) (ctx e) 1 in
  let ptr := bpf_probe_read_u64 0 (user_mem e) (u64 (k + Tonic.method_ptr_pos ro)) in
  let len :=
    bpf_probe_read_u64 0 (user_mem e) (u64 (k + Tonic.method_ptr_pos ro + 8)) in
  k <> 0 ->
  ptr <> 0 ->
  is_Some (Tonic.context_to_grpc_events s !! k)
  \/ (size (Tonic.context_to_grpc_events s) < Tonic.MAX_CONCURRENT)%nat ->
  probe_read_bytes (user_mem e) ptr (length source) = Some source ->
  (Z.to_nat (Z.min MAX_METHOD_SIZE len) <= length source)%nat ->
  exists r',
    Tonic.context_to_grpc_events (Tonic.step bld ro s (Tonic.client_call, e))
      !! k = Some r'
    /\ field_extracted MAX_METHOD_SIZE len (zeroed MAX_METHOD_SIZE)
         (Tonic.method r') source.
Proof.
  intros k ptr len Hk Hptr Hroom Hsrc Hn.
  exists (tonic_client_opened ro bld e).
  split; [apply tonic_client_call_inserts; assumption|].
  unfold tonic_client_opened. cbv zeta. cbn [Tonic.method].
  fold k. fold ptr. fold len.
  destruct (Z.eqb_spec ptr 0); [contradiction|].
  apply clamped_read; [apply zeroed_length | assumption | assumption].
Qed.

(** C2: at each of the four string extractions (HTTP method, HTTP path,
    gRPC service, gRPC method), when the probe reaches the extraction and
    the source bytes that are copied are readable, the record it stores
    under its key has the field made of the first
    [min(capacity, reported length)] bytes of the source followed by what
    the field held beyond them; exactly that many bytes are copied, the
    field keeps its capacity (16 for a method, 256 for a path or service),
    and when the reported length exceeds the capacity the field is the
    first [capacity] bytes of the source. *)
Theorem string_extraction_clamped_to_capacity :
  (forall bld ro e s r source,
      let k := get_argument (target bld) (ctx e) 1 in
      let ptr :=
        bpf_probe_read_u64 0 (user_mem e) (u64 (k + Hyper.method_ptr_pos ro)) in
      let len :=
        bpf_probe_read_u64 0 (user_mem e)
          (u64 (k + Hyper.method_ptr_pos ro + 8)) in
      k <> 0 ->
      ptr <> 0 ->
      Hyper.context_to_http_events s !! k = Some r ->
      length (Hyper.method r) = Z.to_nat MAX_METHOD_SIZE ->
      probe_read_bytes (user_mem e) ptr (length source) = Some source ->
      (Z.to_nat (Z.min MAX_METHOD_SIZE len) <= length source)%nat ->
      exists r',
        Hyper.context_to_http_events
          (Hyper.step bld ro s (Hyper.request_method, e)) !! k = Some r'
        /\ field_extracted MAX_METHOD_SIZE len
             (Hyper.method r) (Hyper.method r') source)
  /\ (forall bld ro e s r source,
        let k := get_argument (target bld) (ctx e) 1 in
        let uri :=
          bpf_probe_read_u64 0 (user_mem e) (u64 (k + Hyper.uri_ptr_pos ro)) in
        let ptr :=
          bpf_probe_read_u64 0 (user_mem e) (u64 (uri + Hyper.path_ptr_pos ro)) in
        let len :=
          bpf_probe_read_u64 0 (user_mem e)
            (u64 (uri + Hyper.path_ptr_pos ro + 8)) in
        k <> 0 ->
        uri <> 0 ->
        Hyper.context_to_http_events s !! k = Some r ->
        length (Hyper.path r) = Z.to_nat MAX_PATH_SIZE ->
        probe_read_bytes (user_mem e) ptr (length source) = Some source ->
        (Z.to_nat (Z.min MAX_PATH_SIZE len) <= length source)%nat ->
        exists r',
          Hyper.context_to_http_events
            (Hyper.step bld ro s (Hyper.request_uri, e)) !! k = Some r'
          /\ field_extracted MAX_PATH_SIZE len
               (Hyper.path r) (Hyper.path r') source)
  /\ (forall bld ro e s source,
        let k := get_argument (target bld) (ctx e) 1 in
        let ptr :=
          bpf_probe_read_u64 0 (user_mem e) (u64 (k + Tonic.service_ptr_pos ro)) in
        let len :=
          bpf_probe_read_u64 0 (user_mem e)
            (u64 (k + Tonic.service_ptr_pos ro + 8)) in
        k <> 0 ->
        ptr <> 0 ->
        is_Some (Tonic.context_to_grpc_events s !! k)
        \/ (size (Tonic.context_to_grpc_events s) < Tonic.MAX_CONCURRENT)%nat ->
        probe_read_bytes (user_mem e) ptr (length source) = Some source ->
        (Z.to_nat (Z.min MAX_PATH_SIZE len) <= length source)%nat ->
        exists r',
          Tonic.context_to_grpc_events
            (Tonic.step bld ro s (Tonic.client_call, e)) !! k = Some r'
          /\ field_extracted MAX_PATH_SIZE len (zeroed MAX_PATH_SIZE)
               (Tonic.service r') source)
  /\ (forall bld ro e s source,
        let k := get_argument (target bld) (ctx e) 1 in
        let ptr :=
          bpf_probe_read_u64 0 (user_mem e) (u64 (k + Tonic.method_ptr_pos ro)) in
        let len :=
          bpf_probe_read_u64 0 (user_mem e)
            (u64 (k + Tonic.method_ptr_pos ro + 8)) in
        k <> 0 ->
        ptr <> 0 ->
        is_Some (Tonic.context_to_grpc_events s !! k)
        \/ (size (Tonic.context_to_grpc_events s) < Tonic.MAX_CONCURRENT)%nat ->
        probe_read_bytes (user_mem e) ptr (length source) = Some source ->
        (Z.to_nat (Z.min MAX_METHOD_SIZE len) <= length source)%nat ->
        exists r',
          Tonic.context_to_grpc_events
            (Tonic.step bld ro s (Tonic.client_call, e)) !! k = Some r'
          /\ field_extracted MAX_METHOD_SIZE len (zeroed MAX_METHOD_SIZE)
               (Tonic.method r') source).
Proof.
  split; [|split; [|split]].
  - intros bld ro e s r source. apply hyper_method_extraction.
  - intros bld ro e s r source. apply hyper_path_extraction.
  - intros bld ro e s source. apply tonic_service_extraction.
  - intros bld ro e s source. apply tonic_method_extraction.
Qed.

(** The 21-character method name of the sample client call fills the
    16-byte field with its first 16 characters. *)
Lemma string_extraction_clamped_to_capacity_witness :
  exists r',
    Tonic.context_to_grpc_events
      (Tonic.step sample_build sample_tonic_rodata Tonic.init
         (Tonic.client_call, sample_env 0xBB 1000)) !! 0xBB = Some r'
    /\ Tonic.method r' = list_byte_of_string "GetFeatureStream".
Proof.
  destruct (proj2 (proj2 (proj2 string_extraction_clamped_to_capacity))
              sample_build sample_tonic_rodata (sample_env 0xBB 1000)
              Tonic.init (list_byte_of_string "GetFeatureStreamingV2"))
    as (r' & Hr & _ & _ & _ & Htrunc).
  - vm_compute. discriminate.
  - vm_compute. discriminate.
  - right. vm_compute. lia.
  - vm_compute. reflexivity.
  - vm_compute. lia.
  - exists r'. split; [exact Hr|].
    rewrite Htrunc; [reflexivity | vm_compute; reflexivity].
Defined.

(* ===================================================================== *)
(** ** The gRPC client entry probe *)
(* ===================================================================== *)

(** C7: the client entry probe captures the identity, the start timestamp
    and a fresh span context and extracts service and method in the same
    firing; with a non-null key and room in the table (or the key already
    there) the record it built is in the correlation table afterwards.  A
    null service pointer leaves only the service field zeroed and a null
    method pointer only the method field: each field is extracted by its
    own pointer, whatever the other pointer is. *)
Theorem client_call_extracts_inline_null_skips_field
    (bld : build) (ro : Tonic.rodata) (e : env) (s : Tonic.maps) :
  let k := get_argument (target bld) (ctx e) 1 in
  let service_ptr :=
    bpf_probe_read_u64 0 (user_mem e) (u64 (k + Tonic.service_ptr_pos ro)) in
  let service_len :=
    bpf_probe_read_u64 0 (user_mem e) (u64 (k + Tonic.service_ptr_pos ro + 8)) in
  let method_ptr :=
    bpf_probe_read_u64 0 (user_mem e) (u64 (k + Tonic.method_ptr_pos ro)) in
  let method_len :=
    bpf_probe_read_u64 0 (user_mem e) (u64 (k + Tonic.method_ptr_pos ro + 8)) in
  k <> 0 ->
  is_Some (Tonic.context_to_grpc_events s !! k)
  \/ (size (Tonic.context_to_grpc_events s) < Tonic.MAX_CONCURRENT)%nat ->
  exists r,
    Tonic.context_to_grpc_events (Tonic.step bld ro s (Tonic.client_call, e)) !! k
    = Some r
    /\ Tonic.start_time r = bpf_ktime_get_ns e
    /\ Tonic.sc r = generate_span_context e
    /\ (service_ptr = 0 -> Tonic.service r = zeroed MAX_PATH_SIZE)
    /\ (service_ptr <> 0 ->
        Tonic.service r
        = bpf_probe_read (zeroed MAX_PATH_SIZE)
            (if MAX_PATH_SIZE <? service_len then MAX_PATH_SIZE else service_len)
            (user_mem e) service_ptr)
    /\ (method_ptr = 0 -> Tonic.method r = zeroed MAX_METHOD_SIZE)
    /\ (method_ptr <> 0 ->
        Tonic.method r
        = bpf_probe_read (zeroed MAX_METHOD_SIZE)
            (if MAX_METHOD_SIZE <? method_len then MAX_METHOD_SIZE else method_len)
            (user_mem e) method_ptr).
Proof.
  intros k service_ptr service_len method_ptr method_len Hk Hroom.
  exists (tonic_client_opened ro bld e).
  split; [apply tonic_client_call_inserts; assumption|].
  unfold tonic_client_opened. cbv zeta.
  cbn [Tonic.start_time Tonic.sc Tonic.service Tonic.method].
  fold k. fold service_ptr. fold service_len. fold method_ptr. fold method_len.
  split; [reflexivity|]. split; [reflexivity|].
  destruct (Z.eqb_spec service_ptr 0); destruct (Z.eqb_spec method_ptr 0);
    repeat split; intros; congruence.
Qed.

Lemma client_call_extracts_inline_null_skips_field_witness :
  exists r,
    Tonic.context_to_grpc_events
      (Tonic.step sample_build sample_tonic_rodata Tonic.init
         (Tonic.client_call, sample_env_null_service 0xBB 1000)) !! 0xBB
    = Some r
    /\ Tonic.service r = zeroed MAX_PATH_SIZE
    /\ take 3 (Tonic.method r) = list_byte_of_string "GET".
Proof.
  destruct (client_call_extracts_inline_null_skips_field
              sample_build sample_tonic_rodata
              (sample_env_null_service 0xBB 1000) Tonic.init)
    as (r & Hr & _ & _ & Hs0 & _ & _ & Hm1).
  - vm_compute. discriminate.
  - right. vm_compute. lia.
  - exists r. split; [exact Hr|]. split.
    + apply Hs0. vm_compute. reflexivity.
    + rewrite Hm1; [vm_compute; reflexivity | vm_compute; discriminate].
Defined.

(* ===================================================================== *)
(** ** The gRPC server pair *)
(* ===================================================================== *)

Lemma tonic_other_key_step (bld : build) (ro : Tonic.rodata) (k : Z)
    (s : Tonic.maps) (ev : Tonic.probe * env) :
  tonic_identity bld (fst ev) (snd ev) <> k ->
  Tonic.context_to_grpc_events (Tonic.step bld ro s ev) !! k
  = Tonic.context_to_grpc_events s !! k.
Proof.
  destruct ev as [p e]. cbn [fst snd]. intros Hne.
  destruct (tonic_step_effect bld ro p e s)
    as [Heq | _ _ Ht _ _ | r0 _ _ Ht _ _].
  - rewrite Heq. reflexivity.
  - rewrite Ht. apply bpf_map_update_elem_lookup_ne. exact Hne.
  - rewrite Ht. apply lookup_delete_ne. exact Hne.
Qed.

(** The claim of C8 at two concrete server calls.  First: the traced
    function returns 14, the record emitted for the pair has status 0.
    Second: a client entry probe fires on the same key between the server
    entry and the server return (no return probe in between); the record
    the server return emits then carries the client's start time, service
    and method, the table being shared by the four probes. *)
Lemma grpc_server_pair_claim_fails :
  (get_return_value (ctx (sample_return_env 0xCC 3000 14)) = 14
   /\ exists r,
        Tonic.grpc_events
          (Tonic.run sample_build sample_tonic_rodata
             [(Tonic.server_serve, sample_env 0xCC 1000);
              (Tonic.server_serve_return, sample_return_env 0xCC 3000 14)]
             Tonic.init) = [r]
        /\ Tonic.start_time r = 1000
        /\ Tonic.end_time r = 3000
        /\ Tonic.status_code r = 0
        /\ ~ grpc_status_captured (sample_return_env 0xCC 3000 14) r)
  /\ (exists r,
        Tonic.grpc_events
          (Tonic.run sample_build sample_tonic_rodata
             [(Tonic.server_serve, sample_env 0xBB 1000);
              (Tonic.client_call, sample_env 0xBB 1500);
              (Tonic.server_serve_return, sample_env 0xBB 3000)]
             Tonic.init) = [r]
        /\ Tonic.start_time r = 1500
        /\ take 7 (Tonic.service r) = list_byte_of_string "pkg.Svc"
        /\ Tonic.service r <> zeroed MAX_PATH_SIZE
        /\ Tonic.method r = list_byte_of_string "GetFeatureStream").
Proof.
  split.
  - split; [vm_compute; reflexivity|].
    eexists. split; [vm_compute; reflexivity|].
    split; [reflexivity|]. split; [reflexivity|]. split; [reflexivity|].
    unfold grpc_status_captured. vm_compute. discriminate.
  - eexists. split; [vm_compute; reflexivity|].
    split; [reflexivity|]. split; [vm_compute; reflexivity|].
    split; [vm_compute; discriminate | vm_compute; reflexivity].
Qed.

Lemma grpc_server_pending_step (bld : build) (ro : Tonic.rodata)
    (k : Z) (e_in : env) (mid : list (Tonic.probe * env))
    (s : Tonic.maps) (ev : Tonic.probe * env) :
  In ev mid
  /\ ~ tonic_removes bld k ev
  /\ ~ tonic_fires bld Tonic.client_call k ev ->
  (exists e,
      Tonic.context_to_grpc_events s !! k = Some (tonic_opened e)
      /\ (e = e_in \/ In (Tonic.server_serve, e) mid
                      /\ tonic_identity bld Tonic.server_serve e = k)) ->
  exists e,
    Tonic.context_to_grpc_events (Tonic.step bld ro s ev) !! k
    = Some (tonic_opened e)
    /\ (e = e_in \/ In (Tonic.server_serve, e) mid
                    /\ tonic_identity bld Tonic.server_serve e = k).
Proof.
  destruct ev as [p e]. intros (Hin & Hkeep & Hclient) (e0 & Hr & Hfrom).
  destruct (tonic_step_effect bld ro p e s)
    as [Heq | Hp _ Ht _ _ | r0 Hp Hr0 Ht _ _].
  - rewrite Heq. eauto.
  - rewrite Ht.
    destruct (decide (tonic_identity bld p e = k)) as [Hk|Hk].
    + rewrite bpf_map_update_elem_present by (rewrite Hk, Hr; eauto).
      rewrite Hk, lookup_insert_eq.
      destruct p; try discriminate Hp.
      * exists e. split; [reflexivity|]. right. split; assumption.
      * exfalso. apply Hclient. split; [reflexivity | exact Hk].
    + rewrite bpf_map_update_elem_lookup_ne by exact Hk. eauto.
  - rewrite Ht, lookup_delete. case_decide; [|eauto].
    exfalso. apply Hkeep. split; assumption.
Qed.

(** C8 (amended): take a server entry probe that leaves a record under its
    non-null key [k], firings after it among which no return probe and no
    client entry probe has identity [k], and then the server return probe on
    [k].  The return probe emits exactly one record; its service and method
    are zeroed as at initialisation, its status code is 0 (no probe writes
    it), its end timestamp is the one read by the return probe, and its
    start timestamp and span context are those of a server entry probe on
    [k]: the entry of the pair, unless a later server entry on [k] has
    replaced the record in between. *)
Theorem grpc_server_pair_record
    (bld : build) (ro : Tonic.rodata) (s : Tonic.maps) (e_in e_out : env)
    (mid : list (Tonic.probe * env)) (r0 : Tonic.grpc_request_t) :
  let k := tonic_identity bld Tonic.server_serve e_in in
  let s1 := Tonic.step bld ro s (Tonic.server_serve, e_in) in
  let s2 := Tonic.run bld ro mid s1 in
  let s3 := Tonic.step bld ro s2 (Tonic.server_serve_return, e_out) in
  k <> 0 ->
  Tonic.context_to_grpc_events s1 !! k = Some r0 ->
  Forall (fun ev => ~ tonic_removes bld k ev) mid ->
  Forall (fun ev => ~ tonic_fires bld Tonic.client_call k ev) mid ->
  tonic_identity bld Tonic.server_serve_return e_out = k ->
  exists r e,
    Tonic.grpc_events s3 = Tonic.grpc_events s2 ++ [r]
    /\ Tonic.service r = zeroed MAX_PATH_SIZE
    /\ Tonic.method r = zeroed MAX_METHOD_SIZE
    /\ Tonic.status_code r = 0
    /\ Tonic.end_time r = bpf_ktime_get_ns e_out
    /\ Tonic.start_time r = bpf_ktime_get_ns e
    /\ Tonic.sc r = generate_span_context e
    /\ (e = e_in \/ In (Tonic.server_serve, e) mid
                    /\ tonic_identity bld Tonic.server_serve e = k)
    /\ (Forall (fun ev => ~ tonic_fires bld Tonic.server_serve k ev) mid ->
        e = e_in).
Proof.
  intros k s1 s2 s3 Hk Hins Hmid Hclient Hout.
  assert (Hr0 : r0 = tonic_opened e_in).
  { apply (tonic_entry_inserted_record bld ro Tonic.server_serve s e_in r0
             eq_refl Hk Hins). }
  assert (Hpend : exists e,
             Tonic.context_to_grpc_events s2 !! k = Some (tonic_opened e)
             /\ (e = e_in \/ In (Tonic.server_serve, e) mid
                             /\ tonic_identity bld Tonic.server_serve e = k)).
  { unfold s2.
    apply (tonic_run_preserves bld ro
             (fun s => exists e,
                  Tonic.context_to_grpc_events s !! k = Some (tonic_opened e)
                  /\ (e = e_in \/ In (Tonic.server_serve, e) mid
                                  /\ tonic_identity bld Tonic.server_serve e = k))
             (fun ev => In ev mid
                        /\ ~ tonic_removes bld k ev
                        /\ ~ tonic_fires bld Tonic.client_call k ev)).
    - intros s' ev HQ HP.
      apply (grpc_server_pending_step bld ro k e_in mid s' ev HQ HP).
    - rewrite Forall_forall in *. intros ev Hev.
      split; [apply list_elem_of_In; exact Hev | auto].
    - exists e_in. split; [rewrite <- Hr0; exact Hins | left; reflexivity]. }
  destruct Hpend as (e & Hr & Hfrom).
  exists (Tonic.set_end_time (bpf_ktime_get_ns e_out) (tonic_opened e)), e.
  unfold s3.
  rewrite (tonic_return_step bld ro Tonic.server_serve_return s2 e_out
             (tonic_opened e));
    [| reflexivity | rewrite Hout; exact Hk | rewrite Hout; exact Hr].
  cbn [Tonic.grpc_events].
  split; [reflexivity|]. split; [reflexivity|]. split; [reflexivity|].
  split; [reflexivity|]. split; [reflexivity|]. split; [reflexivity|].
  split; [reflexivity|]. split; [exact Hfrom|].
  intros Hnone. destruct Hfrom as [He | [Hin Hke]]; [exact He|].
  exfalso. rewrite Forall_forall in Hnone.
  apply (Hnone (Tonic.server_serve, e)); [apply list_elem_of_In; exact Hin|].
  split; [reflexivity | exact Hke].
Qed.

Lemma grpc_server_pair_record_witness :
  exists r,
    Tonic.grpc_events
      (Tonic.step sample_build sample_tonic_rodata
         (Tonic.run sample_build sample_tonic_rodata
            [(Tonic.client_call, sample_env 0xBB 1500);
             (Tonic.server_serve, sample_env 0xCC 2000)]
            (Tonic.step sample_build sample_tonic_rodata Tonic.init
               (Tonic.server_serve, sample_env 0xCC 1000)))
         (Tonic.server_serve_return, sample_return_env 0xCC 3000 14))
    = Tonic.grpc_events
        (Tonic.run sample_build sample_tonic_rodata
           [(Tonic.client_call, sample_env 0xBB 1500);
            (Tonic.server_serve, sample_env 0xCC 2000)]
           (Tonic.step sample_build sample_tonic_rodata Tonic.init
              (Tonic.server_serve, sample_env 0xCC 1000)))
        ++ [r]
    /\ Tonic.service r = zeroed MAX_PATH_SIZE
    /\ Tonic.method r = zeroed MAX_METHOD_SIZE
    /\ Tonic.status_code r = 0.
Proof.
  destruct (grpc_server_pair_record sample_build sample_tonic_rodata Tonic.init
              (sample_env 0xCC 1000) (sample_return_env 0xCC 3000 14)
              [(Tonic.client_call, sample_env 0xBB 1500);
               (Tonic.server_serve, sample_env 0xCC 2000)]
              (tonic_opened (sample_env 0xCC 1000)))
    as (r & e & He & H1 & H2 & H3 & _).
  - vm_compute. discriminate.
  - vm_compute. reflexivity.
  - repeat constructor; intros [Hret _]; discriminate Hret.
  - constructor; [|constructor; [|constructor]].
    + intros [_ Hkey]. vm_compute in Hkey. discriminate Hkey.
    + intros [Hp _]. discriminate Hp.
  - vm_compute. reflexivity.
  - exists r. split; [exact He|]. split; [exact H1|]. split; [exact H2|].
    exact H3.
Defined.

(* ===================================================================== *)
(** ** End-to-end scenarios *)
(* ===================================================================== *)

(** An HTTP request on key [0xAA], enriched with method ["GET"] and path
    ["/healthz"] and closed 2,000,000 ns after it was opened, emits one
    record with these fields and a 32-character trace identifier string. *)
Example hyper_healthz_scenario :
  exists r,
    Hyper.events
      (Hyper.run sample_build sample_hyper_rodata
         [(Hyper.serve_connection, sample_env 0xAA 1000);
          (Hyper.request_method, sample_env 0xAA 1100);
          (Hyper.request_uri, sample_env 0xAA 1200);
          (Hyper.serve_connection_return, sample_env 0xAA 2001000)]
         Hyper.init) = [r]
    /\ take 3 (Hyper.method r) = list_byte_of_string "GET"
    /\ drop 3 (Hyper.method r) = zeroed 13
    /\ take 8 (Hyper.path r) = list_byte_of_string "/healthz"
    /\ Hyper.end_time r - Hyper.start_time r = 2000000
    /\ Hyper.status_code r = 0
    /\ length (TraceIDHex (Hyper.sc r)) = 32%nat
    /\ TraceIDHex (Hyper.sc r) = hex_render (TraceID (Hyper.sc r)).
Proof. eexists. repeat split; vm_compute; reflexivity. Qed.

(** A gRPC client call on key [0xBB] with service ["pkg.Svc"] and a method
    name of 21 characters emits one record whose method field holds the
    first 16 of them. *)
Example tonic_client_scenario :
  exists r,
    Tonic.grpc_events
      (Tonic.run sample_build sample_tonic_rodata
         [(Tonic.client_call, sample_env 0xBB 1000);
          (Tonic.client_call_return, sample_env 0xBB 3000)]
         Tonic.init) = [r]
    /\ take 7 (Tonic.service r) = list_byte_of_string "pkg.Svc"
    /\ Tonic.method r = list_byte_of_string "GetFeatureStream"
    /\ Tonic.start_time r = 1000
    /\ Tonic.end_time r = 3000.
Proof. eexists. repeat split; vm_compute; reflexivity. Qed.

(** A return probe whose stack slot is unreadable reads a null key and does
    nothing. *)
Example hyper_unreadable_stack_scenario :
  Hyper.fire sample_build sample_hyper_rodata Hyper.serve_connection_return
    {| ctx := {| arg_regs := []; reg_sp := 0x9000; reg_rc := 0 |};
       user_mem := sample_mem 0xAA;
       ktime := 5000;
       prandom := sample_prandom |}
    (Hyper.step sample_build sample_hyper_rodata Hyper.init
       (Hyper.serve_connection, sample_env 0xAA 1000))
  = (0, Hyper.step sample_build sample_hyper_rodata Hyper.init
          (Hyper.serve_connection, sample_env 0xAA 1000)).
Proof. vm_compute. reflexivity. Qed.

(* ===================================================================== *)
(** ** Bytes, nibbles and little-endian words *)
(* ===================================================================== *)

Lemma byte_val_range (b : byte) : 0 <= byte_val b < 256.
Proof. unfold byte_val. pose proof (Byte.to_N_bounded b). lia. Qed.

Lemma byte_val_byte_of (z : Z) : byte_val (byte_of z) = z mod 256.
Proof.
  unfold byte_of, u8, wrap. change (2 ^ 8) with 256.
  assert (Hr : 0 <= z mod 256 < 256) by (apply Z.mod_pos_bound; lia).
  destruct (Byte.of_N (Z.to_N (z mod 256))) as [b|] eqn:E.
  - apply Byte.to_of_N in E. unfold byte_val. rewrite E. lia.
  - apply Byte.of_N_None_iff in E. lia.
Qed.

Lemma byte_of_byte_val (b : byte) : byte_of (byte_val b) = b.
Proof. destruct b; vm_compute; reflexivity. Qed.

Lemma byte_of_low_bits (r : Z) : byte_of (Z.land (u32 r) 255) = byte_of r.
Proof.
  assert (H : u8 (Z.land (u32 r) 255) = u8 r).
  { unfold u8, u32, wrap. change 255 with (Z.ones 8).
    rewrite Z.land_ones by lia. rewrite Z.mod_mod by lia.
    apply Z.mod_mod_divide. exists (2 ^ 24). reflexivity. }
  unfold byte_of. rewrite H. reflexivity.
Qed.

Lemma nibbles_join (x y : Z) :
  0 <= x < 16 -> 0 <= y < 16 -> Z.lor (Z.shiftl x 4) y = x * 16 + y.
Proof.
  intros Hx Hy.
  assert (Ex : x = 0 \/ x = 1 \/ x = 2 \/ x = 3 \/ x = 4 \/ x = 5 \/ x = 6
               \/ x = 7 \/ x = 8 \/ x = 9 \/ x = 10 \/ x = 11 \/ x = 12
               \/ x = 13 \/ x = 14 \/ x = 15) by lia.
  assert (Ey : y = 0 \/ y = 1 \/ y = 2 \/ y = 3 \/ y = 4 \/ y = 5 \/ y = 6
               \/ y = 7 \/ y = 8 \/ y = 9 \/ y = 10 \/ y = 11 \/ y = 12
               \/ y = 13 \/ y = 14 \/ y = 15) by lia.
  clear Hx Hy.
  repeat (destruct Ex as [Ex|Ex]); subst x;
    repeat (destruct Ey as [Ey|Ey]); subst y; reflexivity.
Qed.

Lemma hex_to_byte_nibble (c : byte) : 0 <= byte_val (hex_to_byte c) < 16.
Proof. destruct c; vm_compute; split; congruence. Qed.

Lemma le_val_le_bytes (n : nat) :
  forall z, le_val (le_bytes n z) = z mod 256 ^ Z.of_nat n.
Proof.
  induction n as [|n IH]; intros z.
  - cbn. symmetry. apply Z.mod_1_r.
  - cbn [le_bytes le_val]. rewrite IH, byte_val_byte_of.
    rewrite Nat2Z.inj_succ, Z.pow_succ_r by lia.
    rewrite (Z.rem_mul_r z 256 (256 ^ Z.of_nat n)) by lia.
    reflexivity.
Qed.

Lemma drop_two (l : list byte) (n : nat) :
  (n + 2 <= length l)%nat ->
  drop n l = nth n l x00 :: nth (S n) l x00 :: drop (S (S n)) l.
Proof.
  revert l. induction n as [|n IH]; intros l Hl.
  - destruct l as [|a [|b l]]; simpl in *; try lia. reflexivity.
  - destruct l as [|a l]; simpl in *; try lia. apply IH. lia.
Qed.

Lemma store_one (l : list byte) (n : nat) (x : byte) :
  (n < length l)%nat ->
  <[n := x]> l = take n l ++ x :: drop (S n) l.
Proof.
  revert l. induction n as [|n IH]; intros l Hl.
  - destruct l; simpl in *; [lia | reflexivity].
  - destruct l as [|a l]; simpl in *; [lia|]. f_equal. apply IH. lia.
Qed.

(* ===================================================================== *)
(** ** Decoding hexadecimal strings *)
(* ===================================================================== *)

Lemma hex_parse_length (hex : list byte) :
  forall n, (length hex = 2 * n)%nat -> length (hex_parse hex) = n.
Proof.
  intros n. revert hex. induction n as [|n IH]; intros hex Hl.
  - destruct hex; [reflexivity | simpl in Hl; lia].
  - destruct hex as [|a [|b rest]]; simpl in Hl; try lia.
    cbn [hex_parse length]. f_equal. apply IH. lia.
Qed.

Lemma hex_string_to_bytes_loop_spec (hex : list byte) :
  forall (todo i : nat) (out : list byte),
    (2 * (i + todo) <= length hex)%nat ->
    (i + todo <= length out)%nat ->
    Z.of_nat (2 * (i + todo)) <= 2 ^ 32 ->
    hex_string_to_bytes_loop todo (Z.of_nat i) hex out
    = take i out ++ hex_parse (take (2 * todo) (drop (2 * i) hex))
        ++ drop (i + todo) out.
Proof.
  induction todo as [|todo IH]; intros i out Hh Ho Hw.
  - cbn [hex_string_to_bytes_loop]. rewrite Nat.mul_0_r, Nat.add_0_r.
    cbn [take hex_parse app]. symmetry. apply take_drop.
  - cbn [hex_string_to_bytes_loop].
    rewrite !u32_small by lia.
    unfold store, cell.
    replace (Z.to_nat (Z.of_nat i * 2)) with (2 * i)%nat by lia.
    replace (Z.to_nat (Z.of_nat i * 2 + 1)) with (S (2 * i)) by lia.
    rewrite Nat2Z.id.
    rewrite nibbles_join by apply hex_to_byte_nibble.
    fold (hex_pair_value (nth (2 * i) hex x00) (nth (S (2 * i)) hex x00)).
    set (v := hex_pair_value (nth (2 * i) hex x00) (nth (S (2 * i)) hex x00)).
    rewrite store_one by lia.
    replace (Z.of_nat i + 1) with (Z.of_nat (S i)) by lia.
    rewrite IH by (rewrite ?length_app, ?length_take; simpl;
                   rewrite ?length_drop; lia).
    rewrite (drop_two hex (2 * i)) by lia.
    replace (2 * S todo)%nat with (S (S (2 * todo))) by lia.
    cbn [take hex_parse]. fold v.
    replace (drop (S (S (2 * i))) hex) with (drop (2 * S i) hex)
      by (f_equal; lia).
    set (o1 := take i out ++ v :: drop (S i) out).
    assert (Hsplit : o1 = (take i out ++ [v]) ++ drop (S i) out).
    { unfold o1. rewrite <- app_assoc. reflexivity. }
    assert (Ht : take (S i) o1 = take i out ++ [v]).
    { rewrite Hsplit. apply take_app_length'.
      rewrite length_app, length_take. simpl. lia. }
    assert (Hdr : drop (S i + todo) o1 = drop (i + S todo) out).
    { rewrite Hsplit.
      rewrite drop_app_ge by (rewrite length_app, length_take; simpl; lia).
      rewrite length_app, length_take. simpl.
      rewrite drop_drop. f_equal. lia. }
    rewrite Ht, Hdr. rewrite <- !app_assoc. reflexivity.
Qed.

Lemma hex_string_to_bytes_spec (hex out : list byte) (hex_len : Z) :
  0 <= hex_len <= 2 ^ 32 ->
  (Z.to_nat hex_len <= length hex)%nat ->
  (Z.to_nat (hex_len / 2) <= length out)%nat ->
  hex_string_to_bytes hex hex_len out
  = hex_parse (take (2 * Z.to_nat (hex_len / 2)) hex)
      ++ drop (Z.to_nat (hex_len / 2)) out.
Proof.
  intros Hlen Hhex Hout.
  assert (Hhalf : 0 <= 2 * (hex_len / 2) <= hex_len).
  { pose proof (Z.mul_div_le hex_len 2). pose proof (Z.div_pos hex_len 2). lia. }
  unfold hex_string_to_bytes. change 0 with (Z.of_nat 0).
  rewrite hex_string_to_bytes_loop_spec by lia.
  cbn [take drop app Nat.mul Nat.add]. reflexivity.
Qed.

Lemma hex_parse_render (bytes : list byte) : hex_parse (hex_render bytes) = bytes.
Proof.
  unfold hex_render. induction bytes as [|b bytes IH]; [reflexivity|].
  cbn [flat_map hex_pair app hex_parse]. rewrite IH. f_equal.
  destruct b; vm_compute; reflexivity.
Qed.

Lemma bytes_to_hex_string_spec (bytes out : list byte) (size : Z) :
  (Z.to_nat size <= length bytes)%nat ->
  2 * size <= Z.of_nat (length out) ->
  2 * size <= 2 ^ 32 ->
  bytes_to_hex_string bytes size out
  = hex_render (take (Z.to_nat size) bytes) ++ drop (2 * Z.to_nat size) out.
Proof.
  intros Hbytes Hout Hwrap.
  unfold bytes_to_hex_string. change 0 with (Z.of_nat 0).
  rewrite bytes_to_hex_string_loop_spec by lia.
  cbn [take drop app Nat.mul Nat.add]. reflexivity.
Qed.

(** X1: decoding what [bytes_to_hex_string] wrote gives the bytes back:
    [hex_string_to_bytes] applied to the [2 * size] characters rendered from
    [size] bytes writes exactly those bytes to the front of its output
    buffer and leaves the rest of the buffer alone. *)
Theorem hex_string_to_bytes_inverts_bytes_to_hex_string
    (bytes hex_buf out : list byte) (size : Z) :
  0 <= size ->
  (Z.to_nat size <= length bytes)%nat ->
  2 * size <= Z.of_nat (length hex_buf) ->
  (Z.to_nat size <= length out)%nat ->
  2 * size < 2 ^ 32 ->
  hex_string_to_bytes (bytes_to_hex_string bytes size hex_buf) (2 * size) out
  = take (Z.to_nat size) bytes ++ drop (Z.to_nat size) out.
Proof.
  intros Hsize Hbytes Hhex Hout Hwrap.
  rewrite bytes_to_hex_string_spec by (trivial; lia).
  assert (Hhalf : 2 * size / 2 = size)
    by (rewrite Z.mul_comm; apply Z.div_mul; lia).
  assert (Hrl : length (hex_render (take (Z.to_nat size) bytes))
                = (2 * Z.to_nat size)%nat).
  { rewrite hex_render_length, length_take. lia. }
  rewrite hex_string_to_bytes_spec.
  - rewrite Hhalf. rewrite take_app_length' by (symmetry; exact Hrl).
    rewrite hex_parse_render. reflexivity.
  - lia.
  - rewrite length_app, Hrl, length_drop. lia.
  - rewrite Hhalf. exact Hout.
Qed.

Lemma hex_string_to_bytes_inverts_bytes_to_hex_string_witness :
  hex_string_to_bytes
    (bytes_to_hex_string sample_trace_id 16 (zeroed 32)) (2 * 16) (zeroed 16)
  = take (Z.to_nat 16) sample_trace_id ++ drop (Z.to_nat 16) (zeroed 16).
Proof.
  apply hex_string_to_bytes_inverts_bytes_to_hex_string;
    vm_compute; first [reflexivity | lia | discriminate].
Defined.

(** X2: [hex_to_byte] always yields a nibble (a value below 16); it undoes
    [hex_char] on every nibble; it reads an upper-case digit ['A'..'F'] as
    the lower-case one; and every character that is not a hexadecimal digit
    decodes to 0, the same value as the digit ['0']. *)
Theorem hex_to_byte_decodes_digits :
  (forall c, byte_val (hex_to_byte c) < 16)
  /\ (forall v, byte_val v < 16 -> hex_to_byte (hex_char v) = v)
  /\ (forall c, 65 <= byte_val c <= 70 ->
                hex_to_byte c = hex_to_byte (byte_of (byte_val c + 32)))
  /\ (forall c, is_hex_digit c = false -> hex_to_byte c = x00).
Proof.
  split; [|split; [|split]].
  - intros c. apply hex_to_byte_nibble.
  - intros v Hv. destruct v; vm_compute in Hv; try discriminate Hv;
      vm_compute; reflexivity.
  - intros c [Hlo Hhi].
    destruct c; vm_compute in Hlo, Hhi;
      first [exfalso; apply Hlo; reflexivity
            | exfalso; apply Hhi; reflexivity
            | vm_compute; reflexivity].
  - intros c Hc. destruct c; vm_compute in Hc; try discriminate Hc;
      vm_compute; reflexivity.
Qed.

Lemma hex_to_byte_decodes_digits_witness :
  hex_to_byte (hex_char x0b) = x0b
  /\ hex_to_byte "E"%byte = hex_to_byte (byte_of (byte_val "E"%byte + 32))
  /\ hex_to_byte "g"%byte = x00.
Proof.
  destruct hex_to_byte_decodes_digits as (_ & Hinv & Hup & Hno).
  split; [|split].
  - apply Hinv. vm_compute. reflexivity.
  - apply Hup. vm_compute. split; discriminate.
  - apply Hno. vm_compute. reflexivity.
Defined.

(** X3: [hex_string_to_bytes] decodes the first [hex_len / 2] pairs of
    characters, high nibble first, into the front of the output buffer and
    writes nothing else: the buffer keeps its length and its bytes from
    index [hex_len / 2] on, and the last character of a string of odd length
    is ignored. *)
Theorem hex_string_to_bytes_decodes_pairs
    (hex out : list byte) (hex_len : Z) :
  0 <= hex_len < 2 ^ 32 ->
  (Z.to_nat hex_len <= length hex)%nat ->
  (Z.to_nat (hex_len / 2) <= length out)%nat ->
  hex_string_to_bytes hex hex_len out
  = hex_parse (take (2 * Z.to_nat (hex_len / 2)) hex)
      ++ drop (Z.to_nat (hex_len / 2)) out
  /\ length (hex_string_to_bytes hex hex_len out) = length out
  /\ (hex_len mod 2 = 1 ->
      hex_string_to_bytes hex hex_len out
      = hex_string_to_bytes hex (hex_len - 1) out).
Proof.
  intros Hlen Hhex Hout.
  assert (Hhalf : 0 <= 2 * (hex_len / 2) <= hex_len).
  { pose proof (Z.mul_div_le hex_len 2). pose proof (Z.div_pos hex_len 2). lia. }
  split; [apply hex_string_to_bytes_spec; trivial; lia|]. split.
  - rewrite hex_string_to_bytes_spec by (trivial; lia).
    rewrite length_app, length_drop.
    rewrite (hex_parse_length _ (Z.to_nat (hex_len / 2))).
    + lia.
    + rewrite length_take. lia.
  - intros Hodd. unfold hex_string_to_bytes.
    replace ((hex_len - 1) / 2) with (hex_len / 2); [reflexivity|].
    rewrite (Z.div_mod hex_len 2) at 2 by lia. rewrite Hodd.
    replace (2 * (hex_len / 2) + 1 - 1) with ((hex_len / 2) * 2) by lia.
    rewrite Z.div_mul by lia. reflexivity.
Qed.

Lemma hex_string_to_bytes_decodes_pairs_witness :
  hex_string_to_bytes (list_byte_of_string "4fA07") 5 (zeroed 4)
  = [x4f; xa0; x00; x00].
Proof.
  destruct (hex_string_to_bytes_decodes_pairs
              (list_byte_of_string "4fA07") (zeroed 4) 5) as (H & _ & _).
  - lia.
  - vm_compute. lia.
  - vm_compute. lia.
  - rewrite H. vm_compute. reflexivity.
Defined.

Lemma generate_random_bytes_loop_spec (rnd : nat -> Z) :
  forall (todo calls i : nat) (buff : list byte),
    (i + todo <= length buff)%nat ->
    Z.of_nat (i + todo) < 2 ^ 32 ->
    generate_random_bytes_loop rnd calls todo (Z.of_nat i) buff
    = take i buff
        ++ map (fun j => byte_of (rnd (calls + j)%nat)) (seq 0 todo)
        ++ drop (i + todo) buff.
Proof.
  induction todo as [|todo IH]; intros calls i buff Hb Hw.
  - cbn [generate_random_bytes_loop seq map app].
    rewrite Nat.add_0_r. symmetry. apply take_drop.
  - cbn [generate_random_bytes_loop].
    rewrite byte_of_low_bits. unfold store. rewrite Nat2Z.id.
    rewrite u32_small by lia.
    replace (Z.of_nat i + 1) with (Z.of_nat (S i)) by lia.
    rewrite store_one by lia.
    set (v := byte_of (rnd calls)).
    set (o1 := take i buff ++ v :: drop (S i) buff).
    assert (Hsplit : o1 = (take i buff ++ [v]) ++ drop (S i) buff).
    { unfold o1. rewrite <- app_assoc. reflexivity. }
    rewrite IH by (unfold o1; rewrite ?length_app, ?length_take; simpl;
                   rewrite ?length_drop; lia).
    assert (Ht : take (S i) o1 = take i buff ++ [v]).
    { rewrite Hsplit. apply take_app_length'.
      rewrite length_app, length_take. simpl. lia. }
    assert (Hdr : drop (S i + todo) o1 = drop (i + S todo) buff).
    { rewrite Hsplit.
      rewrite drop_app_ge by (rewrite length_app, length_take; simpl; lia).
      rewrite length_app, length_take. simpl.
      rewrite drop_drop. f_equal. lia. }
    rewrite Ht, Hdr. cbn [seq map].
    rewrite <- seq_shift, map_map.
    rewrite Nat.add_0_r. fold v. rewrite <- !app_assoc. cbn [app].
    f_equal. f_equal. f_equal.
    apply map_ext. intros j. f_equal. f_equal. lia.
Qed.

(** X4: [generate_random_bytes] overwrites exactly the first [size] bytes
    of the buffer, byte [j] with the low eight bits of the [j]-th value the
    random helper returns during the call; it draws [size] values, keeps the
    length of the buffer and leaves the bytes from index [size] on
    unchanged. *)
Theorem generate_random_bytes_fills_prefix
    (rnd : nat -> Z) (calls : nat) (buff : list byte) (size : Z) :
  0 <= size < 2 ^ 32 ->
  (Z.to_nat size <= length buff)%nat ->
  generate_random_bytes rnd calls buff size
  = map (fun j => byte_of (rnd (calls + j)%nat)) (seq 0 (Z.to_nat size))
      ++ drop (Z.to_nat size) buff
  /\ length (generate_random_bytes rnd calls buff size) = length buff
  /\ (forall j, (j < Z.to_nat size)%nat ->
        byte_val (nth j (generate_random_bytes rnd calls buff size) x00)
        = rnd (calls + j)%nat mod 256).
Proof.
  intros Hsize Hbuff.
  assert (Heq : generate_random_bytes rnd calls buff size
                = map (fun j => byte_of (rnd (calls + j)%nat))
                    (seq 0 (Z.to_nat size))
                    ++ drop (Z.to_nat size) buff).
  { unfold generate_random_bytes. change 0 with (Z.of_nat 0).
    rewrite generate_random_bytes_loop_spec by lia.
    cbn [take app Nat.add]. reflexivity. }
  split; [exact Heq|]. split.
  - rewrite Heq, length_app, length_map, length_seq, length_drop. lia.
  - intros j Hj. rewrite Heq.
    set (f := fun j => byte_of (rnd (calls + j)%nat)).
    rewrite app_nth1 by (rewrite length_map, length_seq; exact Hj).
    rewrite (nth_indep _ x00 (f O))
      by (rewrite length_map, length_seq; exact Hj).
    rewrite (map_nth f), seq_nth by exact Hj.
    unfold f. cbn [Nat.add]. apply byte_val_byte_of.
Qed.

Lemma generate_random_bytes_fills_prefix_witness :
  length (generate_random_bytes sample_prandom 0 (zeroed 20) 16) = 20%nat
  /\ drop 16 (generate_random_bytes sample_prandom 0 (zeroed 20) 16) = zeroed 4.
Proof.
  destruct (generate_random_bytes_fills_prefix sample_prandom 0 (zeroed 20) 16)
    as (Heq & Hlen & _); [lia | vm_compute; lia |].
  split.
  - rewrite Hlen. reflexivity.
  - rewrite Heq. vm_compute. reflexivity.
Defined.

(* ===================================================================== *)
(** ** Argument access *)
(* ===================================================================== *)

Lemma arg_reg_range (ctx : pt_regs) (n : nat) : 0 <= arg_reg ctx n < 2 ^ 64.
Proof. unfold arg_reg. apply u64_range. Qed.

Lemma get_argument_x86_64_cases (ctx : pt_regs) (pos : Z) :
  (1 <= pos <= 6 /\ get_argument x86_64 ctx pos = arg_reg ctx (Z.to_nat (pos - 1)))
  \/ ((pos < 1 \/ 6 < pos) /\ get_argument x86_64 ctx pos = 0).
Proof.
  destruct pos as [|p|p]; [right; split; [lia|reflexivity] | |
                           right; split; [lia|reflexivity]].
  do 3 (try destruct p as [p|p|]);
    first [left; split; [lia | reflexivity]
          | right; split; [lia | reflexivity]].
Qed.

Lemma get_argument_aarch64_cases (ctx : pt_regs) (pos : Z) :
  (1 <= pos <= 8 /\ get_argument aarch64 ctx pos = arg_reg ctx (Z.to_nat (pos - 1)))
  \/ ((pos < 1 \/ 8 < pos) /\ get_argument aarch64 ctx pos = 0).
Proof.
  destruct pos as [|p|p]; [right; split; [lia|reflexivity] | |
                           right; split; [lia|reflexivity]].
  do 4 (try destruct p as [p|p|]);
    first [left; split; [lia | reflexivity]
          | right; split; [lia | reflexivity]].
Qed.

(** X5: [get_argument] returns the register of the calling convention for
    positions 1 to 6 on x86-64 and 1 to 8 on aarch64 (the position counts
    from 1), and the null pointer for every other position, also a
    non-positive one; on positions 1 to 6 both architectures read the same
    slot of the convention; [get_argument_system_v] of [rust_context.h] is
    the x86-64 table; and the result is always a 64-bit value. *)
Theorem get_argument_maps_positions :
  (forall a ctx pos,
      1 <= pos <= max_reg_args a ->
      get_argument a ctx pos = arg_reg ctx (Z.to_nat (pos - 1)))
  /\ (forall a ctx pos,
        pos < 1 \/ max_reg_args a < pos -> get_argument a ctx pos = 0)
  /\ (forall ctx pos,
        1 <= pos <= 6 ->
        get_argument x86_64 ctx pos = get_argument aarch64 ctx pos)
  /\ (forall ctx pos, get_argument_system_v ctx pos = get_argument x86_64 ctx pos)
  /\ (forall a ctx pos, 0 <= get_argument a ctx pos < 2 ^ 64).
Proof.
  split; [|split; [|split; [|split]]].
  - intros [] ctx pos Hpos; cbn [max_reg_args] in Hpos.
    + destruct (get_argument_x86_64_cases ctx pos) as [[_ H]|[H _]];
        [exact H | lia].
    + destruct (get_argument_aarch64_cases ctx pos) as [[_ H]|[H _]];
        [exact H | lia].
  - intros [] ctx pos Hpos; cbn [max_reg_args] in Hpos.
    + destruct (get_argument_x86_64_cases ctx pos) as [[H _]|[_ H]];
        [lia | exact H].
    + destruct (get_argument_aarch64_cases ctx pos) as [[H _]|[_ H]];
        [lia | exact H].
  - intros ctx pos Hpos.
    destruct (get_argument_x86_64_cases ctx pos) as [[_ H]|[H _]]; [|lia].
    destruct (get_argument_aarch64_cases ctx pos) as [[_ H']|[H' _]]; [|lia].
    congruence.
  - intros ctx pos. reflexivity.
  - intros [] ctx pos.
    + destruct (get_argument_x86_64_cases ctx pos) as [[_ ->]|[_ ->]];
        [apply arg_reg_range | lia].
    + destruct (get_argument_aarch64_cases ctx pos) as [[_ ->]|[_ ->]];
        [apply arg_reg_range | lia].
Qed.

Lemma get_argument_maps_positions_witness :
  get_argument x86_64 (ctx (sample_env 0xAA 1000)) 7 = 0
  /\ get_argument aarch64 (ctx (sample_env 0xAA 1000)) 1
     = arg_reg (ctx (sample_env 0xAA 1000)) (Z.to_nat (1 - 1)).
Proof.
  destruct get_argument_maps_positions as (Hin & Hout & _).
  split.
  - apply Hout. right. cbn. lia.
  - apply Hin. cbn. lia.
Defined.

(** X6: for a position whose byte offset [pos * 8] fits an [int],
    [get_argument_by_stack] returns the little-endian 64-bit value stored at
    [sp + 8 * pos]: when those eight bytes hold the value [v] it returns
    [v]; when one of them cannot be read it returns the null pointer; and
    its result is always a 64-bit value. *)
Theorem get_argument_by_stack_reads_slot (m : memory) (ctx : pt_regs) (pos : Z) :
  - 2 ^ 28 <= pos < 2 ^ 28 ->
  (forall v,
      0 <= v < 2 ^ 64 ->
      probe_read_bytes m (u64 (PT_REGS_SP ctx + pos * 8)) 8 = Some (le_bytes 8 v) ->
      get_argument_by_stack m ctx pos = v)
  /\ (probe_read_bytes m (u64 (PT_REGS_SP ctx + pos * 8)) 8 = None ->
      get_argument_by_stack m ctx pos = 0)
  /\ 0 <= get_argument_by_stack m ctx pos < 2 ^ 64.
Proof.
  intros _. split; [|split].
  - intros v Hv Hread.
    unfold get_argument_by_stack, bpf_probe_read_u64, bpf_probe_read.
    cbv zeta. change (Z.to_nat 8) with 8%nat. rewrite Hread.
    change (drop 8 (le_bytes 8 0)) with (@nil byte).
    rewrite app_nil_r, le_val_le_bytes.
    change (256 ^ Z.of_nat 8) with (2 ^ 64). apply Z.mod_small. exact Hv.
  - intros Hread.
    unfold get_argument_by_stack, bpf_probe_read_u64, bpf_probe_read.
    cbv zeta. change (Z.to_nat 8) with 8%nat. rewrite Hread. reflexivity.
  - apply bpf_probe_read_u64_range.
Qed.

Lemma get_argument_by_stack_reads_slot_witness :
  get_argument_by_stack (sample_mem 0xAA) (ctx (sample_env 0xAA 1000)) 1 = 0xAA
  /\ get_argument_by_stack (mem_of []) (ctx (sample_env_unreadable 1000)) 1 = 0.
Proof.
  split.
  - destruct (get_argument_by_stack_reads_slot
                (sample_mem 0xAA) (ctx (sample_env 0xAA 1000)) 1) as (Hval & _);
      [lia|].
    apply Hval; [lia | vm_compute; reflexivity].
  - destruct (get_argument_by_stack_reads_slot
                (mem_of []) (ctx (sample_env_unreadable 1000)) 1) as (_ & Hnull & _);
      [lia|].
    apply Hnull. vm_compute. reflexivity.
Defined.

(** X7: a probe whose identity key is the null pointer returns 0 and leaves
    every map and the emission channel as they were; this is what happens
    to a return probe when the stack slot holding the key cannot be read.
    It holds for all four hyper probes and all four tonic probes. *)
Theorem null_or_unreadable_key_skips :
  (forall bld ro p e s,
      hyper_identity bld p e = 0 -> Hyper.fire bld ro p e s = (0, s))
  /\ (forall bld ro p e s,
        tonic_identity bld p e = 0 -> Tonic.fire bld ro p e s = (0, s))
  /\ (forall bld ro e s,
        probe_read_bytes (user_mem e) (u64 (PT_REGS_SP (ctx e) + 1 * 8)) 8 = None ->
        Hyper.fire bld ro Hyper.serve_connection_return e s = (0, s))
  /\ (forall bld ro p e s,
        tonic_is_return p = true ->
        probe_read_bytes (user_mem e) (u64 (PT_REGS_SP (ctx e) + 1 * 8)) 8 = None ->
        Tonic.fire bld ro p e s = (0, s)).
Proof.
  assert (Hnull : forall m c,
             probe_read_bytes m (u64 (PT_REGS_SP c + 1 * 8)) 8 = None ->
             get_argument_by_stack m c 1 = 0).
  { intros m c Hread.
    unfold get_argument_by_stack, bpf_probe_read_u64, bpf_probe_read.
    cbv zeta. change (Z.to_nat 8) with 8%nat. rewrite Hread. reflexivity. }
  split; [|split; [|split]].
  - apply hyper_null_identity_skips.
  - apply tonic_null_identity_skips.
  - intros bld ro e s Hread. apply hyper_null_identity_skips.
    cbn [hyper_identity]. apply Hnull. exact Hread.
  - intros bld ro p e s Hp Hread. apply tonic_null_identity_skips.
    destruct p; try discriminate Hp; cbn [tonic_identity];
      apply Hnull; exact Hread.
Qed.

Lemma null_or_unreadable_key_skips_witness :
  Hyper.fire sample_build sample_hyper_rodata Hyper.serve_connection_return
    (sample_env_unreadable 5000)
    (Hyper.step sample_build sample_hyper_rodata Hyper.init
       (Hyper.serve_connection, sample_env 0xAA 1000))
  = (0, Hyper.step sample_build sample_hyper_rodata Hyper.init
          (Hyper.serve_connection, sample_env 0xAA 1000))
  /\ Tonic.fire sample_build sample_tonic_rodata Tonic.client_call
       (sample_env_unreadable 5000) Tonic.init = (0, Tonic.init).
Proof.
  destruct null_or_unreadable_key_skips as (_ & Ht & Hh & _).
  split.
  - apply Hh. vm_compute. reflexivity.
  - apply Ht. vm_compute. reflexivity.
Defined.

(* ===================================================================== *)
(** ** Key reuse and key isolation *)
(* ===================================================================== *)

(** X8: an entry probe fired for a key that is already in the correlation
    table replaces the record under that key by the freshly opened one (the
    earlier record is lost without being emitted); the number of entries
    does not change, so this succeeds on a full table too, and nothing is
    emitted.  When the key is also in [spans_in_progress] its span context
    is replaced in the same firing.  This holds for the hyper entry probe
    and for both tonic entry probes. *)
Theorem entry_on_present_key_overwrites :
  (forall bld ro s e r_old,
      hyper_identity bld Hyper.serve_connection e <> 0 ->
      Hyper.context_to_http_events s
        !! hyper_identity bld Hyper.serve_connection e = Some r_old ->
      Hyper.context_to_http_events (Hyper.step bld ro s (Hyper.serve_connection, e))
      = <[hyper_identity bld Hyper.serve_connection e := hyper_opened e]>
          (Hyper.context_to_http_events s)
      /\ size (Hyper.context_to_http_events
                 (Hyper.step bld ro s (Hyper.serve_connection, e)))
         = size (Hyper.context_to_http_events s)
      /\ Hyper.events (Hyper.step bld ro s (Hyper.serve_connection, e))
         = Hyper.events s
      /\ (is_Some (Hyper.spans_in_progress s
                     !! hyper_identity bld Hyper.serve_connection e) ->
          Hyper.spans_in_progress (Hyper.step bld ro s (Hyper.serve_connection, e))
          = <[hyper_identity bld Hyper.serve_connection e
                := generate_span_context e]> (Hyper.spans_in_progress s)))
  /\ (forall bld ro p s e r_old,
        tonic_is_entry p = true ->
        tonic_identity bld p e <> 0 ->
        Tonic.context_to_grpc_events s !! tonic_identity bld p e = Some r_old ->
        Tonic.context_to_grpc_events (Tonic.step bld ro s (p, e))
        = <[tonic_identity bld p e := tonic_entry_record ro bld p e]>
            (Tonic.context_to_grpc_events s)
        /\ size (Tonic.context_to_grpc_events (Tonic.step bld ro s (p, e)))
           = size (Tonic.context_to_grpc_events s)
        /\ Tonic.grpc_events (Tonic.step bld ro s (p, e)) = Tonic.grpc_events s
        /\ (is_Some (Tonic.spans_in_progress s !! tonic_identity bld p e) ->
            Tonic.spans_in_progress (Tonic.step bld ro s (p, e))
            = <[tonic_identity bld p e := generate_span_context e]>
                (Tonic.spans_in_progress s))).
Proof.
  split.
  - intros bld ro s e r_old Hk Hr.
    rewrite (hyper_entry_step bld ro s e Hk).
    cbn [Hyper.context_to_http_events Hyper.events Hyper.spans_in_progress].
    rewrite bpf_map_update_elem_present by eauto.
    split; [reflexivity|]. split; [apply map_size_insert_Some; eauto|].
    split; [reflexivity|].
    intros Hs. apply bpf_map_update_elem_present. exact Hs.
  - intros bld ro p s e r_old Hp Hk Hr.
    rewrite (tonic_entry_step bld ro p s e Hp Hk).
    cbn [Tonic.context_to_grpc_events Tonic.grpc_events Tonic.spans_in_progress].
    rewrite bpf_map_update_elem_present by eauto.
    split; [reflexivity|]. split; [apply map_size_insert_Some; eauto|].
    split; [reflexivity|].
    intros Hs. apply bpf_map_update_elem_present. exact Hs.
Qed.

Lemma entry_on_present_key_overwrites_witness :
  size (Hyper.context_to_http_events
          (Hyper.step sample_build sample_hyper_rodata sample_hyper_full
             (Hyper.serve_connection, sample_env 7 9000)))
  = size (Hyper.context_to_http_events sample_hyper_full)
  /\ Hyper.context_to_http_events
       (Hyper.step sample_build sample_hyper_rodata sample_hyper_full
          (Hyper.serve_connection, sample_env 7 9000))
       !! 7 = Some (hyper_opened (sample_env 7 9000)).
Proof.
  destruct (proj1 entry_on_present_key_overwrites
              sample_build sample_hyper_rodata sample_hyper_full
              (sample_env 7 9000) (hyper_opened (sample_env 7 1000)))
    as (Ht & Hsz & _).
  - vm_compute. discriminate.
  - vm_compute. reflexivity.
  - split; [exact Hsz|]. rewrite Ht. apply lookup_insert_eq.
Defined.

Lemma hyper_other_key_step (bld : build) (ro : Hyper.rodata) (k : Z)
    (s : Hyper.maps) (p : Hyper.probe) (e : env) :
  hyper_identity bld p e <> k ->
  Hyper.context_to_http_events (Hyper.step bld ro s (p, e)) !! k
  = Hyper.context_to_http_events s !! k
  /\ Hyper.spans_in_progress (Hyper.step bld ro s (p, e)) !! k
     = Hyper.spans_in_progress s !! k.
Proof.
  intros Hne.
  destruct (hyper_step_effect bld ro p e s)
    as [Heq | _ _ Ht Hs _ | r0 r1 _ _ _ Ht Hs _ | r0 _ _ Ht Hs _].
  - rewrite Heq. split; reflexivity.
  - rewrite Ht, Hs. split; apply bpf_map_update_elem_lookup_ne; exact Hne.
  - rewrite Ht, Hs. split; [apply lookup_insert_ne; exact Hne | reflexivity].
  - rewrite Ht, Hs. split; apply lookup_delete_ne; exact Hne.
Qed.

Lemma tonic_other_key_span_step (bld : build) (ro : Tonic.rodata) (k : Z)
    (s : Tonic.maps) (p : Tonic.probe) (e : env) :
  tonic_identity bld p e <> k ->
  Tonic.spans_in_progress (Tonic.step bld ro s (p, e)) !! k
  = Tonic.spans_in_progress s !! k.
Proof.
  intros Hne.
  destruct (tonic_step_effect bld ro p e s)
    as [Heq | _ _ _ Hs _ | r0 _ _ _ Hs _].
  - rewrite Heq. reflexivity.
  - rewrite Hs. apply bpf_map_update_elem_lookup_ne. exact Hne.
  - rewrite Hs. apply lookup_delete_ne. exact Hne.
Qed.

(** X9: a firing touches only its own key: for every key other than the
    identity key of the probe, the record in the correlation table and the
    span context in [spans_in_progress] are the same before and after the
    firing (present with the same value, or absent).  This holds for every
    hyper probe and every tonic probe, whether or not the table is full. *)
Theorem firing_leaves_other_keys_alone :
  (forall bld ro s p e k,
      hyper_identity bld p e <> k ->
      Hyper.context_to_http_events (Hyper.step bld ro s (p, e)) !! k
      = Hyper.context_to_http_events s !! k
      /\ Hyper.spans_in_progress (Hyper.step bld ro s (p, e)) !! k
         = Hyper.spans_in_progress s !! k)
  /\ (forall bld ro s p e k,
        tonic_identity bld p e <> k ->
        Tonic.context_to_grpc_events (Tonic.step bld ro s (p, e)) !! k
        = Tonic.context_to_grpc_events s !! k
        /\ Tonic.spans_in_progress (Tonic.step bld ro s (p, e)) !! k
           = Tonic.spans_in_progress s !! k).
Proof.
  split.
  - intros bld ro s p e k Hne. apply hyper_other_key_step. exact Hne.
  - intros bld ro s p e k Hne. split.
    + apply (tonic_other_key_step bld ro k s (p, e)). exact Hne.
    + apply tonic_other_key_span_step. exact Hne.
Qed.

Lemma firing_leaves_other_keys_alone_witness :
  Hyper.context_to_http_events
    (Hyper.step sample_build sample_hyper_rodata sample_hyper_full
       (Hyper.serve_connection_return, sample_env 7 9000)) !! 8
  = Hyper.context_to_http_events sample_hyper_full !! 8.
Proof.
  apply (proj1 firing_leaves_other_keys_alone).
  vm_compute. discriminate.
Defined.

(* ===================================================================== *)
(** ** The enrichment probes as in-place updates *)
(* ===================================================================== *)

Lemma insert_as_alter {V : Type} (f : V -> V) (m : gmap Z V) (k : Z) (x : V) :
  m !! k = Some x -> <[k := f x]> m = alter f k m.
Proof.
  intros Hx. apply map_eq. intros j.
  rewrite lookup_insert, lookup_alter. case_decide.
  - subst j. rewrite Hx. reflexivity.
  - reflexivity.
Qed.

Lemma alter_alter_comm {V : Type} (f g : V -> V) (m : gmap Z V) (i j : Z) :
  (forall x, f (g x) = g (f x)) ->
  alter f i (alter g j m) = alter g j (alter f i m).
Proof.
  intros Hfg. apply map_eq. intros k.
  destruct (decide (i = k)) as [->|Hi]; destruct (decide (j = k)) as [->|Hj].
  - rewrite !lookup_alter_eq. destruct (m !! k); cbn; [|reflexivity].
    f_equal. apply Hfg.
  - rewrite lookup_alter_eq, !(lookup_alter_ne g) by exact Hj.
    rewrite lookup_alter_eq. reflexivity.
  - rewrite (lookup_alter_ne f) by exact Hi. rewrite !lookup_alter_eq.
    rewrite (lookup_alter_ne f) by exact Hi. reflexivity.
  - rewrite !lookup_alter_ne by assumption. reflexivity.
Qed.

Lemma hyper_with_same_table (s : Hyper.maps) :
  Hyper.with_context_to_http_events (Hyper.context_to_http_events s) s = s.
Proof. destruct s. reflexivity. Qed.

Lemma hyper_method_step (bld : build) (ro : Hyper.rodata) (s : Hyper.maps) (e : env) :
  let k := get_argument (target bld) (ctx e) 1 in
  Hyper.step bld ro s (Hyper.request_method, e)
  = if (k =? 0)
       || (bpf_probe_read_u64 0 (user_mem e) (u64 (k + Hyper.method_ptr_pos ro))
           =? 0)
    then s
    else Hyper.with_context_to_http_events
           (alter (hyper_method_update ro k e) k (Hyper.context_to_http_events s)) s.
Proof.
  cbv zeta. unfold Hyper.step. cbn [fst snd Hyper.fire].
  rewrite uprobe_hyper_request_method_eq. cbv zeta.
  destruct (_ =? 0); [reflexivity|]. destruct (_ =? 0); [reflexivity|].
  cbn [orb].
  destruct (Hyper.context_to_http_events s !! _) as [r|] eqn:Hr; cbn [snd].
  - unfold Hyper.with_context_to_http_events. f_equal.
    apply (insert_as_alter (hyper_method_update ro _ e)). exact Hr.
  - rewrite alter_id' by exact Hr. symmetry. apply hyper_with_same_table.
Qed.

Lemma hyper_uri_step (bld : build) (ro : Hyper.rodata) (s : Hyper.maps) (e : env) :
  let k := get_argument (target bld) (ctx e) 1 in
  Hyper.step bld ro s (Hyper.request_uri, e)
  = if (k =? 0)
       || (bpf_probe_read_u64 0 (user_mem e) (u64 (k + Hyper.uri_ptr_pos ro))
           =? 0)
    then s
    else Hyper.with_context_to_http_events
           (alter (hyper_path_update ro k e) k (Hyper.context_to_http_events s)) s.
Proof.
  cbv zeta. unfold Hyper.step. cbn [fst snd Hyper.fire].
  rewrite uprobe_hyper_request_uri_eq. cbv zeta.
  destruct (_ =? 0); [reflexivity|]. destruct (_ =? 0); [reflexivity|].
  cbn [orb].
  destruct (Hyper.context_to_http_events s !! _) as [r|] eqn:Hr; cbn [snd].
  - unfold Hyper.with_context_to_http_events. f_equal.
    apply (insert_as_alter (hyper_path_update ro _ e)). exact Hr.
  - rewrite alter_id' by exact Hr. symmetry. apply hyper_with_same_table.
Qed.

Lemma hyper_updates_commute (ro : Hyper.rodata) (k1 k2 : Z) (e1 e2 : env)
    (r : Hyper.http_request_t) :
  hyper_method_update ro k1 e1 (hyper_path_update ro k2 e2 r)
  = hyper_path_update ro k2 e2 (hyper_method_update ro k1 e1 r).
Proof. reflexivity. Qed.

(** X10: the method enrichment writes only the method field and the URI
    enrichment only the path field.  After either firing the span index and
    the emission channel are unchanged, the table holds the same keys, and
    each record agrees with the record under the same key before in start
    and end timestamp, status code, span context and the other text field;
    a record under a key other than the probe's key is unchanged. *)
Theorem enrichment_writes_one_text_field :
  forall bld ro s p e,
    p = Hyper.request_method \/ p = Hyper.request_uri ->
    Hyper.spans_in_progress (Hyper.step bld ro s (p, e)) = Hyper.spans_in_progress s
    /\ Hyper.events (Hyper.step bld ro s (p, e)) = Hyper.events s
    /\ (forall k, Hyper.context_to_http_events (Hyper.step bld ro s (p, e)) !! k = None
                  <-> Hyper.context_to_http_events s !! k = None)
    /\ (forall k r',
          Hyper.context_to_http_events (Hyper.step bld ro s (p, e)) !! k = Some r' ->
          exists r,
            Hyper.context_to_http_events s !! k = Some r
            /\ Hyper.start_time r' = Hyper.start_time r
            /\ Hyper.end_time r' = Hyper.end_time r
            /\ Hyper.status_code r' = Hyper.status_code r
            /\ Hyper.sc r' = Hyper.sc r
            /\ (p = Hyper.request_method -> Hyper.path r' = Hyper.path r)
            /\ (p = Hyper.request_uri -> Hyper.method r' = Hyper.method r)
            /\ (hyper_identity bld p e <> k -> r' = r)).
Proof.
  intros bld ro s p e Hp.
  assert (Hstep :
            Hyper.step bld ro s (p, e) = s
            \/ exists f,
                 Hyper.step bld ro s (p, e)
                 = Hyper.with_context_to_http_events
                     (alter f (hyper_identity bld p e)
                        (Hyper.context_to_http_events s)) s
                 /\ forall r,
                      Hyper.start_time (f r) = Hyper.start_time r
                      /\ Hyper.end_time (f r) = Hyper.end_time r
                      /\ Hyper.status_code (f r) = Hyper.status_code r
                      /\ Hyper.sc (f r) = Hyper.sc r
                      /\ (p = Hyper.request_method -> Hyper.path (f r) = Hyper.path r)
                      /\ (p = Hyper.request_uri -> Hyper.method (f r) = Hyper.method r)).
  { destruct Hp as [-> | ->]; cbn [hyper_identity].
    - rewrite hyper_method_step. cbv zeta.
      destruct (_ || _); [left; reflexivity|].
      right. eexists. split; [reflexivity|].
      intros r. repeat split. intros [=].
    - rewrite hyper_uri_step. cbv zeta.
      destruct (_ || _); [left; reflexivity|].
      right. eexists. split; [reflexivity|].
      intros r. repeat split. intros [=]. }
  destruct Hstep as [-> | (f & -> & Hf)].
  - split; [reflexivity|]. split; [reflexivity|]. split; [tauto|].
    intros k r' Hr'. exists r'. repeat split; trivial.
  - cbn [Hyper.with_context_to_http_events Hyper.spans_in_progress Hyper.events
         Hyper.context_to_http_events].
    split; [reflexivity|]. split; [reflexivity|]. split.
    + intros k. rewrite lookup_alter. case_decide; [|tauto].
      subst k. destruct (Hyper.context_to_http_events s !! _); cbn;
        split; congruence.
    + intros k r'. rewrite lookup_alter. case_decide.
      * subst k.
        destruct (Hyper.context_to_http_events s !! hyper_identity bld p e)
          as [r|]; cbn; [|discriminate].
        intros [= <-]. exists r.
        destruct (Hf r) as (H1 & H2 & H3 & H4 & H5 & H6).
        repeat split; trivial. congruence.
      * intros Hr. exists r'. repeat split; trivial.
Qed.

Lemma enrichment_writes_one_text_field_witness :
  Hyper.events
    (Hyper.step sample_build sample_hyper_rodata
       (Hyper.step sample_build sample_hyper_rodata Hyper.init
          (Hyper.serve_connection, sample_env 0xAA 1000))
       (Hyper.request_uri, sample_env 0xAA 1200))
  = Hyper.events
      (Hyper.step sample_build sample_hyper_rodata Hyper.init
         (Hyper.serve_connection, sample_env 0xAA 1000)).
Proof.
  apply (enrichment_writes_one_text_field sample_build sample_hyper_rodata
           _ Hyper.request_uri (sample_env 0xAA 1200)).
  right. reflexivity.
Defined.

(** X11: a method enrichment and a URI enrichment can fire in either order:
    for any two invocations, on the same key or on different keys, firing
    the method probe and then the URI probe leaves exactly the same maps as
    firing the URI probe and then the method probe. *)
Theorem method_and_uri_enrichment_commute
    (bld : build) (ro : Hyper.rodata) (s : Hyper.maps) (e1 e2 : env) :
  Hyper.step bld ro (Hyper.step bld ro s (Hyper.request_method, e1))
    (Hyper.request_uri, e2)
  = Hyper.step bld ro (Hyper.step bld ro s (Hyper.request_uri, e2))
      (Hyper.request_method, e1).
Proof.
  rewrite (hyper_uri_step bld ro (Hyper.step bld ro s (Hyper.request_method, e1))).
  rewrite (hyper_method_step bld ro (Hyper.step bld ro s (Hyper.request_uri, e2))).
  rewrite (hyper_method_step bld ro s), (hyper_uri_step bld ro s).
  cbv zeta.
  destruct (_ || _); destruct (_ || _); try reflexivity.
  unfold Hyper.with_context_to_http_events.
  cbn [Hyper.context_to_http_events Hyper.spans_in_progress Hyper.events].
  f_equal. apply alter_alter_comm. intros r. symmetry.
  apply hyper_updates_commute.
Qed.

Lemma bpf_probe_read_nothing (dst : list byte) (m : memory) (ptr : Z) :
  bpf_probe_read dst 0 m ptr = dst.
Proof. reflexivity. Qed.

(** X12: an enrichment whose source reports length zero copies nothing:
    the method probe with a reported method length of 0, and the URI probe
    with a reported path length of 0, leave every map exactly as it was
    (a length that cannot be read counts as 0). *)
Theorem zero_length_enrichment_changes_nothing :
  (forall bld ro s e,
      bpf_probe_read_u64 0 (user_mem e)
        (u64 (get_argument (target bld) (ctx e) 1 + Hyper.method_ptr_pos ro + 8)) = 0 ->
      Hyper.step bld ro s (Hyper.request_method, e) = s)
  /\ (forall bld ro s e,
        bpf_probe_read_u64 0 (user_mem e)
          (u64 (bpf_probe_read_u64 0 (user_mem e)
                  (u64 (get_argument (target bld) (ctx e) 1 + Hyper.uri_ptr_pos ro))
                + Hyper.path_ptr_pos ro + 8)) = 0 ->
        Hyper.step bld ro s (Hyper.request_uri, e) = s).
Proof.
  split.
  - intros bld ro s e Hlen. rewrite hyper_method_step. cbv zeta.
    destruct (_ || _); [reflexivity|].
    rewrite alter_id; [apply hyper_with_same_table|].
    intros r _. unfold hyper_method_update. cbv zeta. rewrite Hlen.
    change (if MAX_METHOD_SIZE <? 0 then MAX_METHOD_SIZE else 0) with 0.
    rewrite bpf_probe_read_nothing. destruct r. reflexivity.
  - intros bld ro s e Hlen. rewrite hyper_uri_step. cbv zeta.
    destruct (_ || _); [reflexivity|].
    rewrite alter_id; [apply hyper_with_same_table|].
    intros r _. unfold hyper_path_update. cbv zeta. rewrite Hlen.
    change (if MAX_PATH_SIZE <? 0 then MAX_PATH_SIZE else 0) with 0.
    rewrite bpf_probe_read_nothing. destruct r. reflexivity.
Qed.

Lemma zero_length_enrichment_changes_nothing_witness :
  Hyper.step sample_build sample_hyper_rodata
    (Hyper.step sample_build sample_hyper_rodata Hyper.init
       (Hyper.serve_connection, sample_env 0xAA 1000))
    (Hyper.request_method, sample_env_method 0xAA 1100 "")
  = Hyper.step sample_build sample_hyper_rodata Hyper.init
      (Hyper.serve_connection, sample_env 0xAA 1000).
Proof.
  apply (proj1 zero_length_enrichment_changes_nothing).
  vm_compute. reflexivity.
Defined.

(* ===================================================================== *)
(** ** Repeated and failing extractions *)
(* ===================================================================== *)

Lemma clamped_read_whole (cap : Z) (dst source : list byte) (m : memory) (ptr : Z) :
  length dst = Z.to_nat cap ->
  probe_read_bytes m ptr (length source) = Some source ->
  Z.of_nat (length source) <= cap ->
  bpf_probe_read dst
    (if cap <? Z.of_nat (length source) then cap else Z.of_nat (length source))
    m ptr
  = source ++ drop (length source) dst.
Proof.
  intros Hdst Hsrc Hfit.
  destruct (clamped_read cap (Z.of_nat (length source)) dst source m ptr Hdst Hsrc)
    as (Heq & _); [lia|].
  cbv zeta in Heq. rewrite Heq.
  replace (Z.to_nat (Z.min cap (Z.of_nat (length source)))) with (length source)
    by lia.
  rewrite take_ge by lia. reflexivity.
Qed.

(** X13: a later, shorter method does not erase a longer earlier one.  When
    the method probe fires twice for the same record, first with a readable
    source of [n1 <= 16] bytes and then with one of [n2 <= n1] bytes, the
    method field is the second source followed by the bytes of the first
    source from index [n2] on and by what the field held from index [n1]
    on. *)
Theorem shorter_method_leaves_earlier_tail
    (bld : build) (ro : Hyper.rodata) (s : Hyper.maps) (e1 e2 : env)
    (r : Hyper.http_request_t) (src1 src2 : list byte) :
  let k := get_argument (target bld) (ctx e1) 1 in
  let ptr1 := bpf_probe_read_u64 0 (user_mem e1) (u64 (k + Hyper.method_ptr_pos ro)) in
  let ptr2 := bpf_probe_read_u64 0 (user_mem e2) (u64 (k + Hyper.method_ptr_pos ro)) in
  get_argument (target bld) (ctx e2) 1 = k ->
  k <> 0 -> ptr1 <> 0 -> ptr2 <> 0 ->
  Hyper.context_to_http_events s !! k = Some r ->
  length (Hyper.method r) = Z.to_nat MAX_METHOD_SIZE ->
  bpf_probe_read_u64 0 (user_mem e1) (u64 (k + Hyper.method_ptr_pos ro + 8))
  = Z.of_nat (length src1) ->
  bpf_probe_read_u64 0 (user_mem e2) (u64 (k + Hyper.method_ptr_pos ro + 8))
  = Z.of_nat (length src2) ->
  probe_read_bytes (user_mem e1) ptr1 (length src1) = Some src1 ->
  probe_read_bytes (user_mem e2) ptr2 (length src2) = Some src2 ->
  (length src2 <= length src1)%nat ->
  Z.of_nat (length src1) <= MAX_METHOD_SIZE ->
  exists r2,
    Hyper.context_to_http_events
      (Hyper.step bld ro (Hyper.step bld ro s (Hyper.request_method, e1))
         (Hyper.request_method, e2)) !! k = Some r2
    /\ Hyper.method r2
       = src2 ++ drop (length src2) src1 ++ drop (length src1) (Hyper.method r).
Proof.
  intros k ptr1 ptr2 Hk2 Hk Hp1 Hp2 Hr Hcap Hl1 Hl2 Hs1 Hs2 Hle Hfit.
  rewrite (hyper_method_step bld ro (Hyper.step bld ro s (Hyper.request_method, e1))).
  rewrite (hyper_method_step bld ro s). cbv zeta. rewrite Hk2. fold k.
  fold ptr1. fold ptr2.
  destruct (Z.eqb_spec k 0); [contradiction|].
  destruct (Z.eqb_spec ptr1 0); [contradiction|].
  destruct (Z.eqb_spec ptr2 0); [contradiction|].
  cbn [orb Hyper.with_context_to_http_events Hyper.context_to_http_events].
  rewrite !lookup_alter_eq, Hr. cbn [fmap option_fmap option_map].
  eexists. split; [reflexivity|].
  unfold hyper_method_update. cbv zeta.
  cbn [Hyper.method Hyper.set_method].
  fold ptr1. fold ptr2. rewrite Hl1, Hl2.
  rewrite (clamped_read_whole MAX_METHOD_SIZE (Hyper.method r) src1)
    by assumption.
  rewrite clamped_read_whole.
  - rewrite drop_app_le by exact Hle. reflexivity.
  - rewrite length_app, length_drop, Hcap. lia.
  - exact Hs2.
  - lia.
Qed.

Lemma shorter_method_leaves_earlier_tail_witness :
  exists r2,
    Hyper.context_to_http_events
      (Hyper.step sample_build sample_hyper_rodata
         (Hyper.step sample_build sample_hyper_rodata
            (Hyper.step sample_build sample_hyper_rodata Hyper.init
               (Hyper.serve_connection, sample_env 0xAA 1000))
            (Hyper.request_method, sample_env_method 0xAA 1100 "DELETE"))
         (Hyper.request_method, sample_env_method 0xAA 1200 "GET")) !! 0xAA
    = Some r2
    /\ take 6 (Hyper.method r2) = list_byte_of_string "GETETE".
Proof.
  destruct (shorter_method_leaves_earlier_tail
              sample_build sample_hyper_rodata
              (Hyper.step sample_build sample_hyper_rodata Hyper.init
                 (Hyper.serve_connection, sample_env 0xAA 1000))
              (sample_env_method 0xAA 1100 "DELETE")
              (sample_env_method 0xAA 1200 "GET")
              (hyper_opened (sample_env 0xAA 1000))
              (list_byte_of_string "DELETE") (list_byte_of_string "GET"))
    as (r2 & Hr2 & Hm).
  - vm_compute. reflexivity.
  - vm_compute. discriminate.
  - vm_compute. discriminate.
  - vm_compute. discriminate.
  - vm_compute. reflexivity.
  - vm_compute. reflexivity.
  - vm_compute. reflexivity.
  - vm_compute. reflexivity.
  - vm_compute. reflexivity.
  - vm_compute. reflexivity.
  - vm_compute. lia.
  - vm_compute. discriminate.
  - exists r2. split; [exact Hr2|]. rewrite Hm. vm_compute. reflexivity.
Defined.

(** X14: the URI probe does not test the path pointer.  Once the key and
    the URI pointer are non-null and the record is found, the record is
    written back whatever the path pointer is; when the bytes at the path
    pointer cannot be read (a null path pointer, for one), the first
    [min(256, reported length)] bytes of the path field are zero afterwards,
    the rest of the field and the method field are as before. *)
Theorem unreadable_path_zeroes_clamped_prefix
    (bld : build) (ro : Hyper.rodata) (s : Hyper.maps) (e : env)
    (r : Hyper.http_request_t) :
  let k := get_argument (target bld) (ctx e) 1 in
  let uri := bpf_probe_read_u64 0 (user_mem e) (u64 (k + Hyper.uri_ptr_pos ro)) in
  let ptr := bpf_probe_read_u64 0 (user_mem e) (u64 (uri + Hyper.path_ptr_pos ro)) in
  let len :=
    bpf_probe_read_u64 0 (user_mem e) (u64 (uri + Hyper.path_ptr_pos ro + 8)) in
  k <> 0 -> uri <> 0 ->
  Hyper.context_to_http_events s !! k = Some r ->
  probe_read_bytes (user_mem e) ptr (Z.to_nat (Z.min MAX_PATH_SIZE len)) = None ->
  exists r',
    Hyper.context_to_http_events (Hyper.step bld ro s (Hyper.request_uri, e)) !! k
    = Some r'
    /\ Hyper.path r'
       = replicate (Z.to_nat (Z.min MAX_PATH_SIZE len)) x00
           ++ drop (Z.to_nat (Z.min MAX_PATH_SIZE len)) (Hyper.path r)
    /\ Hyper.method r' = Hyper.method r.
Proof.
  intros k uri ptr len Hk Huri Hr Hfault.
  rewrite (hyper_uri_step bld ro s). cbv zeta. fold k. fold uri.
  destruct (Z.eqb_spec k 0); [contradiction|].
  destruct (Z.eqb_spec uri 0); [contradiction|].
  cbn [orb Hyper.with_context_to_http_events Hyper.context_to_http_events].
  rewrite lookup_alter_eq, Hr. cbn [fmap option_fmap option_map].
  eexists. split; [reflexivity|].
  unfold hyper_path_update. cbv zeta. cbn [Hyper.path Hyper.method Hyper.set_path].
  fold uri. fold ptr. fold len.
  split; [|reflexivity].
  unfold bpf_probe_read. rewrite clamp_is_min, Hfault. reflexivity.
Qed.

Lemma unreadable_path_zeroes_clamped_prefix_witness :
  exists r',
    Hyper.context_to_http_events
      (Hyper.step sample_build sample_hyper_rodata
         (Hyper.step sample_build sample_hyper_rodata
            (Hyper.step sample_build sample_hyper_rodata Hyper.init
               (Hyper.serve_connection, sample_env 0xAA 1000))
            (Hyper.request_uri, sample_env 0xAA 1100))
         (Hyper.request_uri, sample_env_null_path 0xAA 1200)) !! 0xAA
    = Some r'
    /\ take 9 (Hyper.path r') = zeroed 9.
Proof.
  destruct (unreadable_path_zeroes_clamped_prefix
              sample_build sample_hyper_rodata
              (Hyper.step sample_build sample_hyper_rodata
                 (Hyper.step sample_build sample_hyper_rodata Hyper.init
                    (Hyper.serve_connection, sample_env 0xAA 1000))
                 (Hyper.request_uri, sample_env 0xAA 1100))
              (sample_env_null_path 0xAA 1200)
              (hyper_path_update sample_hyper_rodata 0xAA (sample_env 0xAA 1100)
                 (hyper_opened (sample_env 0xAA 1000))))
    as (r' & Hr' & Hp & _).
  - vm_compute. discriminate.
  - vm_compute. discriminate.
  - vm_compute. reflexivity.
  - vm_compute. reflexivity.
  - exists r'. split; [exact Hr'|]. rewrite Hp. vm_compute. reflexivity.
Defined.

(* ===================================================================== *)
(** ** Counting and ordering over whole executions *)
(* ===================================================================== *)

Lemma bpf_map_update_elem_size_step {V : Type} (n : nat) (m : gmap Z V)
    (k : Z) (v : V) :
  (size (snd (bpf_map_update_elem n m k v)) <= S (size m))%nat.
Proof.
  destruct (bpf_map_update_elem_cases n m k v) as [[-> _]|[-> _]]; [|lia].
  rewrite map_size_insert. destruct (m !! k); cbn; lia.
Qed.

Lemma hyper_step_count (bld : build) (ro : Hyper.rodata) (s : Hyper.maps)
    (ev : Hyper.probe * env) :
  (length (Hyper.events (Hyper.step bld ro s ev))
   + size (Hyper.context_to_http_events (Hyper.step bld ro s ev))
   <= length (Hyper.events s) + size (Hyper.context_to_http_events s)
      + (if hyper_is_entry (fst ev) then 1 else 0))%nat.
Proof.
  destruct ev as [p e]. cbn [fst].
  destruct (hyper_step_effect bld ro p e s)
    as [Heq | Hp _ Ht _ He | r0 r1 _ Hr0 _ Ht _ He | r0 Hp Hr0 Ht _ He].
  - rewrite Heq. lia.
  - rewrite Ht, He. subst p. cbn [hyper_is_entry].
    pose proof (bpf_map_update_elem_size_step Hyper.MAX_CONCURRENT
                  (Hyper.context_to_http_events s)
                  (hyper_identity bld Hyper.serve_connection e) (hyper_opened e)).
    lia.
  - rewrite Ht, He, map_size_insert_Some by eauto. lia.
  - rewrite Ht, He, length_app. cbn [length].
    pose proof (map_size_present _ _ _ Hr0). lia.
Qed.

Lemma tonic_step_count (bld : build) (ro : Tonic.rodata) (s : Tonic.maps)
    (ev : Tonic.probe * env) :
  (length (Tonic.grpc_events (Tonic.step bld ro s ev))
   + size (Tonic.context_to_grpc_events (Tonic.step bld ro s ev))
   <= length (Tonic.grpc_events s) + size (Tonic.context_to_grpc_events s)
      + (if tonic_is_entry (fst ev) then 1 else 0))%nat.
Proof.
  destruct ev as [p e]. cbn [fst].
  destruct (tonic_step_effect bld ro p e s)
    as [Heq | Hp _ Ht _ He | r0 Hp Hr0 Ht _ He].
  - rewrite Heq. lia.
  - rewrite Ht, He, Hp.
    pose proof (bpf_map_update_elem_size_step Tonic.MAX_CONCURRENT
                  (Tonic.context_to_grpc_events s)
                  (tonic_identity bld p e) (tonic_entry_record ro bld p e)).
    lia.
  - rewrite Ht, He, length_app. cbn [length].
    pose proof (map_size_present _ _ _ Hr0). lia.
Qed.

Lemma hyper_run_count (bld : build) (ro : Hyper.rodata) :
  forall evs s,
    (length (Hyper.events (Hyper.run bld ro evs s))
     + size (Hyper.context_to_http_events (Hyper.run bld ro evs s))
     <= length (Hyper.events s) + size (Hyper.context_to_http_events s)
        + hyper_entry_count evs)%nat.
Proof.
  induction evs as [|ev evs IH]; intros s.
  - cbn. lia.
  - cbn [Hyper.run fold_left hyper_entry_count].
    pose proof (IH (Hyper.step bld ro s ev)) as H1.
    pose proof (hyper_step_count bld ro s ev) as H2.
    unfold Hyper.run in H1. lia.
Qed.

Lemma tonic_run_count (bld : build) (ro : Tonic.rodata) :
  forall evs s,
    (length (Tonic.grpc_events (Tonic.run bld ro evs s))
     + size (Tonic.context_to_grpc_events (Tonic.run bld ro evs s))
     <= length (Tonic.grpc_events s) + size (Tonic.context_to_grpc_events s)
        + tonic_entry_count evs)%nat.
Proof.
  induction evs as [|ev evs IH]; intros s.
  - cbn. lia.
  - cbn [Tonic.run fold_left tonic_entry_count].
    pose proof (IH (Tonic.step bld ro s ev)) as H1.
    pose proof (tonic_step_count bld ro s ev) as H2.
    unfold Tonic.run in H1. lia.
Qed.

(** X15: records are neither duplicated nor invented.  In every execution
    from empty maps, the number of records emitted so far plus the number
    of records still in the correlation table is at most the number of
    entry-probe firings; so there is at most one emitted record per entry
    firing, for hyper and for tonic. *)
Theorem emitted_and_pending_bounded_by_entries :
  (forall bld ro evs,
      (length (Hyper.events (Hyper.run bld ro evs Hyper.init))
       + size (Hyper.context_to_http_events (Hyper.run bld ro evs Hyper.init))
       <= hyper_entry_count evs)%nat)
  /\ (forall bld ro evs,
        (length (Tonic.grpc_events (Tonic.run bld ro evs Tonic.init))
         + size (Tonic.context_to_grpc_events (Tonic.run bld ro evs Tonic.init))
         <= tonic_entry_count evs)%nat).
Proof.
  split.
  - intros bld ro evs.
    pose proof (hyper_run_count bld ro evs Hyper.init) as H.
    cbn [Hyper.init Hyper.events Hyper.context_to_http_events length] in H.
    rewrite map_size_empty in H. lia.
  - intros bld ro evs.
    pose proof (tonic_run_count bld ro evs Tonic.init) as H.
    cbn [Tonic.init Tonic.grpc_events Tonic.context_to_grpc_events length] in H.
    rewrite map_size_empty in H. lia.
Qed.

Section Ordering.

Variable bld : build.

Lemma hyper_ordered_run (ro : Hyper.rodata) :
  forall evs s t,
    0 <= t ->
    (forall k r, Hyper.context_to_http_events s !! k = Some r ->
                 Hyper.start_time r <= t) ->
    Forall (fun r => Hyper.start_time r <= Hyper.end_time r) (Hyper.events s) ->
    clock_nondecreasing t evs ->
    Forall (fun r => Hyper.start_time r <= Hyper.end_time r)
      (Hyper.events (Hyper.run bld ro evs s)).
Proof.
  induction evs as [|[p e] evs IH]; intros s t Ht Hrec Hev Hclock.
  - exact Hev.
  - cbn [clock_nondecreasing snd] in Hclock. destruct Hclock as [Hnow Hrest].
    cbn [Hyper.run fold_left].
    assert (Hu : bpf_ktime_get_ns e = ktime e)
      by (unfold bpf_ktime_get_ns; apply u64_small; lia).
    apply (IH (Hyper.step bld ro s (p, e)) (ktime e)); [lia | | | exact Hrest].
    + intros k r.
      destruct (hyper_step_effect bld ro p e s)
        as [Heq | _ _ Hm _ _ | r0 r1 _ Hr0 Hsame Hm _ _ | r0 _ Hr0 Hm _ _].
      * rewrite Heq. intros Hr. specialize (Hrec _ _ Hr). lia.
      * rewrite Hm.
        destruct (bpf_map_update_elem_cases Hyper.MAX_CONCURRENT
                    (Hyper.context_to_http_events s)
                    (hyper_identity bld p e) (hyper_opened e))
          as [[-> _]|[-> _]].
        -- rewrite lookup_insert. case_decide.
           ++ intros [= <-]. cbn. lia.
           ++ intros Hr. specialize (Hrec _ _ Hr). lia.
        -- intros Hr. specialize (Hrec _ _ Hr). lia.
      * rewrite Hm, lookup_insert. case_decide.
        -- intros [= <-]. destruct Hsame as (-> & _).
           specialize (Hrec _ _ Hr0). lia.
        -- intros Hr. specialize (Hrec _ _ Hr). lia.
      * rewrite Hm, lookup_delete. case_decide; [discriminate|].
        intros Hr. specialize (Hrec _ _ Hr). lia.
    + destruct (hyper_emission bld ro s p e) as [-> | (_ & r & Hr & _ & ->)];
        [exact Hev|].
      apply Forall_app. split; [exact Hev|].
      constructor; [|constructor]. cbn. specialize (Hrec _ _ Hr). lia.
Qed.

Lemma tonic_ordered_run (ro : Tonic.rodata) :
  forall evs s t,
    0 <= t ->
    (forall k r, Tonic.context_to_grpc_events s !! k = Some r ->
                 Tonic.start_time r <= t) ->
    Forall (fun r => Tonic.start_time r <= Tonic.end_time r) (Tonic.grpc_events s) ->
    clock_nondecreasing t evs ->
    Forall (fun r => Tonic.start_time r <= Tonic.end_time r)
      (Tonic.grpc_events (Tonic.run bld ro evs s)).
Proof.
  induction evs as [|[p e] evs IH]; intros s t Ht Hrec Hev Hclock.
  - exact Hev.
  - cbn [clock_nondecreasing snd] in Hclock. destruct Hclock as [Hnow Hrest].
    cbn [Tonic.run fold_left].
    assert (Hu : bpf_ktime_get_ns e = ktime e)
      by (unfold bpf_ktime_get_ns; apply u64_small; lia).
    apply (IH (Tonic.step bld ro s (p, e)) (ktime e)); [lia | | | exact Hrest].
    + intros k r.
      destruct (tonic_step_effect bld ro p e s)
        as [Heq | _ _ Hm _ _ | r0 _ Hr0 Hm _ _].
      * rewrite Heq. intros Hr. specialize (Hrec _ _ Hr). lia.
      * rewrite Hm.
        destruct (bpf_map_update_elem_cases Tonic.MAX_CONCURRENT
                    (Tonic.context_to_grpc_events s)
                    (tonic_identity bld p e) (tonic_entry_record ro bld p e))
          as [[-> _]|[-> _]].
        -- rewrite lookup_insert. case_decide.
           ++ intros [= <-].
              destruct (tonic_entry_record_fresh bld ro p e) as (-> & _). lia.
           ++ intros Hr. specialize (Hrec _ _ Hr). lia.
        -- intros Hr. specialize (Hrec _ _ Hr). lia.
      * rewrite Hm, lookup_delete. case_decide; [discriminate|].
        intros Hr. specialize (Hrec _ _ Hr). lia.
    + destruct (tonic_emission bld ro s p e) as [-> | (_ & r & Hr & _ & ->)];
        [exact Hev|].
      apply Forall_app. split; [exact Hev|].
      constructor; [|constructor]. cbn. specialize (Hrec _ _ Hr). lia.
Qed.

End Ordering.

(** X16: when the clock readings of an execution are 64-bit values that
    never decrease from one firing to the next, every record emitted in the
    execution has [start_time <= end_time], whatever the interleaving of
    keys, overwrites and failed insertions; for hyper and for tonic. *)
Theorem emitted_timestamps_ordered :
  (forall bld ro evs,
      clock_nondecreasing 0 evs ->
      Forall (fun r => Hyper.start_time r <= Hyper.end_time r)
        (Hyper.events (Hyper.run bld ro evs Hyper.init)))
  /\ (forall bld ro evs,
        clock_nondecreasing 0 evs ->
        Forall (fun r => Tonic.start_time r <= Tonic.end_time r)
          (Tonic.grpc_events (Tonic.run bld ro evs Tonic.init))).
Proof.
  split.
  - intros bld ro evs Hclock.
    apply (hyper_ordered_run bld ro evs Hyper.init 0); [lia | | constructor | exact Hclock].
    intros k r H. cbn in H. rewrite lookup_empty in H. discriminate.
  - intros bld ro evs Hclock.
    apply (tonic_ordered_run bld ro evs Tonic.init 0); [lia | | constructor | exact Hclock].
    intros k r H. cbn in H. rewrite lookup_empty in H. discriminate.
Qed.

Lemma emitted_timestamps_ordered_witness :
  Forall (fun r => Hyper.start_time r <= Hyper.end_time r)
    (Hyper.events
       (Hyper.run sample_build sample_hyper_rodata
          [(Hyper.serve_connection, sample_env 0xAA 1000);
           (Hyper.serve_connection, sample_env 0xAB 1000);
           (Hyper.serve_connection_return, sample_env 0xAB 1000);
           (Hyper.serve_connection_return, sample_env 0xAA 2001000)]
          Hyper.init)).
Proof.
  apply (proj1 emitted_timestamps_ordered).
  cbn [clock_nondecreasing snd ktime sample_env]. repeat split; lia.
Defined.

(* ===================================================================== *)
(** ** The span index when the correlation table is full *)
(* ===================================================================== *)

(** X17: an untracked request still leaves a span context behind.  When the
    correlation table is full and the key is not in it, the entry probe
    nevertheless stores the generated span context under the key in
    [spans_in_progress] whenever that map has room (or already holds the
    key); the matching return probe, finding no record, returns before its
    deletions, so the span context stays in [spans_in_progress] and nothing
    is emitted.  This holds for the hyper pair and for the tonic entry and
    return probes. *)
Theorem untracked_request_leaves_span_behind :
  (forall bld ro s e e_ret,
      hyper_identity bld Hyper.serve_connection e <> 0 ->
      (Hyper.MAX_CONCURRENT <= size (Hyper.context_to_http_events s))%nat ->
      Hyper.context_to_http_events s
        !! hyper_identity bld Hyper.serve_connection e = None ->
      is_Some (Hyper.spans_in_progress s
                 !! hyper_identity bld Hyper.serve_connection e)
      \/ (size (Hyper.spans_in_progress s) < spans_max_entries bld)%nat ->
      hyper_identity bld Hyper.serve_connection_return e_ret
      = hyper_identity bld Hyper.serve_connection e ->
      Hyper.spans_in_progress (Hyper.step bld ro s (Hyper.serve_connection, e))
        !! hyper_identity bld Hyper.serve_connection e
      = Some (generate_span_context e)
      /\ Hyper.step bld ro (Hyper.step bld ro s (Hyper.serve_connection, e))
           (Hyper.serve_connection_return, e_ret)
         = Hyper.step bld ro s (Hyper.serve_connection, e))
  /\ (forall bld ro p p_ret s e e_ret,
        tonic_is_entry p = true ->
        tonic_is_return p_ret = true ->
        tonic_identity bld p e <> 0 ->
        (Tonic.MAX_CONCURRENT <= size (Tonic.context_to_grpc_events s))%nat ->
        Tonic.context_to_grpc_events s !! tonic_identity bld p e = None ->
        is_Some (Tonic.spans_in_progress s !! tonic_identity bld p e)
        \/ (size (Tonic.spans_in_progress s) < spans_max_entries bld)%nat ->
        tonic_identity bld p_ret e_ret = tonic_identity bld p e ->
        Tonic.spans_in_progress (Tonic.step bld ro s (p, e))
          !! tonic_identity bld p e
        = Some (generate_span_context e)
        /\ Tonic.step bld ro (Tonic.step bld ro s (p, e)) (p_ret, e_ret)
           = Tonic.step bld ro s (p, e)).
Proof.
  split.
  - intros bld ro s e e_ret Hk Hfull Hnone Hroom Hret.
    destruct (hyper_entry_on_full_table bld ro e s Hfull Hnone) as [Ht _].
    split.
    + rewrite (hyper_entry_step bld ro s e Hk). cbn [Hyper.spans_in_progress].
      destruct Hroom as [Hp|Hp].
      * rewrite bpf_map_update_elem_present by exact Hp. apply lookup_insert_eq.
      * rewrite bpf_map_update_elem_room by exact Hp. apply lookup_insert_eq.
    + unfold Hyper.step at 1. cbn [fst snd].
      rewrite hyper_absent_key_skips; [reflexivity | discriminate |].
      rewrite Ht, Hret. exact Hnone.
  - intros bld ro p p_ret s e e_ret Hp Hpr Hk Hfull Hnone Hroom Hret.
    destruct (tonic_entry_on_full_table bld ro p e s Hp Hfull Hnone) as [Ht _].
    split.
    + rewrite (tonic_entry_step bld ro p s e Hp Hk). cbn [Tonic.spans_in_progress].
      destruct Hroom as [Hs|Hs].
      * rewrite bpf_map_update_elem_present by exact Hs. apply lookup_insert_eq.
      * rewrite bpf_map_update_elem_room by exact Hs. apply lookup_insert_eq.
    + unfold Tonic.step at 1. cbn [fst snd].
      rewrite tonic_absent_key_skips; [reflexivity | exact Hpr |].
      rewrite Ht, Hret. exact Hnone.
Qed.

Lemma untracked_request_leaves_span_behind_witness :
  Hyper.spans_in_progress
    (Hyper.step sample_build sample_hyper_rodata
       (Hyper.step sample_build sample_hyper_rodata sample_hyper_full
          (Hyper.serve_connection, sample_env 0xAA 2000))
       (Hyper.serve_connection_return, sample_env 0xAA 3000))
    !! 0xAA
  = Some (generate_span_context (sample_env 0xAA 2000)).
Proof.
  destruct (proj1 untracked_request_leaves_span_behind
              sample_build sample_hyper_rodata sample_hyper_full
              (sample_env 0xAA 2000) (sample_env 0xAA 3000))
    as [Hs Hsame].
  - vm_compute. discriminate.
  - vm_compute. lia.
  - vm_compute. reflexivity.
  - right. vm_compute. lia.
  - vm_compute. reflexivity.
  - rewrite Hsame. exact Hs.
Defined.

(* ===================================================================== *)
(** ** Opening and closing a request *)
(* ===================================================================== *)

Lemma delete_after_insert {V : Type} (m : gmap Z V) (k : Z) (v : V) :
  m !! k = None -> delete k (<[k := v]> m) = m.
Proof. intros Hk. rewrite delete_insert_eq. apply delete_id. exact Hk. Qed.

(** X18: opening and closing a request restores the maps.  For a non-null
    key that is in neither map, with room in both, the entry probe followed
    by the return probe on the same key leaves the correlation table and
    [spans_in_progress] exactly as they were before the entry, and the
    emission channel longer by one record: the record opened at entry (text
    fields zeroed, status 0) with the end timestamp read by the return
    probe.  This holds for the hyper pair and for every tonic entry probe
    with every tonic return probe. *)
Theorem open_then_close_restores_maps :
  (forall bld ro s e e_ret,
      hyper_identity bld Hyper.serve_connection e <> 0 ->
      Hyper.context_to_http_events s
        !! hyper_identity bld Hyper.serve_connection e = None ->
      Hyper.spans_in_progress s
        !! hyper_identity bld Hyper.serve_connection e = None ->
      (size (Hyper.context_to_http_events s) < Hyper.MAX_CONCURRENT)%nat ->
      (size (Hyper.spans_in_progress s) < spans_max_entries bld)%nat ->
      hyper_identity bld Hyper.serve_connection_return e_ret
      = hyper_identity bld Hyper.serve_connection e ->
      Hyper.step bld ro (Hyper.step bld ro s (Hyper.serve_connection, e))
        (Hyper.serve_connection_return, e_ret)
      = Hyper.mk_maps (Hyper.context_to_http_events s) (Hyper.spans_in_progress s)
          (Hyper.events s
             ++ [Hyper.set_end_time (bpf_ktime_get_ns e_ret) (hyper_opened e)]))
  /\ (forall bld ro p p_ret s e e_ret,
        tonic_is_entry p = true ->
        tonic_is_return p_ret = true ->
        tonic_identity bld p e <> 0 ->
        Tonic.context_to_grpc_events s !! tonic_identity bld p e = None ->
        Tonic.spans_in_progress s !! tonic_identity bld p e = None ->
        (size (Tonic.context_to_grpc_events s) < Tonic.MAX_CONCURRENT)%nat ->
        (size (Tonic.spans_in_progress s) < spans_max_entries bld)%nat ->
        tonic_identity bld p_ret e_ret = tonic_identity bld p e ->
        Tonic.step bld ro (Tonic.step bld ro s (p, e)) (p_ret, e_ret)
        = Tonic.mk_maps (Tonic.context_to_grpc_events s) (Tonic.spans_in_progress s)
            (Tonic.grpc_events s
               ++ [Tonic.set_end_time (bpf_ktime_get_ns e_ret)
                     (tonic_entry_record ro bld p e)])).
Proof.
  split.
  - intros bld ro s e e_ret Hk Ht Hs Hroom Hsroom Hret.
    rewrite (hyper_entry_step bld ro s e Hk).
    rewrite !bpf_map_update_elem_room by assumption.
    rewrite (hyper_return_step bld ro _ e_ret (hyper_opened e)).
    + cbn [Hyper.context_to_http_events Hyper.spans_in_progress Hyper.events].
      rewrite Hret, !delete_after_insert by assumption. reflexivity.
    + rewrite Hret. exact Hk.
    + cbn [Hyper.context_to_http_events]. rewrite Hret. apply lookup_insert_eq.
  - intros bld ro p p_ret s e e_ret Hp Hpr Hk Ht Hs Hroom Hsroom Hret.
    rewrite (tonic_entry_step bld ro p s e Hp Hk).
    rewrite !bpf_map_update_elem_room by assumption.
    rewrite (tonic_return_step bld ro p_ret _ e_ret (tonic_entry_record ro bld p e)).
    + cbn [Tonic.context_to_grpc_events Tonic.spans_in_progress Tonic.grpc_events].
      rewrite Hret, !delete_after_insert by assumption. reflexivity.
    + exact Hpr.
    + rewrite Hret. exact Hk.
    + cbn [Tonic.context_to_grpc_events]. rewrite Hret. apply lookup_insert_eq.
Qed.

Lemma open_then_close_restores_maps_witness :
  Tonic.step sample_build sample_tonic_rodata
    (Tonic.step sample_build sample_tonic_rodata Tonic.init
       (Tonic.server_serve, sample_env 0xCC 1000))
    (Tonic.client_call_return, sample_return_env 0xCC 3000 0)
  = Tonic.mk_maps (Tonic.context_to_grpc_events Tonic.init)
      (Tonic.spans_in_progress Tonic.init)
      (Tonic.grpc_events Tonic.init
         ++ [Tonic.set_end_time
               (bpf_ktime_get_ns (sample_return_env 0xCC 3000 0))
               (tonic_entry_record sample_tonic_rodata sample_build
                  Tonic.server_serve (sample_env 0xCC 1000))]).
Proof.
  apply (proj2 open_then_close_restores_maps);
    try reflexivity; vm_compute; first [discriminate | lia | reflexivity].
Defined.
